(** * Graph centralities of komotoshunto/door: degree, closeness, betweenness

    A shallow embedding of the three centrality functions of
    [src/関数/次数中心性.py], [src/関数/近接中心性.py] and
    [src/関数/媒介中心性.py], and proofs about them.

    Modelling choices, all visible in the definitions below:
    - a Python [dict] is an insertion-ordered association list ([dict]);
      [d[k]] on a plain dict raises [KeyError] when [k] is missing
      ([getitem]), [d[k] = v] overwrites in place or appends ([dset]);
    - a Python [set] is a duplicate-free list; its iteration order, which
      Python leaves unspecified, is taken to be insertion order.  The
      theorems on the graph algorithms are proved for every well-formed
      adjacency structure, whatever the order of its neighbour lists;
    - Python [int] is [Z]; Python [float] is a type [F] with the operations
      of the class [PyFloat].  The instance [rational] (exact, [Qc]) carries
      the theorems on the values of the scores.  The instance [binary64]
      (IEEE 754 doubles of the kernel) runs the documented golden example
      and shows where rounding makes a difference;
    - exceptions are explicit: every function returns in [res], and the
      [while] loops of the two breadth-first searches take fuel, [OutOfFuel]
      standing for a loop that would not end. *)

From Stdlib Require Import ZArith QArith Qabs Qcanon Lia PrimFloat Uint63 SpecFloat FloatOps.
From stdpp Require Import base tactics option list sets numbers strings.

Local Open Scope Z_scope.

(** ** Exceptions and the result monad *)

Inductive exn := KeyError | ZeroDivisionError | ValueError | TypeError.

Inductive res (A : Type) : Type :=
  | Ok (a : A)
  | Raise (e : exn)
  | OutOfFuel.
Arguments Ok {A} a.
Arguments Raise {A} e.
Arguments OutOfFuel {A}.

Global Instance res_ret : MRet res := @Ok.
Global Instance res_bind : MBind res := λ A B f m,
  match m with
  | Ok a => f a
  | Raise e => Raise e
  | OutOfFuel => OutOfFuel
  end.

(** A [for] loop whose body may raise. *)
Fixpoint foldM {A B : Type} (f : B → A → res B) (b : B) (l : list A) : res B :=
  match l with
  | [] => Ok b
  | x :: l' => b' ← f b x; foldM f b' l'
  end.

(** ** Python floats *)

Class PyFloat (F : Type) := {
  of_int : Z → F;            (* float(i) *)
  fadd : F → F → F;
  fmul : F → F → F;
  fquot : F → F → F;         (* the quotient, for a divisor that is not zero *)
  is_zero : F → bool;        (* x == 0.0 *)
}.

(** [x / y]: Python raises on a zero divisor. *)
Definition fdiv {F} {FL : PyFloat F} (x y : F) : res F :=
  if is_zero y then Raise ZeroDivisionError else Ok (fquot x y).

(** True division of two ints, [a / b]. *)
Definition int_div {F} {FL : PyFloat F} (a b : Z) : res F :=
  if b =? 0 then Raise ZeroDivisionError else Ok (fquot (of_int a) (of_int b)).

(** Exact arithmetic. *)
Definition rational : PyFloat Qc := {|
  of_int := Qc_of_Z;
  fadd := Qcplus;
  fmul := Qcmult;
  fquot := Qcdiv;
  is_zero := λ x, bool_decide (x = Qc_of_Z 0);
|}.

(** IEEE 754 binary64. [float(i)] is exact for [|i| < 2^53] and rounds to
    nearest up to [2^63]; the ints of these programs are node counts and
    distances. *)
Definition float_of_int (i : Z) : float :=
  if i <? 0 then PrimFloat.opp (PrimFloat.of_uint63 (Uint63.of_Z (- i)))
  else PrimFloat.of_uint63 (Uint63.of_Z i).

Definition binary64 : PyFloat float := {|
  of_int := float_of_int;
  fadd := PrimFloat.add;
  fmul := PrimFloat.mul;
  fquot := PrimFloat.div;
  is_zero := λ x, PrimFloat.eqb x PrimFloat.zero;
|}.

(** ** Python dicts and sets *)

Section Dict.
Context {K V : Type} `{EqDecision K}.

Definition dict := list (K * V).

Fixpoint dget (d : dict) (k : K) : option V :=
  match d with
  | [] => None
  | (k', v) :: d' => if decide (k' = k) then Some v else dget d' k
  end.

(** [d[k] = v] *)
Fixpoint dset (d : dict) (k : K) (v : V) : dict :=
  match d with
  | [] => [(k, v)]
  | (k', v') :: d' =>
      if decide (k' = k) then (k, v) :: d' else (k', v') :: dset d' k v
  end.

Definition keys (d : dict) : list K := d.*1.

(** [d[k]] on a plain dict *)
Definition getitem (d : dict) (k : K) : res V :=
  match dget d k with
  | Some v => Ok v
  | None => Raise KeyError
  end.

(** [{k: f(k) for k in l}] *)
Definition dict_comp (l : list K) (f : K → V) : dict :=
  foldl (λ d k, dset d k (f k)) [] l.

(** The same with a body that may raise. *)
Definition dict_compM (l : list K) (f : K → res V) : res dict :=
  foldM (λ d k, v ← f k; Ok (dset d k v)) [] l.
End Dict.
Arguments dict : clear implicits.

(** [s.add(x)] on a set *)
Definition set_add {A} `{EqDecision A} (x : A) (s : list A) : list A :=
  if decide (x ∈ s) then s else s ++ [x].

(** ** The programs *)

Section Programs.
Context {Node : Type} `{EqDecision Node}.

(** The adjacency structure: [defaultdict(set)]. *)
Definition graph := dict Node (list Node).

(** Reading [adj[v]]: a key that is missing reads as the empty set.
    (Where the searches read it, [v] is a key: see [fwd_inv] and
    [cl_inv] below.) *)
Definition adj_get (adj : graph) (v : Node) : list Node :=
  default [] (dget adj v).

(** One turn of the construction loop:
    [if u == v: continue; adj[u].add(v); adj[v].add(u)]. *)
Definition add_edge (adj : graph) (e : Node * Node) : graph :=
  let '(u, v) := e in
  if decide (u = v) then adj
  else
    let adj1 := dset adj u (set_add v (adj_get adj u)) in
    dset adj1 v (set_add u (adj_get adj1 v)).

Definition build_adj (edges : list (Node * Node)) : graph :=
  foldl add_edge [] edges.

Context {F : Type} {FL : PyFloat F}.

(** *** 次数中心性.py *)

Definition degree_centrality (edges : list (Node * Node)) : res (dict Node F) :=
  let adj := build_adj edges in
  let nodes := keys adj in
  let n := Z.of_nat (length nodes) in
  if n <=? 1 then Ok (dict_comp nodes (λ _, of_int 0))
  else
    let denom := of_int (n - 1) in
    dict_compM nodes
      (λ v, fdiv (of_int (Z.of_nat (length (adj_get adj v)))) denom).

(** *** 近接中心性.py *)

(** [if y not in dist: dist[y] = dist[x] + 1; q.append(y)] *)
Definition cl_visit (x : Node) (st : dict Node Z * list Node) (y : Node)
  : res (dict Node Z * list Node) :=
  let '(dist, q) := st in
  match dget dist y with
  | Some _ => Ok st
  | None => dx ← getitem dist x; Ok (dset dist y (dx + 1), q ++ [y])
  end.

(** [while q: x = q.popleft(); for y in adj[x]: ...] *)
Fixpoint cl_loop (adj : graph) (fuel : nat) (dist : dict Node Z) (q : list Node)
  : res (dict Node Z) :=
  match fuel with
  | O => OutOfFuel
  | S fuel' =>
      match q with
      | [] => Ok dist
      | x :: q' =>
          '(dist', q'') ← foldM (cl_visit x) (dist, q') (adj_get adj x);
          cl_loop adj fuel' dist' q''
      end
  end.

(** [sum(d for n, d in dist.items() if n != start)] *)
Definition sum_dist (dist : dict Node Z) (start : Node) : Z :=
  foldl (λ acc nd, if decide (nd.1 ≠ start) then acc + nd.2 else acc) 0 dist.

Definition bfs_sum_dist (adj : graph) (fuel : nat) (start : Node) : res (Z * Z) :=
  dist ← cl_loop adj fuel [(start, 0)] [start];
  Ok (sum_dist dist start, Z.of_nat (length dist)).

(** The body of [for s in nodes]. *)
Definition cl_score (adj : graph) (fuel : nat) (N : Z) (wf_improved : bool)
    (C : dict Node F) (s : Node) : res (dict Node F) :=
  '(total_dist, reachable) ← bfs_sum_dist adj fuel s;
  if (reachable <=? 1) || (total_dist =? 0) then Ok (dset C s (of_int 0))
  else
    score ← int_div (reachable - 1) total_dist;
    score ← (if wf_improved && (N >? 1)
             then r ← int_div (reachable - 1) (N - 1); Ok (fmul score r)
             else Ok score);
    Ok (dset C s score).

Definition closeness_centrality (edges : list (Node * Node)) (wf_improved : bool)
  : res (dict Node F) :=
  let adj := build_adj edges in
  let nodes := keys adj in
  let N := Z.of_nat (length nodes) in
  if N =? 0 then Ok []
  else foldM (cl_score adj (S (length nodes)) N wf_improved) [] nodes.

(** *** 媒介中心性.py *)

(** The working state of the forward search from one source:
    the visiting order [S], the predecessor lists [P], [sigma], [dist]
    and the queue [Q]. *)
Record fwd_state := FwdState {
  st_S : list Node;
  st_P : dict Node (list Node);
  st_sigma : dict Node F;
  st_dist : dict Node Z;
  st_Q : list Node;
}.

(** The body of [for w in adj[v]]:
    [if dist[w] < 0: dist[w] = dv; Q.append(w)] then
    [if dist[w] == dv: sigma[w] += sigma[v]; P[w].append(v)]. *)
Definition relax (v : Node) (dv : Z) (st : fwd_state) (w : Node) : res fwd_state :=
  dw ← getitem (st_dist st) w;
  let st1 :=
    if dw <? 0
    then FwdState (st_S st) (st_P st) (st_sigma st)
                  (dset (st_dist st) w dv) (st_Q st ++ [w])
    else st in
  dw' ← getitem (st_dist st1) w;
  if dw' =? dv then
    sw ← getitem (st_sigma st1) w;
    sv ← getitem (st_sigma st1) v;
    let sigma' := dset (st_sigma st1) w (fadd sw sv) in
    pw ← getitem (st_P st1) w;
    Ok (FwdState (st_S st1) (dset (st_P st1) w (pw ++ [v])) sigma'
                 (st_dist st1) (st_Q st1))
  else Ok st1.

(** [while Q: v = Q.popleft(); S.append(v); dv = dist[v] + 1; for w in adj[v]: ...] *)
Fixpoint fwd_loop (adj : graph) (fuel : nat) (st : fwd_state) : res fwd_state :=
  match fuel with
  | O => OutOfFuel
  | S fuel' =>
      match st_Q st with
      | [] => Ok st
      | v :: Q' =>
          let st0 := FwdState (st_S st ++ [v]) (st_P st) (st_sigma st)
                              (st_dist st) Q' in
          dv0 ← getitem (st_dist st0) v;
          st' ← foldM (relax v (dv0 + 1)) st0 (adj_get adj v);
          fwd_loop adj fuel' st'
      end
  end.

(** The forward phase from source [s]. *)
Definition forward (adj : graph) (nodes : list Node) (s : Node) : res fwd_state :=
  let P := dict_comp nodes (λ _, []) in
  let sigma := dict_comp nodes (λ _, of_int 0) in
  let dist := dict_comp nodes (λ _, -1) in
  let sigma := dset sigma s (of_int 1) in
  let dist := dset dist s 0 in
  fwd_loop adj (S (length nodes)) (FwdState [] P sigma dist [s]).

(** [for v in P[w]: delta[v] += sigma[v] * coeff] *)
Definition push_delta (sigma : dict Node F) (coeff : F)
    (delta : dict Node F) (v : Node) : res (dict Node F) :=
  dv ← getitem delta v;
  sv ← getitem sigma v;
  Ok (dset delta v (fadd dv (fmul sv coeff))).

(** One turn of [while S: w = S.pop(); ...]. *)
Definition back_step (s : Node) (P : dict Node (list Node)) (sigma : dict Node F)
    (st : dict Node F * dict Node F) (w : Node)
  : res (dict Node F * dict Node F) :=
  let '(delta, Cb) := st in
  sw ← getitem sigma w;
  delta ← (if is_zero sw then Ok delta
           else
             dw ← getitem delta w;
             coeff ← fdiv (fadd (of_int 1) dw) sw;
             pw ← getitem P w;
             foldM (push_delta sigma coeff) delta pw);
  Cb ← (if decide (w ≠ s)
        then cw ← getitem Cb w; dw ← getitem delta w; Ok (dset Cb w (fadd cw dw))
        else Ok Cb);
  Ok (delta, Cb).

(** The body of [for s in nodes]: forward search, then the dependencies
    pushed back along [S] from its end. *)
Definition source_pass (adj : graph) (nodes : list Node)
    (Cb : dict Node F) (s : Node) : res (dict Node F) :=
  st ← forward adj nodes s;
  let delta := dict_comp nodes (λ _, of_int 0) in
  '(_, Cb') ← foldM (back_step s (st_P st) (st_sigma st)) (delta, Cb)
                    (reverse (st_S st));
  Ok Cb'.

(** [for v in Cb: Cb[v] /= 2.0] *)
Definition halve (Cb : dict Node F) : res (dict Node F) :=
  foldM (λ Cb v, c ← getitem Cb v; c' ← fdiv c (of_int 2); Ok (dset Cb v c'))
        Cb (keys Cb).

(** [for v in Cb: Cb[v] *= scale] *)
Definition rescale (scale : F) (Cb : dict Node F) : res (dict Node F) :=
  foldM (λ Cb v, c ← getitem Cb v; Ok (dset Cb v (fmul c scale))) Cb (keys Cb).

Definition betweenness_centrality (edges : list (Node * Node)) (normalized : bool)
  : res (dict Node F) :=
  let adj := build_adj edges in
  let nodes := keys adj in
  let n := Z.of_nat (length nodes) in
  if n <=? 2 then Ok (dict_comp nodes (λ _, of_int 0))
  else
    let Cb := dict_comp nodes (λ _, of_int 0) in
    Cb ← foldM (source_pass adj nodes) Cb nodes;
    Cb ← halve Cb;
    if normalized then
      scale ← (if n >? 2 then fdiv (of_int 2) (of_int ((n - 1) * (n - 2)))
               else Ok (of_int 0));
      if negb (is_zero scale) then rescale scale Cb else Ok Cb
    else Ok Cb.
End Programs.

(** * Facts on the result monad, dicts and sets *)

Lemma bind_Ok {A B} (m : res A) (f : A → res B) (b : B) :
  m ≫= f = Ok b ↔ ∃ a, m = Ok a ∧ f a = Ok b.
Proof.
  destruct m; simpl; split; try (intros (? & ? & ?)); try discriminate; eauto.
  congruence.
Qed.

Lemma foldM_app {A B} (f : B → A → res B) (b : B) (l1 l2 : list A) :
  foldM f b (l1 ++ l2) = foldM f b l1 ≫= λ b', foldM f b' l2.
Proof.
  revert b. induction l1 as [|x l1 IH]; intros b; simpl; [done|].
  destruct (f b x); simpl; auto.
Qed.

(** A loop whose body never raises is a plain fold. *)
Lemma foldM_pure {A B} (f : B → A → res B) (g : B → A → B) (b : B) (l : list A) :
  (∀ b x, x ∈ l → f b x = Ok (g b x)) → foldM f b l = Ok (foldl g b l).
Proof.
  revert b. induction l as [|x l IH]; intros b Hf; simpl; [done|].
  rewrite Hf by left. simpl. apply IH. intros; apply Hf; by right.
Qed.

(** A loop invariant for [foldM]: [I] holds of the processed prefix. *)
Lemma foldM_inv {A B} (I : list A → B → Prop) (f : B → A → res B) (b : B) (l : list A) :
  I [] b →
  (∀ l1 x l2 b, l = l1 ++ x :: l2 → I l1 b → ∃ b', f b x = Ok b' ∧ I (l1 ++ [x]) b') →
  ∃ b', foldM f b l = Ok b' ∧ I l b'.
Proof.
  intros H0 Hstep.
  assert (G : ∀ l2 l1 b, l = l1 ++ l2 → I l1 b → ∃ b', foldM f b l2 = Ok b' ∧ I l b').
  { induction l2 as [|x l2 IH]; intros l1 b1 El HI.
    - rewrite app_nil_r in El. subst. eauto.
    - destruct (Hstep l1 x l2 b1 El HI) as (b' & E & HI'). simpl. rewrite E. simpl.
      apply (IH (l1 ++ [x])); [by rewrite <- app_assoc | done]. }
  by apply (G l [] b).
Qed.

Section DictFacts.
Context {K V : Type} `{EqDecision K}.
Implicit Types (d : dict K V) (k : K) (v : V).

Lemma dget_dset d k v k' :
  dget (dset d k v) k' = if decide (k = k') then Some v else dget d k'.
Proof.
  induction d as [|[k0 v0] d IH]; simpl.
  - done.
  - destruct (decide (k0 = k)) as [->|Hne]; simpl.
    + by destruct (decide (k = k')).
    + rewrite IH. destruct (decide (k0 = k')), (decide (k = k')); congruence.
Qed.

Lemma dget_dset_eq d k v : dget (dset d k v) k = Some v.
Proof. rewrite dget_dset. by rewrite decide_True. Qed.

Lemma dget_dset_ne d k v k' : k ≠ k' → dget (dset d k v) k' = dget d k'.
Proof. intros. rewrite dget_dset. by rewrite decide_False. Qed.

Lemma dget_is_Some d k : is_Some (dget d k) ↔ k ∈ keys d.
Proof.
  unfold keys. induction d as [|[k0 v0] d IH]; simpl.
  - split; [by intros [? ?] | by intros ?%elem_of_nil].
  - rewrite elem_of_cons. destruct (decide (k0 = k)) as [->|Hne].
    + split; eauto.
    + rewrite IH. naive_solver.
Qed.

Lemma dget_None d k : dget d k = None ↔ k ∉ keys d.
Proof. rewrite <- dget_is_Some, eq_None_not_Some. done. Qed.

Lemma getitem_Ok d k v : getitem d k = Ok v ↔ dget d k = Some v.
Proof. unfold getitem. destruct (dget d k); naive_solver. Qed.

Lemma keys_dset_in d k v : k ∈ keys d → keys (dset d k v) = keys d.
Proof.
  unfold keys. induction d as [|[k0 v0] d IH]; simpl.
  - by intros ?%elem_of_nil.
  - intros Hin. destruct (decide (k0 = k)) as [->|Hne]; simpl; [done|].
    f_equal. apply IH. apply elem_of_cons in Hin. naive_solver.
Qed.

Lemma keys_dset_notin d k v : k ∉ keys d → keys (dset d k v) = keys d ++ [k].
Proof.
  unfold keys. induction d as [|[k0 v0] d IH]; simpl; [done|].
  intros Hin. apply not_elem_of_cons in Hin as [? ?].
  rewrite decide_False by done. simpl. f_equal. auto.
Qed.

Lemma elem_of_keys_dset d k v k' : k' ∈ keys (dset d k v) ↔ k' = k ∨ k' ∈ keys d.
Proof.
  rewrite <- !dget_is_Some, dget_dset. destruct (decide (k = k')) as [->|].
  - split; eauto.
  - naive_solver.
Qed.

Lemma NoDup_keys_dset d k v : NoDup (keys d) → NoDup (keys (dset d k v)).
Proof.
  intros Hnd. destruct (decide (k ∈ keys d)).
  - by rewrite keys_dset_in.
  - rewrite keys_dset_notin by done. apply NoDup_app. split_and!; [done| |apply NoDup_singleton].
    intros x Hx ->%list_elem_of_singleton. done.
Qed.

Lemma length_keys d : length (keys d) = length d.
Proof. unfold keys. by rewrite length_fmap. Qed.

Lemma dict_comp_fold_get (f : K → V) (l : list K) d k :
  dget (foldl (λ d k, dset d k (f k)) d l) k
  = if decide (k ∈ l) then Some (f k) else dget d k.
Proof.
  revert d. induction l as [|x l IH]; intros d; cbn [foldl].
  - by rewrite decide_False by apply not_elem_of_nil.
  - rewrite IH. destruct (decide (k ∈ l)).
    + by rewrite decide_True by (by right).
    + rewrite dget_dset. destruct (decide (x = k)) as [->|].
      * by rewrite decide_True by left.
      * rewrite decide_False; [done|]. rewrite elem_of_cons. naive_solver.
Qed.

Lemma dict_comp_fold_keys (f : K → V) (l : list K) d :
  NoDup (keys d ++ l) → keys (foldl (λ d k, dset d k (f k)) d l) = keys d ++ l.
Proof.
  revert d. induction l as [|x l IH]; intros d Hnd; simpl.
  - by rewrite app_nil_r.
  - assert (x ∉ keys d).
    { apply NoDup_app in Hnd as (_ & Hd & _). intros Hx. apply (Hd _ Hx). by left. }
    rewrite IH; rewrite keys_dset_notin by done; rewrite <- app_assoc; done.
Qed.

Lemma dict_comp_ext (f g : K → V) (l : list K) :
  (∀ k, k ∈ l → f k = g k) → dict_comp l f = dict_comp l g.
Proof.
  unfold dict_comp. generalize ([] : dict K V).
  induction l as [|x l IH]; intros d Hfg; simpl; [done|].
  rewrite Hfg by left. apply IH. intros; apply Hfg; by right.
Qed.

Lemma dget_dict_comp (f : K → V) (l : list K) k :
  dget (dict_comp l f) k = if decide (k ∈ l) then Some (f k) else None.
Proof. unfold dict_comp. by rewrite dict_comp_fold_get. Qed.

Lemma keys_dict_comp (f : K → V) (l : list K) :
  NoDup l → keys (dict_comp l f) = l.
Proof. intros. unfold dict_comp. by rewrite dict_comp_fold_keys. Qed.
End DictFacts.

(** * The adjacency structure *)

Section GraphFacts.
Context {Node : Type} `{EqDecision Node}.
Implicit Types (adj : dict Node (list Node)) (u v w x y : Node).

(** What the construction loop establishes, and all that the searches
    rely on. *)
Record adj_wf adj : Prop := {
  wf_keys : NoDup (keys adj);
  wf_nodup : ∀ v, NoDup (adj_get adj v);
  wf_sym : ∀ v w, w ∈ adj_get adj v → v ∈ adj_get adj w;
  wf_irrefl : ∀ v, v ∉ adj_get adj v;
  wf_key : ∀ v w, w ∈ adj_get adj v → v ∈ keys adj;
  wf_inhabited : ∀ v, v ∈ keys adj → adj_get adj v ≠ [];
}.

Lemma wf_key_r adj v w : adj_wf adj → w ∈ adj_get adj v → w ∈ keys adj.
Proof. intros Hwf Hw. eapply wf_key; [done|]. by apply wf_sym. Qed.

Lemma adj_get_dset adj u l v :
  adj_get (dset adj u l) v = if decide (u = v) then l else adj_get adj v.
Proof. unfold adj_get. rewrite dget_dset. by destruct (decide (u = v)). Qed.

Lemma elem_of_set_add (x y : Node) (s : list Node) : y ∈ set_add x s ↔ y = x ∨ y ∈ s.
Proof.
  unfold set_add. destruct (decide (x ∈ s)).
  - naive_solver.
  - rewrite elem_of_app, list_elem_of_singleton. naive_solver.
Qed.

Lemma NoDup_set_add (x : Node) (s : list Node) : NoDup s → NoDup (set_add x s).
Proof.
  unfold set_add. intros Hnd. destruct (decide (x ∈ s)); [done|].
  apply NoDup_app. split_and!; [done| |apply NoDup_singleton].
  by intros y Hy ->%list_elem_of_singleton.
Qed.

Lemma set_add_not_nil (x : Node) (s : list Node) : set_add x s ≠ [].
Proof.
  intros E. assert (Hx : x ∈ set_add x s) by (apply elem_of_set_add; by left).
  rewrite E in Hx. by apply elem_of_nil in Hx.
Qed.

Lemma elem_of_add_edge adj a b v w :
  a ≠ b →
  w ∈ adj_get (add_edge adj (a, b)) v
  ↔ w ∈ adj_get adj v ∨ (v = a ∧ w = b) ∨ (v = b ∧ w = a).
Proof.
  intros Hab. unfold add_edge. rewrite decide_False by done.
  rewrite !adj_get_dset.
  destruct (decide (b = v)) as [<-|Hb].
  - rewrite decide_False by done. rewrite elem_of_set_add. naive_solver.
  - destruct (decide (a = v)) as [<-|Ha]; [rewrite elem_of_set_add|]; naive_solver.
Qed.

Lemma keys_add_edge adj a b x :
  x ∈ keys (add_edge adj (a, b)) ↔ x ∈ keys adj ∨ (a ≠ b ∧ (x = a ∨ x = b)).
Proof.
  unfold add_edge. destruct (decide (a = b)); [naive_solver|].
  rewrite !elem_of_keys_dset. naive_solver.
Qed.

Lemma build_adj_snoc (edges : list (Node * Node)) e :
  build_adj (edges ++ [e]) = add_edge (build_adj edges) e.
Proof. unfold build_adj. by rewrite foldl_app. Qed.

(** The neighbours of [v]: the other ends of the edges at [v], self-loops
    apart. *)
Lemma build_adj_edge (edges : list (Node * Node)) v w :
  w ∈ adj_get (build_adj edges) v ↔ v ≠ w ∧ ((v, w) ∈ edges ∨ (w, v) ∈ edges).
Proof.
  induction edges as [|[a b] edges IH] using rev_ind.
  - cbn. split; [by intros ?%elem_of_nil|]. intros [_ [?%elem_of_nil|?%elem_of_nil]]; done.
  - rewrite build_adj_snoc. destruct (decide (a = b)) as [->|Hab].
    + unfold add_edge. rewrite decide_True by done. rewrite IH.
      rewrite !elem_of_app, !list_elem_of_singleton. naive_solver.
    + rewrite elem_of_add_edge by done. rewrite IH.
      rewrite !elem_of_app, !list_elem_of_singleton. naive_solver.
Qed.

(** The nodes: the ends of the edges that are not self-loops. *)
Lemma build_adj_keys (edges : list (Node * Node)) v :
  v ∈ keys (build_adj edges) ↔ ∃ w, v ≠ w ∧ ((v, w) ∈ edges ∨ (w, v) ∈ edges).
Proof.
  induction edges as [|[a b] edges IH] using rev_ind.
  - cbn. split; [by intros ?%elem_of_nil|]. intros (w & _ & [?%elem_of_nil|?%elem_of_nil]); done.
  - rewrite build_adj_snoc, keys_add_edge, IH. split.
    + intros [(w & ? & Hw)|(Hab & [->| ->])].
      * exists w. rewrite !elem_of_app. naive_solver.
      * exists b. rewrite !elem_of_app, !list_elem_of_singleton. naive_solver.
      * exists a. rewrite !elem_of_app, !list_elem_of_singleton. naive_solver.
    + intros (w & Hne & Hw). rewrite !elem_of_app, !list_elem_of_singleton in Hw.
      destruct Hw as [[?|?]|[?|?]]; [left; eauto|simplify_eq; right; eauto|left; eauto|simplify_eq; right; eauto].
Qed.

Lemma NoDup_keys_build_adj (edges : list (Node * Node)) : NoDup (keys (build_adj edges)).
Proof.
  induction edges as [|[a b] edges IH] using rev_ind; [apply NoDup_nil_2|].
  rewrite build_adj_snoc. unfold add_edge. destruct (decide (a = b)); [done|].
  by do 2 apply NoDup_keys_dset.
Qed.

Lemma NoDup_adj_get_build_adj (edges : list (Node * Node)) v :
  NoDup (adj_get (build_adj edges) v).
Proof.
  induction edges as [|[a b] edges IH] using rev_ind; [apply NoDup_nil_2|].
  rewrite build_adj_snoc. unfold add_edge. destruct (decide (a = b)); [done|].
  rewrite !adj_get_dset.
  destruct (decide (b = v)) as [<-|?].
  - apply NoDup_set_add. rewrite decide_False by done. done.
  - destruct (decide (a = v)) as [<-|?]; [by apply NoDup_set_add | done].
Qed.

Theorem build_adj_wf (edges : list (Node * Node)) : adj_wf (build_adj edges).
Proof.
  split.
  - apply NoDup_keys_build_adj.
  - apply NoDup_adj_get_build_adj.
  - intros v w. rewrite !build_adj_edge. naive_solver.
  - intros v. rewrite build_adj_edge. naive_solver.
  - intros v w. rewrite build_adj_edge, build_adj_keys. naive_solver.
  - intros v [w Hw]%build_adj_keys E. apply build_adj_edge in Hw.
    rewrite E in Hw. by apply elem_of_nil in Hw.
Qed.
End GraphFacts.

(** * Finite sums over lists *)

Section BigSum.
Context {M : Type} (zero : M) (add mul : M → M → M).
Hypothesis add_assoc : ∀ a b c, add a (add b c) = add (add a b) c.
Hypothesis add_comm : ∀ a b, add a b = add b a.
Hypothesis add_zero_l : ∀ a, add zero a = a.
Hypothesis mul_zero_r : ∀ a, mul a zero = zero.
Hypothesis mul_add_r : ∀ a b c, mul a (add b c) = add (mul a b) (mul a c).

Definition big {A} (f : A → M) (l : list A) : M :=
  foldr (λ x acc, add (f x) acc) zero l.

Lemma big_cons {A} (f : A → M) x l : big f (x :: l) = add (f x) (big f l).
Proof. reflexivity. Qed.

Lemma add_zero_r a : add a zero = a.
Proof using add_comm add_zero_l. by rewrite add_comm. Qed.

Lemma big_app {A} (f : A → M) l1 l2 :
  big f (l1 ++ l2) = add (big f l1) (big f l2).
Proof using add_assoc add_zero_l.
  induction l1 as [|x l1 IH]; simpl; [done|]. by rewrite IH.
Qed.

Lemma big_ext {A} (f g : A → M) l :
  (∀ x, x ∈ l → f x = g x) → big f l = big g l.
Proof.
  induction l as [|x l IH]; intros Hfg; simpl; [done|].
  rewrite Hfg by left. rewrite IH; [done|]. intros; apply Hfg; by right.
Qed.

Lemma big_zero {A} (f : A → M) l :
  (∀ x, x ∈ l → f x = zero) → big f l = zero.
Proof using add_zero_l.
  induction l as [|x l IH]; intros Hf; simpl; [done|].
  rewrite Hf by left. rewrite IH; [done|]. intros; apply Hf; by right.
Qed.

Lemma big_perm {A} (f : A → M) l1 l2 : l1 ≡ₚ l2 → big f l1 = big f l2.
Proof using add_assoc add_comm.
  induction 1 as [|x l1 l2 _ IH|x y l|l1 l2 l3 _ IH1 _ IH2]; simpl.
  - done.
  - by rewrite IH.
  - rewrite !add_assoc. f_equal. apply add_comm.
  - congruence.
Qed.

Lemma big_add {A} (f g : A → M) l :
  big (λ x, add (f x) (g x)) l = add (big f l) (big g l).
Proof using add_assoc add_comm add_zero_l.
  induction l as [|x l IH]; simpl; [by rewrite add_zero_l|].
  rewrite IH, !add_assoc. f_equal.
  rewrite <- !add_assoc. f_equal. apply add_comm.
Qed.

Lemma big_swap {A B} (f : A → B → M) l1 l2 :
  big (λ x, big (λ y, f x y) l2) l1 = big (λ y, big (λ x, f x y) l1) l2.
Proof using add_assoc add_comm add_zero_l.
  induction l1 as [|x l1 IH]; simpl.
  - symmetry. by apply big_zero.
  - by rewrite IH, big_add.
Qed.

Lemma big_mul {A} (c : M) (f : A → M) l :
  mul c (big f l) = big (λ x, mul c (f x)) l.
Proof using mul_zero_r mul_add_r.
  induction l as [|x l IH]; simpl; [done|]. by rewrite mul_add_r, IH.
Qed.

Lemma big_filter {A} (P : A → Prop) `{∀ x, Decision (P x)} (f : A → M) l :
  big f (filter P l) = big (λ x, if decide (P x) then f x else zero) l.
Proof using add_zero_l.
  induction l as [|x l IH]; simpl; [done|].
  rewrite filter_cons. destruct (decide (P x)); simpl; by rewrite IH.
Qed.

(** A sum over [l1] read as a sum over a larger list. *)
Lemma big_sub `{EqDecision A} (f : A → M) (l1 l2 : list A) :
  NoDup l1 → NoDup l2 → (∀ x, x ∈ l1 → x ∈ l2) →
  big f l1 = big (λ x, if decide (x ∈ l1) then f x else zero) l2.
Proof using add_assoc add_comm add_zero_l.
  intros H1 H2 Hsub. rewrite <- (big_filter (λ x, x ∈ l1)).
  apply big_perm. apply NoDup_Permutation; [done|by apply NoDup_filter|].
  intros x. rewrite list_elem_of_filter. naive_solver.
Qed.

(** The sum of a function that vanishes off one point. *)
Lemma big_point `{EqDecision A} (f : A → M) (a : A) l :
  NoDup l → a ∈ l → (∀ x, x ∈ l → x ≠ a → f x = zero) → big f l = f a.
Proof using add_assoc add_comm add_zero_l.
  intros Hnd Ha Hf.
  rewrite (big_ext f (λ x, if decide (x ∈ [a]) then f x else zero)).
  - rewrite <- (big_sub f [a] l); simpl.
    + apply add_zero_r.
    + apply NoDup_singleton.
    + done.
    + by intros x ->%list_elem_of_singleton.
  - intros x Hx. destruct (decide (x ∈ [a])) as [|Hn]; [done|].
    apply Hf; [done|]. by intros ->; apply Hn, list_elem_of_singleton.
Qed.
End BigSum.

Notation sumN := (big 0%nat Nat.add).
Notation sumQ := (big 0%Qc Qcplus).

(** * Specification: paths, distances and the centralities in words *)

Section Spec.
Context {Node : Type} `{EqDecision Node}.
Variable adj : dict Node (list Node).

(** The walks with [k] edges from [u] to [w], each the list of its
    [k + 1] nodes. *)
Fixpoint walks (k : nat) (u w : Node) : list (list Node) :=
  match k with
  | O => if decide (u = w) then [[u]] else []
  | S k' => adj_get adj u ≫= λ x, (u ::.) <$> walks k' x w
  end.

Definition nwalks (k : nat) (u w : Node) : nat := length (walks k u w).

(** The hop distance: the least number of edges of a walk from [u] to [w].
    A shortest walk repeats no node, so it has fewer edges than there are
    nodes ([reach_bounded] below). *)
Definition distance (u w : Node) : option nat :=
  find (λ k, negb (nwalks k u w =? 0)%nat) (seq 0 (S (length (keys adj)))).

Definition shortest_paths (u w : Node) : list (list Node) :=
  match distance u w with
  | Some k => walks k u w
  | None => []
  end.

(** The number of shortest paths from [u] to [w]. *)
Definition npaths (u w : Node) : nat := length (shortest_paths u w).

(** The fraction of the shortest [u]–[w] paths that pass through [v]. *)
Definition pair_fraction (u w v : Node) : Qc :=
  (Qc_of_Z (Z.of_nat (length (filter (λ p, v ∈ p) (shortest_paths u w))))
   / Qc_of_Z (Z.of_nat (npaths u w)))%Qc.

(** The unordered pairs of distinct elements of a duplicate-free list. *)
Fixpoint unordered_pairs (l : list Node) : list (Node * Node) :=
  match l with
  | [] => []
  | x :: l' => (pair x <$> l') ++ unordered_pairs l'
  end.

(** Betweenness as the spec words it: the sum, over the unordered pairs of
    nodes other than [v] joined by a shortest path, of the fraction of
    their shortest paths that pass through [v]. *)
Definition pair_dependency_score (v : Node) : Qc :=
  sumQ (λ uw, pair_fraction uw.1 uw.2 v)
       (filter (λ uw, uw.1 ≠ v ∧ uw.2 ≠ v ∧ shortest_paths uw.1 uw.2 ≠ [])
               (unordered_pairs (keys adj))).

(** The nodes reachable from [s], [s] among them, and the sum of the hop
    distances from [s] to the others. *)
Definition reachable_from (s : Node) : list Node :=
  filter (λ w, is_Some (distance s w)) (keys adj).

Definition hops (s w : Node) : nat := default 0%nat (distance s w).

Definition total_hops (s : Node) : nat :=
  sumN (hops s) (filter (λ w, w ≠ s) (reachable_from s)).

(** Closeness as the spec words it. *)
Definition closeness_spec (wf_improved : bool) (s : Node) : Qc :=
  let reachable := Z.of_nat (length (reachable_from s)) in
  let total := Z.of_nat (total_hops s) in
  let N := Z.of_nat (length (keys adj)) in
  if (reachable <=? 1) || (total =? 0) then Qc_of_Z 0
  else
    let score := (Qc_of_Z (reachable - 1) / Qc_of_Z total)%Qc in
    if wf_improved && (N >? 1)
    then (score * (Qc_of_Z (reachable - 1) / Qc_of_Z (N - 1)))%Qc
    else score.

(** Degree as the spec words it. *)
Definition degree_spec (v : Node) : Qc :=
  let n := Z.of_nat (length (keys adj)) in
  if n <=? 1 then Qc_of_Z 0
  else (Qc_of_Z (Z.of_nat (length (adj_get adj v))) / Qc_of_Z (n - 1))%Qc.
End Spec.

(** * Sums of naturals and of rationals *)

Ltac nat_laws := intros; lia.
Ltac Qc_laws := intros; ring.

Section Sums.
Context {A : Type}.
Implicit Types (l : list A).

Lemma sumN_app (f : A → nat) l1 l2 : sumN f (l1 ++ l2) = (sumN f l1 + sumN f l2)%nat.
Proof. apply big_app; nat_laws. Qed.
Lemma sumN_ext (f g : A → nat) l : (∀ x, x ∈ l → f x = g x) → sumN f l = sumN g l.
Proof. apply big_ext. Qed.
Lemma sumN_zero (f : A → nat) l : (∀ x, x ∈ l → f x = 0%nat) → sumN f l = 0%nat.
Proof. apply big_zero; nat_laws. Qed.
Lemma sumN_perm (f : A → nat) l1 l2 : l1 ≡ₚ l2 → sumN f l1 = sumN f l2.
Proof. apply big_perm; nat_laws. Qed.
Lemma sumN_swap {B} (f : A → B → nat) l1 (l2 : list B) :
  sumN (λ x, sumN (λ y, f x y) l2) l1 = sumN (λ y, sumN (λ x, f x y) l1) l2.
Proof. apply big_swap; nat_laws. Qed.
Lemma sumN_mul (c : nat) (f : A → nat) l :
  (c * sumN f l)%nat = sumN (λ x, (c * f x)%nat) l.
Proof. apply (big_mul 0%nat Nat.add Nat.mul); nat_laws. Qed.
Lemma sumN_mul_r (c : nat) (f : A → nat) l :
  (sumN f l * c)%nat = sumN (λ x, (f x * c)%nat) l.
Proof.
  rewrite Nat.mul_comm, sumN_mul. apply sumN_ext. intros; apply Nat.mul_comm.
Qed.
Lemma sumN_filter (P : A → Prop) `{∀ x, Decision (P x)} (f : A → nat) l :
  sumN f (filter P l) = sumN (λ x, if decide (P x) then f x else 0%nat) l.
Proof. apply big_filter; nat_laws. Qed.
Lemma sumN_sub `{EqDecision A} (f : A → nat) l1 l2 :
  NoDup l1 → NoDup l2 → (∀ x, x ∈ l1 → x ∈ l2) →
  sumN f l1 = sumN (λ x, if decide (x ∈ l1) then f x else 0%nat) l2.
Proof. intros. apply big_sub; auto; nat_laws. Qed.
Lemma sumN_point `{EqDecision A} (f : A → nat) (a : A) l :
  NoDup l → a ∈ l → (∀ x, x ∈ l → x ≠ a → f x = 0%nat) → sumN f l = f a.
Proof. intros. apply big_point; auto; nat_laws. Qed.
Lemma sumN_pos (f : A → nat) l x : x ∈ l → (0 < f x)%nat → (0 < sumN f l)%nat.
Proof.
  induction l as [|y l IH]; [by intros ?%elem_of_nil|].
  intros [->|Hx]%elem_of_cons Hf; simpl; [lia|]. specialize (IH Hx Hf). lia.
Qed.
Lemma sumN_pos_inv (f : A → nat) l : (0 < sumN f l)%nat → ∃ x, x ∈ l ∧ (0 < f x)%nat.
Proof.
  induction l as [|y l IH]; simpl; [lia|]. intros Hs.
  destruct (decide (0 < f y)%nat); [exists y; split; [left|done]|].
  destruct IH as (x & ? & ?); [lia|]. exists x. split; [by right|done].
Qed.
Lemma length_bind_sumN {B} (f : A → list B) l :
  length (l ≫= f) = sumN (λ x, length (f x)) l.
Proof.
  induction l as [|x l IH]; [done|].
  rewrite bind_cons, length_app, IH. done.
Qed.

Lemma sumQ_app (f : A → Qc) l1 l2 : sumQ f (l1 ++ l2) = (sumQ f l1 + sumQ f l2)%Qc.
Proof. apply big_app; Qc_laws. Qed.
Lemma sumQ_ext (f g : A → Qc) l : (∀ x, x ∈ l → f x = g x) → sumQ f l = sumQ g l.
Proof. apply big_ext. Qed.
Lemma sumQ_zero (f : A → Qc) l : (∀ x, x ∈ l → f x = 0%Qc) → sumQ f l = 0%Qc.
Proof. apply big_zero; Qc_laws. Qed.
Lemma sumQ_perm (f : A → Qc) l1 l2 : l1 ≡ₚ l2 → sumQ f l1 = sumQ f l2.
Proof. apply big_perm; Qc_laws. Qed.
Lemma sumQ_add (f g : A → Qc) l :
  sumQ (λ x, (f x + g x)%Qc) l = (sumQ f l + sumQ g l)%Qc.
Proof. apply big_add; Qc_laws. Qed.
Lemma sumQ_swap {B} (f : A → B → Qc) l1 (l2 : list B) :
  sumQ (λ x, sumQ (λ y, f x y) l2) l1 = sumQ (λ y, sumQ (λ x, f x y) l1) l2.
Proof. apply big_swap; Qc_laws. Qed.
Lemma sumQ_mul (c : Qc) (f : A → Qc) l :
  (c * sumQ f l)%Qc = sumQ (λ x, (c * f x)%Qc) l.
Proof. apply (big_mul 0%Qc Qcplus Qcmult); Qc_laws. Qed.
Lemma sumQ_sub `{EqDecision A} (f : A → Qc) l1 l2 :
  NoDup l1 → NoDup l2 → (∀ x, x ∈ l1 → x ∈ l2) →
  sumQ f l1 = sumQ (λ x, if decide (x ∈ l1) then f x else 0%Qc) l2.
Proof. intros. apply big_sub; auto; Qc_laws. Qed.
Lemma sumQ_point `{EqDecision A} (f : A → Qc) (a : A) l :
  NoDup l → a ∈ l → (∀ x, x ∈ l → x ≠ a → f x = 0%Qc) → sumQ f l = f a.
Proof. intros. apply big_point; auto; Qc_laws. Qed.
(** Sums of counts, as rationals. *)
Lemma sumQ_of_sumN (f : A → nat) l :
  Qc_of_Z (Z.of_nat (sumN f l)) = sumQ (λ x, Qc_of_Z (Z.of_nat (f x))) l.
Proof.
  induction l as [|x l IH]; [apply Z2Qc_inj_0|].
  by rewrite !big_cons, Nat2Z.inj_add, Z2Qc_inj_add, IH.
Qed.
Lemma sumQ_split_at `{EqDecision A} (f : A → Qc) (a : A) l :
  NoDup l → a ∈ l →
  sumQ f l = (f a + sumQ (λ t, if decide (t ≠ a) then f t else 0%Qc) l)%Qc.
Proof.
  intros Hnd Ha.
  transitivity (sumQ (λ t, (if decide (t = a) then f t else 0)
                           + (if decide (t ≠ a) then f t else 0))%Qc l).
  { apply sumQ_ext. intros t _. destruct (decide (t = a)) as [->|].
    - rewrite decide_False by (intros ?; done). ring.
    - rewrite decide_True by done. ring. }
  rewrite sumQ_add. f_equal.
  rewrite (sumQ_point _ a l Hnd Ha); [by rewrite decide_True|].
  intros t _ Hne. by rewrite decide_False.
Qed.
End Sums.

(** * Walks and their counts *)

Section WalkFacts.
Context {Node : Type} `{EqDecision Node}.
Variable adj : dict Node (list Node).
Hypothesis Hwf : adj_wf adj.
Implicit Types (u v w x y : Node) (p : list Node) (i j k : nat).
Local Open Scope nat_scope.

Local Notation nbrs := (adj_get adj).
Local Notation nw := (nwalks adj).

Lemma nwalks_0 u w : nw 0 u w = if decide (u = w) then 1 else 0.
Proof. unfold nwalks. simpl. by destruct (decide (u = w)). Qed.

Lemma nwalks_0_eq u : nw 0 u u = 1.
Proof. rewrite nwalks_0. by rewrite decide_True. Qed.

Lemma nwalks_0_pos u w : 0 < nw 0 u w → u = w.
Proof. rewrite nwalks_0. destruct (decide (u = w)); [done|lia]. Qed.

(** Counting by the first edge. *)
Lemma nwalks_S k u w : nw (S k) u w = sumN (λ x, nw k x w) (nbrs u).
Proof.
  unfold nwalks. cbn [walks]. rewrite length_bind_sumN.
  apply sumN_ext. intros x _. by rewrite length_fmap.
Qed.


Lemma walks_lookup_0 k u w p : p ∈ walks adj k u w → p !! 0 = Some u.
Proof.
  destruct k; cbn [walks].
  - destruct (decide (u = w)); [|by intros ?%elem_of_nil].
    by intros ->%list_elem_of_singleton.
  - intros (x & (p' & -> & _)%list_elem_of_fmap & _)%list_elem_of_bind. done.
Qed.

Lemma length_filter_bind {A B} (P : B → Prop) `{∀ b, Decision (P b)}
    (f : A → list B) (l : list A) :
  length (filter P (l ≫= f)) = sumN (λ a, length (filter P (f a))) l.
Proof.
  induction l as [|a l IH]; [done|].
  by rewrite bind_cons, filter_app, length_app, IH.
Qed.

Lemma length_filter_fmap {A B} (P : B → Prop) `{∀ b, Decision (P b)}
    (g : A → B) (l : list A) :
  length (filter P (g <$> l)) = length (filter (λ a, P (g a)) l).
Proof.
  induction l as [|a l IH]; [done|].
  rewrite fmap_cons, !filter_cons. destruct (decide (P (g a))); simpl; by rewrite IH.
Qed.

Lemma length_filter_all {A} (P : A → Prop) `{∀ a, Decision (P a)} (l : list A) :
  (∀ a, a ∈ l → P a) → length (filter P l) = length l.
Proof.
  induction l as [|a l IH]; intros HP; [done|].
  rewrite filter_cons, decide_True by (apply HP; left). simpl.
  rewrite IH; [done|]. intros; apply HP; by right.
Qed.

Lemma length_filter_none {A} (P : A → Prop) `{∀ a, Decision (P a)} (l : list A) :
  (∀ a, a ∈ l → ¬ P a) → length (filter P l) = 0.
Proof.
  induction l as [|a l IH]; intros HP; [done|].
  rewrite filter_cons, decide_False by (apply HP; left).
  apply IH. intros; apply HP; by right.
Qed.

(** The walks with [j + k] edges that are at [v] after [j] edges. *)
Lemma count_at j k u v w :
  length (filter (λ p, p !! j = Some v) (walks adj (j + k) u w))
  = nw j u v * nw k v w.
Proof.
  revert u. induction j as [|j IH]; intros u.
  - rewrite nwalks_0. cbn [Nat.add]. destruct (decide (u = v)) as [->|Hne].
    + rewrite length_filter_all; [unfold nwalks; lia|].
      intros p Hp. by eapply walks_lookup_0.
    + rewrite length_filter_none; [lia|].
      intros p Hp E. apply walks_lookup_0 in Hp. congruence.
  - cbn [Nat.add walks]. rewrite length_filter_bind, nwalks_S, sumN_mul_r.
    apply sumN_ext. intros x _. rewrite length_filter_fmap. apply IH.
Qed.

Lemma nwalks_concat j k u v w : 0 < nw j u v → 0 < nw k v w → 0 < nw (j + k) u w.
Proof.
  intros Hj Hk. pose proof (count_at j k u v w) as E.
  pose proof (length_filter (λ p, p !! j = Some v) (walks adj (j + k) u w)) as Hle.
  unfold nwalks at 1. nia.
Qed.


(** Counting by the last edge. *)
Lemma nwalks_S_last k u w : nw (S k) u w = sumN (λ y, nw k u y) (nbrs w).
Proof using Hwf.
  revert u. induction k as [|k IH]; intros u.
  - rewrite nwalks_S.
    rewrite (sumN_ext _ (λ x, if decide (x = w) then 1 else 0)) by (intros; apply nwalks_0).
    rewrite (sumN_ext (λ y, nw 0 u y) (λ y, if decide (y = u) then 1 else 0)).
    2:{ intros y _. rewrite nwalks_0. destruct (decide (u = y)), (decide (y = u)); congruence. }
    destruct (decide (w ∈ nbrs u)) as [Hin|Hnin].
    + rewrite (sumN_point _ w);
        [|by apply wf_nodup|done|by intros x _ ?; rewrite decide_False].
      rewrite (sumN_point _ u);
        [|by apply wf_nodup|by apply wf_sym|by intros x _ ?; rewrite decide_False].
      by rewrite !decide_True.
    + rewrite !sumN_zero; [done| |].
      * intros y Hy. rewrite decide_False; [done|]. intros ->. by apply Hnin, wf_sym.
      * intros x Hx. rewrite decide_False; [done|]. by intros ->.
  - rewrite nwalks_S.
    rewrite (sumN_ext _ (λ x, sumN (λ y, nw k x y) (nbrs w))) by (intros; apply IH).
    rewrite sumN_swap. apply sumN_ext. intros y _. by rewrite nwalks_S.
Qed.

Lemma nwalks_sym k u w : nw k u w = nw k w u.
Proof using Hwf.
  revert u w. induction k as [|k IH]; intros u w.
  - rewrite !nwalks_0. destruct (decide (u = w)), (decide (w = u)); congruence.
  - rewrite nwalks_S, nwalks_S_last. apply sumN_ext. intros; apply IH.
Qed.

Lemma nwalks_pos_key k u w : 0 < nw (S k) u w → u ∈ keys adj ∧ w ∈ keys adj.
Proof using Hwf.
  intros Hpos. split.
  - rewrite nwalks_S in Hpos. apply sumN_pos_inv in Hpos as (x & Hx & _).
    by eapply wf_key.
  - rewrite nwalks_S_last in Hpos. apply sumN_pos_inv in Hpos as (x & Hx & _).
    by eapply wf_key.
Qed.
End WalkFacts.

(** * Breadth-first search: the invariant both searches keep *)

Lemma nil_or_cons {A} (l : list A) : l = [] ∨ ∃ x l', l = x :: l'.
Proof. destruct l; eauto. Qed.

Section BFS.
Context {Node : Type} `{EqDecision Node}.
Variable adj : dict Node (list Node).
Hypothesis Hwf : adj_wf adj.
Variable s : Node.
Implicit Types (u v w x y : Node) (Ss Qs : list Node) (D : Node → option nat).
Local Open Scope nat_scope.

Local Notation nbrs := (adj_get adj).
Local Notation nw := (nwalks adj).

(** [Ss]: the nodes taken from the queue, in order; [Qs]: the queue;
    [D]: the distances assigned so far. *)
Record bfs_inv Ss Qs D : Prop := {
  bi_nodup : NoDup (Ss ++ Qs);
  bi_visited : ∀ w, is_Some (D w) ↔ w ∈ Ss ++ Qs;
  bi_source : D s = Some 0;
  bi_walk : ∀ w k, D w = Some k → 0 < nw k s w;
  bi_sorted : ∀ l1 x l2 y a b,
    Ss ++ Qs = l1 ++ x :: l2 → y ∈ l1 → D y = Some a → D x = Some b → a ≤ b;
  bi_front : ∀ v Q' x a b,
    Qs = v :: Q' → D v = Some a → D x = Some b → b ≤ a + 1;
  bi_relaxed : ∀ x w a,
    x ∈ Ss → w ∈ nbrs x → D x = Some a → ∃ b, D w = Some b ∧ b ≤ a + 1;
  bi_bound : ∀ w k, D w = Some k → k < length (Ss ++ Qs);
  bi_nodes : ∀ w, w ∈ Ss ++ Qs → w ∈ keys adj;
}.

Lemma bfs_inv_ext Ss Qs D D' :
  (∀ w, D' w = D w) → bfs_inv Ss Qs D → bfs_inv Ss Qs D'.
Proof.
  intros E Hinv. split.
  - apply Hinv.
  - intros w. rewrite E. apply Hinv.
  - rewrite E. apply Hinv.
  - intros w k. rewrite E. apply Hinv.
  - intros l1 x l2 y a b. rewrite !E. apply Hinv.
  - intros v Q' x a b. rewrite !E. apply Hinv.
  - intros x w a. rewrite E. intros Hx Hw Ha.
    destruct (bi_relaxed _ _ _ Hinv x w a Hx Hw Ha) as (b & ? & ?).
    exists b. by rewrite E.
  - intros w k. rewrite E. apply Hinv.
  - apply Hinv.
Qed.

Lemma bfs_inv_init :
  s ∈ keys adj → bfs_inv [] [s] (λ w, if decide (w = s) then Some 0 else None).
Proof.
  intros Hs. split; simpl.
  - apply NoDup_singleton.
  - intros w. rewrite list_elem_of_singleton. destruct (decide (w = s)); split; eauto.
    + by intros [? ?].
    + done.
  - by rewrite decide_True.
  - intros w k. destruct (decide (w = s)) as [->|]; [|done].
    intros [= <-]. rewrite nwalks_0_eq. lia.
  - intros l1 x l2 y a b E Hy. destruct l1 as [|z l1]; [by apply elem_of_nil in Hy|].
    injection E as _ E. by destruct l1.
  - intros v Q' x a b [= <- <-]. rewrite decide_True by done.
    destruct (decide (x = s)); [|done]. intros [= <-] [= <-]. lia.
  - intros x w a Hx. by apply elem_of_nil in Hx.
  - intros w k. destruct (decide (w = s)); [|done]. intros [= <-]. lia.
  - by intros w ->%list_elem_of_singleton.
Qed.

Section Inv.
Variables (Ss Qs : list Node) (D : Node → option nat).
Hypothesis Hinv : bfs_inv Ss Qs D.

Lemma bi_queue_ge v Q' q a b :
  Qs = v :: Q' → q ∈ Qs → D v = Some a → D q = Some b → a ≤ b.
Proof.
  intros -> Hq Ha Hb. apply elem_of_cons in Hq as [->|Hq]; [by simplify_eq|].
  apply list_elem_of_split in Hq as (q1 & q2 & ->).
  eapply (bi_sorted _ _ _ Hinv (Ss ++ v :: q1) q q2 v); [|by set_solver|done..].
  by rewrite <- app_assoc.
Qed.

Lemma bi_done_le x q a b :
  x ∈ Ss → q ∈ Qs → D x = Some a → D q = Some b → a ≤ b.
Proof.
  intros Hx Hq Ha Hb. apply list_elem_of_split in Hq as (q1 & q2 & ->).
  eapply (bi_sorted _ _ _ Hinv (Ss ++ q1) q q2 x); [|by set_solver|done..].
  by rewrite <- app_assoc.
Qed.

Lemma bi_not_queue x a :
  D x = Some a → (∀ q b, q ∈ Qs → D q = Some b → a < b) → x ∈ Ss.
Proof.
  intros Ha Hq.
  assert (Hx : x ∈ Ss ++ Qs) by (apply (bi_visited _ _ _ Hinv); eauto).
  apply elem_of_app in Hx as [?|Hx]; [done|].
  specialize (Hq _ _ Hx Ha). lia.
Qed.

(** Below the level of the queue, every walk ends in a node already done. *)
Lemma bi_below k x :
  (∀ q b, q ∈ Qs → D q = Some b → k < b) →
  0 < nw k s x → x ∈ Ss ∧ ∃ b, D x = Some b ∧ b ≤ k.
Proof.
  revert x. induction k as [|k IH]; intros x Hq Hpos.
  - apply nwalks_0_pos in Hpos as <-.
    pose proof (bi_source _ _ _ Hinv) as Hs. split; [|eauto].
    eapply bi_not_queue; eauto.
  - rewrite nwalks_S_last in Hpos by done.
    apply sumN_pos_inv in Hpos as (y & Hy & Hpos).
    destruct (IH y) as (HyS & b & Hb & Hle); [|done|].
    { intros q c Hqq Hc. specialize (Hq _ _ Hqq Hc). lia. }
    destruct (bi_relaxed _ _ _ Hinv y x b) as (c & Hc & Hcb); [done|by apply wf_sym|done|].
    split; [|exists c; split; [done|lia]].
    eapply bi_not_queue; [done|]. intros q d Hqq Hd. specialize (Hq _ _ Hqq Hd). lia.
Qed.

(** At the level of the queue, every walk ends in a visited node. *)
Lemma bi_at k x :
  (∀ q b, q ∈ Qs → D q = Some b → k ≤ b) →
  0 < nw k s x → ∃ b, D x = Some b ∧ b ≤ k.
Proof.
  intros Hq Hpos. destruct k as [|k].
  - apply nwalks_0_pos in Hpos as <-. exists 0. split; [apply Hinv|done].
  - rewrite nwalks_S_last in Hpos by done.
    apply sumN_pos_inv in Hpos as (y & Hy & Hpos).
    destruct (bi_below k y) as (HyS & b & Hb & Hle); [|done|].
    { intros q c Hqq Hc. specialize (Hq _ _ Hqq Hc). lia. }
    destruct (bi_relaxed _ _ _ Hinv y x b) as (c & Hc & Hcb); [done|by apply wf_sym|done|].
    exists c. split; [done|lia].
Qed.

(** The distance assigned to a node is the length of its shortest walks. *)
Lemma bi_least x b k : D x = Some b → 0 < nw k s x → b ≤ k.
Proof.
  intros Hb Hpos. destruct (nil_or_cons Qs) as [EQ|(v & Q' & EQ)].
  - destruct (bi_at k x) as (c & Hc & ?); [|done|by simplify_eq].
    rewrite EQ. by intros q c ?%elem_of_nil.
  - assert (is_Some (D v)) as [a Ha].
    { apply (bi_visited _ _ _ Hinv). rewrite EQ. set_solver. }
    destruct (decide (k ≤ a)) as [Hle|Hgt].
    + destruct (bi_at k x) as (c & Hc & ?); [|done|by simplify_eq].
      intros q c Hq Hc.
      pose proof (bi_queue_ge v Q' q a c EQ Hq Ha Hc). lia.
    + pose proof (bi_front _ _ _ Hinv v Q' x a b EQ Ha Hb). lia.
Qed.
End Inv.

(** One turn of the search: [v] leaves the queue, its unvisited
    neighbours [new] enter it, one level further. *)
Lemma bfs_inv_step Ss v Qs D a D' new :
  bfs_inv Ss (v :: Qs) D → D v = Some a →
  new = filter (λ w, D w = None) (nbrs v) →
  (∀ w, D' w = if decide (w ∈ new) then Some (S a) else D w) →
  bfs_inv (Ss ++ [v]) (Qs ++ new) D'.
Proof.
  intros Hinv Ha Hnew HD'.
  assert (F1 : ∀ w, w ∈ new ↔ w ∈ nbrs v ∧ D w = None).
  { intros w. rewrite Hnew, list_elem_of_filter. naive_solver. }
  assert (F2 : ∀ w, w ∈ new → w ∉ Ss ++ v :: Qs).
  { intros w [_ Hw]%F1 Hin. apply (bi_visited _ _ _ Hinv) in Hin as [? ?]. congruence. }
  assert (F3 : ∀ w, w ∈ new → D' w = Some (S a)).
  { intros w Hw. by rewrite HD', decide_True. }
  assert (F4 : ∀ w b, D w = Some b → w ∉ new ∧ D' w = Some b).
  { intros w b Hb. assert (w ∉ new) by (rewrite F1; naive_solver).
    split; [done|]. by rewrite HD', decide_False. }
  assert (F5 : ∀ w b, D' w = Some b → (w ∈ new ∧ b = S a) ∨ (w ∉ new ∧ D w = Some b)).
  { intros w b. rewrite HD'. destruct (decide (w ∈ new)); naive_solver. }
  assert (F6 : ∀ x b, D' x = Some b → b ≤ a + 1).
  { intros x b [[_ ->]|[_ Hb]]%F5; [lia|].
    by eapply (bi_front _ _ _ Hinv v Qs x a b). }
  assert (EL : (Ss ++ [v]) ++ Qs ++ new = (Ss ++ v :: Qs) ++ new).
  { by rewrite <- !app_assoc. }
  split.
  - rewrite EL. apply NoDup_app. split_and!.
    + apply Hinv.
    + intros x Hx Hx'. by apply (F2 x).
    + rewrite Hnew. apply NoDup_filter. by apply wf_nodup.
  - intros w. rewrite EL, elem_of_app, <- (bi_visited _ _ _ Hinv).
    rewrite HD'. destruct (decide (w ∈ new)); [split; eauto|].
    naive_solver.
  - eapply F4. apply Hinv.
  - intros w k [[Hw ->]|[_ Hk]]%F5; [|by eapply bi_walk].
    apply F1 in Hw as [Hw _]. rewrite nwalks_S_last by done.
    apply (sumN_pos _ _ v); [by apply wf_sym|by eapply bi_walk].
  - intros l1 x l2 y c b E Hy Hc Hb. rewrite EL in E.
    apply F5 in Hb as [[Hx ->]|[Hx Hb]].
    + apply F6 in Hc. lia.
    + apply app_eq_inv in E as [(k & E1 & E2)|(k & E1 & E2)].
      * destruct k as [|z k]; simpl in E2.
        { exfalso. apply Hx. rewrite <- E2. by left. }
        injection E2 as <- E2.
        assert (Hyo : y ∈ Ss ++ v :: Qs) by (rewrite E1; set_solver).
        apply F5 in Hc as [[Hyn _]|[_ Hc]]; [by apply F2 in Hyn|].
        by eapply (bi_sorted _ _ _ Hinv l1 x k y).
      * exfalso. apply Hx. rewrite E2. set_solver.
  - intros v' Q'' x c b E Hc Hb. apply F6 in Hb.
    assert (Hv' : v' ∈ Qs ++ new) by (rewrite E; by left).
    apply F5 in Hc as [[_ ->]|[Hvn Hc]]; [lia|].
    apply elem_of_app in Hv' as [Hv'|?]; [|done].
    assert (a ≤ c); [|lia].
    eapply (bi_queue_ge _ _ _ Hinv v Qs v'); [done|by right|done..].
  - intros x w c Hx Hw Hc. apply elem_of_app in Hx as [Hx|Hx];
      [|apply list_elem_of_singleton in Hx as ->].
    + apply F5 in Hc as [[Hxn _]|[_ Hc]].
      { exfalso. apply (F2 _ Hxn). set_solver. }
      destruct (bi_relaxed _ _ _ Hinv x w c Hx Hw Hc) as (b & Hb & ?).
      exists b. split; [by eapply F4|done].
    + apply F5 in Hc as [[Hxn _]|[_ Hc]].
      { exfalso. apply (F2 _ Hxn). set_solver. }
      assert (c = a) as -> by congruence.
      destruct (D w) as [b|] eqn:Hb.
      * exists b. split; [by eapply F4|]. by eapply (bi_front _ _ _ Hinv v Qs w a b).
      * exists (S a). split; [|lia]. apply F3, F1. done.
  - intros w k Hk. rewrite EL, length_app.
    apply F5 in Hk as [[Hw ->]|[_ Hk]].
    + pose proof (bi_bound _ _ _ Hinv v a Ha).
      destruct new; [by apply elem_of_nil in Hw|simpl; lia].
    + pose proof (bi_bound _ _ _ Hinv w k Hk). lia.
  - intros w. rewrite EL. intros [Hw|Hw]%elem_of_app; [by apply Hinv|].
    apply F1 in Hw as [Hw _]. by eapply wf_key_r.
Qed.

(** When the queue is empty the search is over: the distances are the
    true ones, the visited nodes are the reachable ones. *)
Lemma bfs_inv_final Ss D w k :
  bfs_inv Ss [] D →
  (D w = Some k ↔ 0 < nw k s w ∧ ∀ j, 0 < nw j s w → k ≤ j).
Proof.
  intros Hinv. split.
  - intros Hk. split; [by eapply bi_walk|].
    intros j Hj. by eapply bi_least.
  - intros [Hk Hmin]. destruct (bi_at Ss [] D Hinv k w) as (b & Hb & Hle); [|done|].
    { by intros q c ?%elem_of_nil. }
    pose proof (bi_walk _ _ _ Hinv w b Hb) as Hpos. apply Hmin in Hpos.
    rewrite Hb. f_equal. lia.
Qed.
End BFS.

Lemma NoDup_length_le {A} (l k : list A) :
  NoDup l → (∀ x, x ∈ l → x ∈ k) → (length l ≤ length k)%nat.
Proof. intros. by apply submseteq_length, NoDup_submseteq. Qed.

(** * The search of [closeness_centrality] *)

Section ClosenessSearch.
Context {Node : Type} `{EqDecision Node}.
Variable adj : dict Node (list Node).
Hypothesis Hwf : adj_wf adj.
Implicit Types (u v w x y s : Node) (dist : dict Node Z) (q Ss : list Node).

Local Notation nbrs := (adj_get adj).
Local Notation nw := (nwalks adj).

(** The distances a [dist] dict records. *)
Definition cl_D dist (w : Node) : option nat := Z.to_nat <$> dget dist w.

(** The state of the [while] loop: the keys of [dist] are, in order, the
    nodes taken from the queue and then the queue itself. *)
Record cl_inv s Ss dist q : Prop := {
  ci_keys : keys dist = Ss ++ q;
  ci_nonneg : ∀ w z, dget dist w = Some z → 0 ≤ z;
  ci_bfs : bfs_inv adj s Ss q (cl_D dist);
}.

(** The [for y in adj[x]] loop. *)
Lemma cl_visit_fold x dx dist q l :
  NoDup l → dget dist x = Some dx →
  ∃ dist',
    foldM (cl_visit x) (dist, q) l
      = Ok (dist', q ++ filter (λ y, dget dist y = None) l)
    ∧ keys dist' = keys dist ++ filter (λ y, dget dist y = None) l
    ∧ ∀ w, dget dist' w
           = if decide (w ∈ filter (λ y, dget dist y = None) l)
             then Some (dx + 1) else dget dist w.
Proof.
  intros Hnd Hx.
  set (unv := λ y, dget dist y = None).
  destruct (foldM_inv
    (λ l1 st, st.2 = q ++ filter unv l1
              ∧ keys st.1 = keys dist ++ filter unv l1
              ∧ ∀ w, dget st.1 w
                     = if decide (w ∈ filter unv l1) then Some (dx + 1) else dget dist w)
    (cl_visit x) (dist, q) l) as ([dist' q'] & E & Hq & Hk & Hd).
  - cbn [fst snd]. rewrite filter_nil, !app_nil_r. split_and!; [done..|].
    intros w. by rewrite decide_False by apply not_elem_of_nil.
  - intros l1 y l2 [d qq] -> (Hq & Hk & Hd). cbn [fst snd] in Hq, Hk, Hd. subst qq.
    assert (Hy : y ∉ l1).
    { apply NoDup_app in Hnd as (_ & Hd1 & _). intros Hy. apply (Hd1 _ Hy). by left. }
    assert (Hdy : dget d y = dget dist y).
    { rewrite Hd, decide_False; [done|]. rewrite list_elem_of_filter. naive_solver. }
    unfold cl_visit. rewrite Hdy, filter_app, filter_singleton; [|exact []].
    destruct (decide (unv y)) as [Hu|Hu]; unfold unv in Hu.
    2:{ destruct (dget dist y) as [z|] eqn:Ey; [|done].
        eexists. split; [done|]. rewrite !app_nil_r. done. }
    + rewrite Hu.
      assert (Hdx : dget d x = Some dx).
      { rewrite Hd, decide_False; [done|]. rewrite list_elem_of_filter.
        unfold unv. intros [? _]. congruence. }
      unfold getitem. rewrite Hdx. cbn [mbind res_bind].
      eexists. split; [done|]. cbn [fst snd]. split_and!.
      * by rewrite app_assoc.
      * rewrite keys_dset_notin by (apply dget_None; congruence).
        by rewrite Hk, app_assoc.
      * intros w. rewrite dget_dset. destruct (decide (y = w)) as [<-|Hne].
        { rewrite decide_True; [done|]. set_solver. }
        rewrite Hd. apply decide_ext. set_solver.
  - cbn [fst snd] in *. subst q'. eauto.
Qed.

Lemma cl_inv_init s : s ∈ keys adj → cl_inv s [] [(s, 0)] [s].
Proof.
  intros Hs. split; [done| |].
  - intros w z. simpl. destruct (decide (s = w)); naive_solver lia.
  - eapply bfs_inv_ext; [|by apply bfs_inv_init].
    intros w. unfold cl_D. simpl.
    destruct (decide (s = w)), (decide (w = s)); naive_solver.
Qed.

(** The [while] loop ends, on an empty queue, within the fuel given. *)
Lemma cl_loop_ok s fuel Ss dist q :
  cl_inv s Ss dist q → (length (keys adj) - length Ss < fuel)%nat →
  ∃ Ss' dist', cl_loop adj fuel dist q = Ok dist' ∧ cl_inv s Ss' dist' [].
Proof.
  revert Ss dist q. induction fuel as [|fuel IH]; intros Ss dist q Hinv Hfuel; [lia|].
  destruct q as [|x q']; [by exists Ss, dist|].
  destruct Hinv as [Hk Hnn Hbfs].
  assert (Hlen : (length (Ss ++ x :: q') ≤ length (keys adj))%nat).
  { apply NoDup_length_le; [apply Hbfs|]. intros w. apply Hbfs. }
  rewrite length_app in Hlen. simpl in Hlen.
  assert (is_Some (dget dist x)) as [dx Hx].
  { apply dget_is_Some. rewrite Hk. set_solver. }
  pose proof (Hnn _ _ Hx) as Hdx.
  destruct (cl_visit_fold x dx dist q' (nbrs x)) as (dist' & E & Hk' & Hd');
    [by apply wf_nodup|done|].
  cbn [cl_loop]. rewrite E. cbn [mbind res_bind].
  apply (IH (Ss ++ [x])); [|rewrite length_app; simpl; lia].
  split.
  - rewrite Hk', Hk. by rewrite <- !app_assoc.
  - intros w z. rewrite Hd'. destruct (decide _); [|by apply Hnn].
    intros [= <-]. lia.
  - assert (EF : filter (λ y, dget dist y = None) (nbrs x)
                 = filter (λ w, cl_D dist w = None) (nbrs x)).
    { apply list_filter_iff. intros y. unfold cl_D.
      destruct (dget dist y); naive_solver. }
    eapply (bfs_inv_step adj Hwf s Ss x q' (cl_D dist) (Z.to_nat dx)); [done| |done|].
    + unfold cl_D. by rewrite Hx.
    + intros w. unfold cl_D at 1. rewrite Hd'.
      destruct (decide _); [|done].
      simpl. f_equal. lia.
Qed.

Lemma cl_loop_source s :
  s ∈ keys adj →
  ∃ Ss dist, cl_loop adj (S (length (keys adj))) [(s, 0)] [s] = Ok dist
             ∧ cl_inv s Ss dist [].
Proof.
  intros Hs. apply (cl_loop_ok s _ []); [by apply cl_inv_init|simpl; lia].
Qed.

(** More fuel changes nothing. *)
Lemma cl_loop_mono fuel fuel' dist q r :
  cl_loop adj fuel dist q = Ok r → (fuel ≤ fuel')%nat → cl_loop adj fuel' dist q = Ok r.
Proof.
  revert fuel' dist q. induction fuel as [|fuel IH]; intros fuel' dist q E Hle; [done|].
  destruct fuel' as [|fuel']; [lia|]. cbn [cl_loop] in *.
  destruct q as [|x q']; [done|].
  destruct (foldM (cl_visit x) (dist, q') (nbrs x)) as [[d qq]| |]; [|done..].
  cbn [mbind res_bind] in *. apply IH; [done|lia].
Qed.
End ClosenessSearch.

(** * Distances *)

Lemma find_seq_least (P : nat → bool) (a n k : nat) :
  find P (seq a n) = Some k
  ↔ (a ≤ k < a + n)%nat ∧ P k = true ∧ ∀ j, (a ≤ j < k)%nat → P j = false.
Proof.
  revert a. induction n as [|n IH]; intros a; simpl.
  - split; [discriminate|intros (? & _); lia].
  - destruct (P a) eqn:Ea.
    + split.
      * intros ?. simplify_eq. split_and!; [lia|lia|done|intros; lia].
      * intros (Hk & HP & Hmin). f_equal.
        destruct (decide (a = k)) as [|Hne]; [done|].
        rewrite Hmin in Ea by lia. done.
    + rewrite IH. split.
      * intros (Hk & HP & Hmin). split_and!; [lia|lia|done|].
        intros j Hj. destruct (decide (j = a)) as [->|]; [done|]. apply Hmin. lia.
      * intros (Hk & HP & Hmin).
        assert (a ≠ k) by congruence.
        split_and!; [lia|lia|done|intros; apply Hmin; lia].
Qed.

Section Distances.
Context {Node : Type} `{EqDecision Node}.
Variable adj : dict Node (list Node).
Hypothesis Hwf : adj_wf adj.
Implicit Types (u v w x y s : Node).
Local Open Scope nat_scope.

Local Notation nbrs := (adj_get adj).
Local Notation nw := (nwalks adj).
Local Notation dst := (distance adj).

(** [k] is the length of the shortest walks from [u] to [w]. *)
Definition is_dist u w k : Prop := 0 < nw k u w ∧ ∀ j, 0 < nw j u w → k ≤ j.

Lemma is_dist_fun u w k k' : is_dist u w k → is_dist u w k' → k = k'.
Proof. intros [H1 H2] [H3 H4]. apply H2 in H3. apply H4 in H1. lia. Qed.

(** What the search from [s] ends with. *)
Lemma bfs_final_is_dist s Ss D w k :
  bfs_inv adj s Ss [] D → (D w = Some k ↔ is_dist s w k).
Proof. by apply bfs_inv_final. Qed.

(** A node that a walk reaches is reached by a walk with fewer edges than
    there are nodes. *)
Lemma reach_bounded u w k :
  0 < nw k u w → ∃ j, is_dist u w j ∧ j ≤ k ∧ j ≤ length (keys adj).
Proof.
  intros Hpos. destruct (decide (u ∈ keys adj)) as [Hu|Hu].
  - destruct (cl_loop_source adj Hwf u Hu) as (Ss & dist & _ & [Hk _ Hbfs]).
    destruct (bi_at adj Hwf u Ss [] _ Hbfs k w) as (b & Hb & Hle); [|done|].
    { by intros q c ?%elem_of_nil. }
    exists b. split_and!; [by eapply bfs_final_is_dist|done|].
    pose proof (bi_bound _ _ _ _ _ Hbfs w b Hb) as Hlt.
    assert (length (Ss ++ []) ≤ length (keys adj)); [|lia].
    apply NoDup_length_le; [apply Hbfs|]. intros x. apply Hbfs.
  - destruct k as [|k].
    + exists 0. split_and!; [|lia..]. split; [done|lia].
    + apply nwalks_pos_key in Hpos as [? _]; done.
Qed.

Lemma distance_Some u w k : dst u w = Some k ↔ is_dist u w k.
Proof.
  unfold distance. rewrite find_seq_least. split.
  - intros (Hk & HP & Hmin). apply negb_true_iff, Nat.eqb_neq in HP.
    split; [lia|]. intros j Hj. destruct (decide (k ≤ j)) as [|Hlt]; [done|].
    specialize (Hmin j). rewrite negb_false_iff, Nat.eqb_eq in Hmin. lia.
  - intros [Hpos Hmin]. destruct (reach_bounded u w k Hpos) as (j & Hj & _ & Hn).
    assert (j = k) as -> by (eapply is_dist_fun; [done|by split]).
    split_and!; [lia|lia| |].
    + apply negb_true_iff, Nat.eqb_neq. lia.
    + intros i Hi. apply negb_false_iff, Nat.eqb_eq.
      destruct (decide (0 < nw i u w)) as [Hp|]; [|lia]. apply Hmin in Hp. lia.
Qed.


Lemma distance_walk u w k : 0 < nw k u w → ∃ j, dst u w = Some j ∧ j ≤ k.
Proof.
  intros Hp. destruct (reach_bounded u w k Hp) as (j & Hj%distance_Some & ? & _). eauto.
Qed.

Lemma distance_pos u w k : dst u w = Some k → 0 < nw k u w.
Proof. by intros [? _]%distance_Some. Qed.



Lemma distance_refl u : dst u u = Some 0.
Proof. apply distance_Some. split; [rewrite nwalks_0_eq|]; lia. Qed.

Lemma distance_0 u w : dst u w = Some 0 → u = w.
Proof. intros Hp%distance_pos. by apply nwalks_0_pos in Hp. Qed.

Lemma distance_sym u w : dst u w = dst w u.
Proof.
  apply option_eq. intros k. rewrite !distance_Some. unfold is_dist.
  rewrite (nwalks_sym adj Hwf k u w).
  split; intros [? Hmin]; (split; [done|]); intros j; rewrite (nwalks_sym adj Hwf j); apply Hmin.
Qed.

Lemma distance_triangle u v w a b :
  dst u v = Some a → dst v w = Some b → ∃ c, dst u w = Some c ∧ c ≤ a + b.
Proof.
  intros Ha%distance_pos Hb%distance_pos. apply distance_walk.
  by eapply nwalks_concat.
Qed.

Lemma distance_edge v w : w ∈ nbrs v → dst v w = Some 1.
Proof.
  intros Hw. apply distance_Some. split.
  - rewrite nwalks_S. apply (sumN_pos _ _ w); [done|]. rewrite nwalks_0_eq. lia.
  - intros [|j] Hj; [|lia]. apply nwalks_0_pos in Hj as ->.
    by apply wf_irrefl in Hw.
Qed.


(** The search from [s] ends with the distances from [s]. *)
Lemma bfs_final_distance s Ss D w :
  bfs_inv adj s Ss [] D → D w = dst s w.
Proof.
  intros Hinv. apply option_eq. intros k.
  by rewrite (bfs_final_is_dist s Ss D w k Hinv), distance_Some.
Qed.
End Distances.

(** * Exact arithmetic *)

Lemma of_int_rational z : of_int (PyFloat:=rational) z = Qc_of_Z z.
Proof. reflexivity. Qed.

Lemma Qc_of_Z_nonzero z : z ≠ 0 → Qc_of_Z z ≠ 0%Qc.
Proof. intros Hz E. rewrite <- Z2Qc_inj_0 in E. by apply Z2Qc_inj in E. Qed.

Lemma is_zero_rational (x : Qc) : is_zero (PyFloat:=rational) x = bool_decide (x = 0%Qc).
Proof. cbn. by rewrite Z2Qc_inj_0. Qed.

Lemma fdiv_rational (x y : Qc) :
  y ≠ 0%Qc → fdiv (FL:=rational) x y = Ok (x / y)%Qc.
Proof.
  intros Hy. unfold fdiv. rewrite is_zero_rational, bool_decide_eq_false_2 by done. done.
Qed.

Lemma int_div_rational (a b : Z) :
  b ≠ 0 → int_div (FL:=rational) a b = Ok (Qc_of_Z a / Qc_of_Z b)%Qc.
Proof.
  intros Hb. unfold int_div. by rewrite (proj2 (Z.eqb_neq b 0)) by done.
Qed.

Lemma dict_compM_pure {K V} `{EqDecision K} (l : list K) (f : K → res V) (g : K → V) :
  (∀ k, k ∈ l → f k = Ok (g k)) → dict_compM l f = Ok (dict_comp l g).
Proof.
  intros Hf. unfold dict_compM, dict_comp. apply foldM_pure.
  intros d k Hk. by rewrite Hf.
Qed.

(** * 次数中心性: the degree centrality *)

Section Degree.
Context {Node : Type} `{EqDecision Node}.
Implicit Types (edges : list (Node * Node)) (v : Node).

Lemma degree_centrality_run edges :
  let adj := build_adj edges in
  degree_centrality (FL:=rational) edges
  = Ok (dict_comp (keys adj) (degree_spec adj)).
Proof.
  intros adj. unfold degree_centrality. fold adj.
  destruct (Z.of_nat (length (keys adj)) <=? 1) eqn:En.
  - f_equal. apply dict_comp_ext. intros v _. unfold degree_spec. by rewrite En.
  - apply dict_compM_pure. intros v _. unfold degree_spec. rewrite En.
    apply fdiv_rational, Qc_of_Z_nonzero. lia.
Qed.

(** C3: [degree_centrality] gives every node [v] of the graph the score
    [|adjacency[v]| / (n - 1)] when the graph has [n ≥ 2] nodes, and
    [0.0] when [n ≤ 1]. *)
Theorem degree_centrality_correct edges :
  let adj := build_adj edges in
  let n := Z.of_nat (length (keys adj)) in
  ∃ r, degree_centrality (FL:=rational) edges = Ok r
       ∧ keys r = keys adj
       ∧ ∀ v, v ∈ keys adj →
           dget r v = Some (if n <=? 1 then Qc_of_Z 0
                            else Qc_of_Z (Z.of_nat (length (adj_get adj v)))
                                 / Qc_of_Z (n - 1))%Qc.
Proof.
  intros adj n. eexists. split; [apply degree_centrality_run|]. fold adj. split.
  - apply keys_dict_comp, NoDup_keys_build_adj.
  - intros v Hv. rewrite dget_dict_comp, decide_True by done. done.
Qed.
End Degree.

(** * 近接中心性: the closeness centrality *)

Section Closeness.
Context {Node : Type} `{EqDecision Node}.
Variable adj : dict Node (list Node).
Hypothesis Hwf : adj_wf adj.
Implicit Types (u v w x y s : Node) (dist : dict Node Z).

Local Notation nbrs := (adj_get adj).
Local Notation dst := (distance adj).

(** [sum(d for n, d in dist.items() if n != start)] over a dict of
    distances. *)
Lemma sum_dist_fold (h : Node → nat) s dist acc :
  (∀ nd, nd ∈ dist → nd.2 = Z.of_nat (h nd.1)) →
  foldl (λ acc nd, if decide (nd.1 ≠ s) then acc + nd.2 else acc) acc dist
  = acc + Z.of_nat (sumN h (filter (λ w, w ≠ s) (keys dist))).
Proof.
  revert acc. induction dist as [|[k z] dist IH]; intros acc Hh; simpl; [lia|].
  rewrite IH by (intros; apply Hh; by right).
  rewrite filter_cons. simpl. specialize (Hh (k, z) ltac:(left)). simpl in Hh.
  destruct (decide (k ≠ s)); simpl; lia.
Qed.

Lemma elem_of_dget dist (nd : Node * Z) :
  NoDup (keys dist) → nd ∈ dist → dget dist nd.1 = Some nd.2.
Proof.
  unfold keys. induction dist as [|[k z] dist IH]; intros Hnd Hin; [by apply elem_of_nil in Hin|].
  simpl in *. apply NoDup_cons in Hnd as [Hk Hnd].
  apply elem_of_cons in Hin as [->|Hin]; simpl.
  - by rewrite decide_True.
  - rewrite decide_False; [by apply IH|].
    intros ->. apply Hk. by apply list_elem_of_fmap_2.
Qed.

(** The search from [s] visits the nodes reachable from [s] and records
    their distances. *)
Lemma cl_final s Ss dist :
  cl_inv adj s Ss dist [] →
  Ss ≡ₚ reachable_from adj s
  ∧ keys dist = Ss
  ∧ ∀ w z, dget dist w = Some z → z = Z.of_nat (hops adj s w).
Proof.
  intros [Hk Hnn Hbfs]. rewrite app_nil_r in Hk.
  assert (HD : ∀ w, cl_D dist w = dst s w).
  { intros w. by eapply bfs_final_distance. }
  split_and!; [|done|].
  - apply NoDup_Permutation.
    + pose proof (bi_nodup _ _ _ _ _ Hbfs) as Hn. by rewrite app_nil_r in Hn.
    + apply NoDup_filter, Hwf.
    + intros w. unfold reachable_from. rewrite list_elem_of_filter, <- HD.
      rewrite (bi_visited _ _ _ _ _ Hbfs), app_nil_r. split; [|naive_solver].
      intros Hw. split; [done|]. apply (bi_nodes _ _ _ _ _ Hbfs). by rewrite app_nil_r.
  - intros w z Hz. unfold hops. rewrite <- HD. unfold cl_D. rewrite Hz. simpl.
    apply Hnn in Hz. lia.
Qed.

Lemma bfs_sum_dist_run s :
  s ∈ keys adj →
  bfs_sum_dist adj (S (length (keys adj))) s
  = Ok (Z.of_nat (total_hops adj s), Z.of_nat (length (reachable_from adj s))).
Proof.
  intros Hs. destruct (cl_loop_source adj Hwf s Hs) as (Ss & dist & E & Hinv).
  destruct (cl_final s Ss dist Hinv) as (Hperm & Hk & Hh).
  assert (Hnd : NoDup (keys dist)).
  { rewrite Hk. pose proof (bi_nodup _ _ _ _ _ (ci_bfs _ _ _ _ _ Hinv)) as Hn.
    by rewrite app_nil_r in Hn. }
  unfold bfs_sum_dist. rewrite E. cbn [mbind res_bind]. f_equal. f_equal.
  - unfold sum_dist. rewrite (sum_dist_fold (hops adj s)).
    + rewrite Z.add_0_l. f_equal. unfold total_hops.
      apply sumN_perm. by rewrite Hk, Hperm.
    + intros nd Hnd'. apply Hh. by apply elem_of_dget.
  - by rewrite <- length_keys, Hk, Hperm.
Qed.

Lemma cl_score_run wf_improved (C : dict Node Qc) s :
  s ∈ keys adj →
  cl_score (FL:=rational) adj (S (length (keys adj))) (Z.of_nat (length (keys adj)))
           wf_improved C s
  = Ok (dset C s (closeness_spec adj wf_improved s)).
Proof.
  intros Hs. unfold cl_score. rewrite bfs_sum_dist_run by done.
  cbn [mbind res_bind]. unfold closeness_spec.
  destruct (_ || _) eqn:Eg; [done|].
  apply orb_false_iff in Eg as [_ Et%Z.eqb_neq].
  rewrite (int_div_rational _ (Z.of_nat (total_hops adj s))) by done.
  cbn [mbind res_bind].
  destruct (wf_improved && _) eqn:Ew; [|done].
  apply andb_true_iff in Ew as [_ EN]. rewrite int_div_rational by lia. done.
Qed.
End Closeness.

Section ClosenessTop.
Context {Node : Type} `{EqDecision Node}.
Implicit Types (edges : list (Node * Node)) (s : Node).

Lemma closeness_centrality_run edges wf_improved :
  let adj := build_adj edges in
  closeness_centrality (FL:=rational) edges wf_improved
  = Ok (dict_comp (keys adj) (closeness_spec adj wf_improved)).
Proof.
  intros adj. unfold closeness_centrality. fold adj.
  destruct (Z.of_nat (length (keys adj)) =? 0) eqn:En.
  - apply Z.eqb_eq in En. destruct (keys adj); [done|simpl in En; lia].
  - unfold dict_comp. apply foldM_pure. intros C s Hs.
    apply cl_score_run; [apply build_adj_wf|done].
Qed.

(** C2: [closeness_centrality] gives every node [s] of the graph the score
    [0.0] when at most one node is reachable from [s] ([s] itself counted)
    or the hop distances from [s] to the other reachable nodes add up to 0,
    and [(reachable - 1) / total] otherwise, multiplied by
    [(reachable - 1) / (N - 1)] when [wf_improved] holds and the graph has
    [N > 1] nodes. *)
Theorem closeness_centrality_correct edges wf_improved :
  let adj := build_adj edges in
  let N := Z.of_nat (length (keys adj)) in
  ∃ r, closeness_centrality (FL:=rational) edges wf_improved = Ok r
       ∧ keys r = keys adj
       ∧ ∀ s, s ∈ keys adj →
           let reachable := Z.of_nat (length (reachable_from adj s)) in
           let total := Z.of_nat (total_hops adj s) in
           dget r s
           = Some (if (reachable <=? 1) || (total =? 0) then Qc_of_Z 0
                   else if wf_improved && (N >? 1)
                        then Qc_of_Z (reachable - 1) / Qc_of_Z total
                             * (Qc_of_Z (reachable - 1) / Qc_of_Z (N - 1))
                        else Qc_of_Z (reachable - 1) / Qc_of_Z total)%Qc.
Proof.
  intros adj N. eexists. split; [apply closeness_centrality_run|]. fold adj. split.
  - apply keys_dict_comp, NoDup_keys_build_adj.
  - intros s Hs. rewrite dget_dict_comp, decide_True by done. done.
Qed.
End ClosenessTop.

(** * 媒介中心性: the forward search of Brandes' algorithm *)

Lemma sumN_inter {A} `{EqDecision A} (f : A → nat) (l1 l2 : list A) :
  NoDup l1 → NoDup l2 →
  sumN (λ y, if decide (y ∈ l2) then f y else 0%nat) l1
  = sumN (λ y, if decide (y ∈ l1) then f y else 0%nat) l2.
Proof.
  intros H1 H2. rewrite <- !sumN_filter. apply sumN_perm.
  apply NoDup_Permutation; [by apply NoDup_filter..|].
  intros x. rewrite !list_elem_of_filter. naive_solver.
Qed.

Lemma filter_ext_elem {A} (P Q : A → Prop) `{∀ x, Decision (P x)} `{∀ x, Decision (Q x)}
    (l : list A) :
  (∀ a, a ∈ l → P a ↔ Q a) → filter P l = filter Q l.
Proof.
  induction l as [|a l IH]; intros HPQ; [done|].
  rewrite !filter_cons, IH by (intros; apply HPQ; by right).
  apply decide_ext, HPQ. by left.
Qed.

Section Forward.
Context {Node : Type} `{EqDecision Node}.
Variable adj : dict Node (list Node).
Hypothesis Hwf : adj_wf adj.
Variable s : Node.
Hypothesis Hs : s ∈ keys adj.
Implicit Types (u v w x y : Node) (Ss Qs : list Node) (D : Node → option nat)
  (st : fwd_state (Node:=Node) (F:=Qc)).

Local Notation nbrs := (adj_get adj).
Local Notation nw := (nwalks adj).
Local Notation dst := (distance adj).
Local Notation nodes := (keys adj).
Local Notation "# n" := (Qc_of_Z (Z.of_nat n)) (at level 5, format "# n").

(** The distances a [dist] dict records; [-1] marks a node not visited. *)
Definition fw_D (dist : dict Node Z) (w : Node) : option nat :=
  match dget dist w with
  | Some z => if z <? 0 then None else Some (Z.to_nat z)
  | None => None
  end.

(** [x] comes just before [w] on a shortest path, by the distances [D]. *)
Definition is_pred D (x w : Node) : Prop :=
  w ∈ nbrs x ∧ is_Some (D x) ∧ D w = S <$> D x.

Global Instance is_pred_dec D x w : Decision (is_pred D x w).
Proof. unfold is_pred. apply _. Defined.

(** What [sigma[w]] holds once the nodes of [Ss] are done. *)
Definition sig_val D Ss (w : Node) : nat :=
  ((if decide (w = s) then 1 else 0)
   + sumN (λ x, if decide (is_pred D x w) then npaths adj s x else 0) Ss)%nat.

Record fwd_inv st : Prop := {
  fi_keys_P : keys (st_P st) = nodes;
  fi_keys_sigma : keys (st_sigma st) = nodes;
  fi_keys_dist : keys (st_dist st) = nodes;
  fi_range : ∀ w z, dget (st_dist st) w = Some z → -1 ≤ z;
  fi_bfs : bfs_inv adj s (st_S st) (st_Q st) (fw_D (st_dist st));
  fi_sigma : ∀ w, w ∈ nodes →
    dget (st_sigma st) w = Some #(sig_val (fw_D (st_dist st)) (st_S st) w);
  fi_P : ∀ w, w ∈ nodes →
    dget (st_P st) w = Some (filter (λ x, is_pred (fw_D (st_dist st)) x w) (st_S st));
}.

(** Distances assigned are distances of the graph. *)
Lemma bi_distance Ss Qs D x a :
  bfs_inv adj s Ss Qs D → D x = Some a → dst s x = Some a.
Proof.
  intros Hinv Ha. apply distance_Some; [done|]. split.
  - by eapply bi_walk.
  - intros j Hj. by eapply bi_least.
Qed.

Lemma npaths_dist u w k : dst u w = Some k → npaths adj u w = nw k u w.
Proof. intros E. unfold npaths, shortest_paths. by rewrite E. Qed.

Lemma npaths_None u w : dst u w = None → npaths adj u w = 0%nat.
Proof. intros E. unfold npaths, shortest_paths. by rewrite E. Qed.

Lemma npaths_pos u w k : dst u w = Some k → (0 < npaths adj u w)%nat.
Proof. intros E. rewrite (npaths_dist _ _ _ E). by apply distance_pos. Qed.

(** Once every node of the queue is at least as far as [x], [sigma[x]]
    counts the shortest paths to [x]. *)
Lemma sig_val_done Ss Qs D x a :
  bfs_inv adj s Ss Qs D → D x = Some a →
  (∀ q b, q ∈ Qs → D q = Some b → a ≤ b)%nat →
  sig_val D Ss x = npaths adj s x.
Proof.
  intros Hinv Ha Hq. unfold sig_val.
  pose proof (bi_distance _ _ _ _ _ Hinv Ha) as Hd.
  rewrite (npaths_dist _ _ _ Hd).
  destruct a as [|a].
  - apply distance_0 in Hd as <-; [|done]. rewrite decide_True, nwalks_0_eq by done.
    rewrite sumN_zero; [done|]. intros y _. rewrite decide_False; [done|].
    intros (_ & [b Hb] & E). rewrite Ha, Hb in E. done.
  - rewrite decide_False.
    2:{ intros ->. rewrite (bi_source _ _ _ _ _ Hinv) in Ha. done. }
    rewrite nwalks_S_last by done. simpl. symmetry.
    transitivity (sumN (λ y, if decide (y ∈ Ss)
                             then (if decide (is_pred D y x) then npaths adj s y else 0)
                             else 0)%nat (nbrs x)).
    + symmetry. apply sumN_ext. intros y Hy.
      destruct (decide (0 < nw a s y)%nat) as [Hpos|Hz].
      * destruct (bi_below adj Hwf s Ss Qs D Hinv a y) as (HyS & b & Hb & Hle); [|done|].
        { intros q c Hqq Hc. specialize (Hq _ _ Hqq Hc). lia. }
        destruct (bi_relaxed _ _ _ _ _ Hinv y x b HyS) as (c & Hc & Hcb);
          [by apply wf_sym|done|].
        assert (b = a) as -> by (simplify_eq; lia).
        rewrite decide_True by done. rewrite decide_True.
        2:{ split_and!; [by apply wf_sym|eauto|]. by rewrite Ha, Hb. }
        apply npaths_dist. by eapply bi_distance.
      * destruct (decide (y ∈ Ss)); [|lia].
        destruct (decide (is_pred D y x)) as [(_ & [b Hb] & E)|]; [|lia].
        rewrite Ha, Hb in E. simpl in E. simplify_eq.
        apply npaths_dist. by eapply bi_distance.
    + assert (HnS : NoDup Ss).
      { pose proof (bi_nodup _ _ _ _ _ Hinv) as Hn. by apply NoDup_app in Hn as (? & _). }
      rewrite (sumN_inter (λ y, if decide (is_pred D y x) then npaths adj s y else 0%nat)
                          (nbrs x) Ss) by (done || by apply wf_nodup).
      apply sumN_ext. intros y Hy.
      destruct (decide (is_pred D y x)) as [(Hx & _)|]; [|by destruct (decide _)].
      rewrite decide_True; [done|]. by apply wf_sym.
Qed.

(** The body of the loop, once the lookups are known to succeed. *)
Lemma relax_eq v dv st y z c sv pw :
  dget (st_dist st) y = Some z → dget (st_sigma st) y = Some c →
  dget (st_sigma st) v = Some sv → dget (st_P st) y = Some pw →
  relax (FL:=rational) v dv st y
  = Ok (if z <? 0
        then FwdState (st_S st) (dset (st_P st) y (pw ++ [v]))
                      (dset (st_sigma st) y (c + sv)%Qc)
                      (dset (st_dist st) y dv) (st_Q st ++ [y])
        else if z =? dv
             then FwdState (st_S st) (dset (st_P st) y (pw ++ [v]))
                           (dset (st_sigma st) y (c + sv)%Qc)
                           (st_dist st) (st_Q st)
             else st).
Proof.
  intros Hz Hc Hsv Hpw. unfold relax, getitem. rewrite Hz. cbn [mbind res_bind].
  destruct (z <? 0); cbn [st_dist st_sigma st_P st_S st_Q].
  - rewrite dget_dset_eq. cbn [mbind res_bind]. rewrite Z.eqb_refl, Hc, Hsv, Hpw. done.
  - rewrite Hz. cbn [mbind res_bind]. destruct (z =? dv); [|done].
    rewrite Hc, Hsv, Hpw. done.
Qed.

(** The [for w in adj[v]] loop, on any duplicate-free list [l] of nodes
    other than [v]. *)
Lemma relax_fold v dv sv st0 l :
  NoDup l → v ∉ l → (∀ w, w ∈ l → w ∈ nodes) →
  keys (st_P st0) = nodes → keys (st_sigma st0) = nodes → keys (st_dist st0) = nodes →
  dget (st_sigma st0) v = Some sv → 0 ≤ dv →
  ∃ st', foldM (relax (FL:=rational) v dv) st0 l = Ok st'
    ∧ st_S st' = st_S st0
    ∧ st_Q st' = st_Q st0 ++ filter (λ w, fw_D (st_dist st0) w = None) l
    ∧ keys (st_P st') = nodes ∧ keys (st_sigma st') = nodes ∧ keys (st_dist st') = nodes
    ∧ (∀ w, dget (st_dist st') w
            = if decide (w ∈ filter (λ w, fw_D (st_dist st0) w = None) l)
              then Some dv else dget (st_dist st0) w)
    ∧ (∀ w, dget (st_sigma st') w
            = if decide (w ∈ l ∧ dget (st_dist st') w = Some dv)
              then (λ c, c + sv)%Qc <$> dget (st_sigma st0) w
              else dget (st_sigma st0) w)
    ∧ (∀ w, dget (st_P st') w
            = if decide (w ∈ l ∧ dget (st_dist st') w = Some dv)
              then (λ pw, pw ++ [v]) <$> dget (st_P st0) w
              else dget (st_P st0) w).
Proof.
  intros Hnd Hv Hl HkP Hks Hkd Hsv Hdv.
  set (unv := λ w, fw_D (st_dist st0) w = None).
  destruct (foldM_inv (λ l1 st,
      st_S st = st_S st0
      ∧ st_Q st = st_Q st0 ++ filter unv l1
      ∧ keys (st_P st) = nodes ∧ keys (st_sigma st) = nodes ∧ keys (st_dist st) = nodes
      ∧ (∀ w, dget (st_dist st) w
              = if decide (w ∈ filter unv l1) then Some dv else dget (st_dist st0) w)
      ∧ (∀ w, dget (st_sigma st) w
              = if decide (w ∈ l1 ∧ dget (st_dist st) w = Some dv)
                then (λ c, c + sv)%Qc <$> dget (st_sigma st0) w
                else dget (st_sigma st0) w)
      ∧ (∀ w, dget (st_P st) w
              = if decide (w ∈ l1 ∧ dget (st_dist st) w = Some dv)
                then (λ pw, pw ++ [v]) <$> dget (st_P st0) w
                else dget (st_P st0) w))
    (relax (FL:=rational) v dv) st0 l) as (st' & E & HI).
  3:{ exists st'. by split. }
  - rewrite filter_nil, app_nil_r. split_and!; done.
  - intros l1 y l2 st -> (HS & HQ & HkP' & Hks' & Hkd' & Hd & Hsg & HP).
    assert (Hy : y ∉ l1).
    { apply NoDup_app in Hnd as (_ & Hd1 & _). intros Hy. apply (Hd1 _ Hy). by left. }
    assert (Hyv : y ≠ v) by (intros ->; apply Hv; set_solver).
    assert (Hyn : y ∈ nodes) by (apply Hl; set_solver).
    assert (Hdy : dget (st_dist st) y = dget (st_dist st0) y).
    { rewrite Hd, decide_False; [done|]. rewrite list_elem_of_filter. naive_solver. }
    assert (is_Some (dget (st_dist st0) y)) as [z Hz] by (apply dget_is_Some; by rewrite Hkd).
    assert (is_Some (dget (st_sigma st0) y)) as [c Hc] by (apply dget_is_Some; by rewrite Hks).
    assert (is_Some (dget (st_P st0) y)) as [pw Hpw] by (apply dget_is_Some; by rewrite HkP).
    assert (Hsy : dget (st_sigma st) y = Some c).
    { rewrite Hsg, decide_False; [done|]. naive_solver. }
    assert (Hsv' : dget (st_sigma st) v = Some sv).
    { rewrite Hsg, decide_False; [done|]. intros [Hv' _]. apply Hv. set_solver. }
    assert (HPy : dget (st_P st) y = Some pw).
    { rewrite HP, decide_False; [done|]. naive_solver. }
    assert (Hunv : unv y ↔ z < 0).
    { unfold unv, fw_D. rewrite Hz. destruct (z <? 0) eqn:E; [apply Z.ltb_lt in E|apply Z.ltb_ge in E];
        split; try done; lia. }
    rewrite filter_app, filter_singleton; [|exact []].
    rewrite Hz in Hdy. rewrite (relax_eq v dv st y z c sv pw) by done.
    destruct (z <? 0) eqn:Ez.
    + apply Z.ltb_lt in Ez. rewrite decide_True by (by apply Hunv).
      eexists. split; [done|]. cbn [st_dist st_sigma st_P st_S st_Q].
      split_and!; try done.
      * by rewrite HQ, app_assoc.
      * rewrite keys_dset_in; [done|]. by rewrite HkP'.
      * rewrite keys_dset_in; [done|]. by rewrite Hks'.
      * rewrite keys_dset_in; [done|]. by rewrite Hkd'.
      * intros w. rewrite dget_dset. destruct (decide (y = w)) as [<-|Hne].
        { rewrite decide_True; [done|]. set_solver. }
        rewrite Hd. apply decide_ext. set_solver.
      * intros w. rewrite !dget_dset. destruct (decide (y = w)) as [<-|Hne].
        { rewrite decide_True by set_solver. by rewrite Hc. }
        rewrite Hsg. apply decide_ext. set_solver.
      * intros w. rewrite !dget_dset. destruct (decide (y = w)) as [<-|Hne].
        { rewrite decide_True by set_solver. by rewrite Hpw. }
        rewrite HP. apply decide_ext. set_solver.
    + apply Z.ltb_ge in Ez. rewrite decide_False by (rewrite Hunv; lia).
      rewrite app_nil_r.
      destruct (z =? dv) eqn:Ezd; [apply Z.eqb_eq in Ezd|apply Z.eqb_neq in Ezd].
      * eexists. split; [done|]. cbn [st_dist st_sigma st_P st_S st_Q].
        split_and!; try done.
        -- rewrite keys_dset_in; [done|]. by rewrite HkP'.
        -- rewrite keys_dset_in; [done|]. by rewrite Hks'.
        -- intros w. rewrite !dget_dset. destruct (decide (y = w)) as [<-|Hne].
           { rewrite decide_True; [by rewrite Hc|]. split; [set_solver|]. by rewrite Hdy, Ezd. }
           rewrite Hsg. apply decide_ext. set_solver.
        -- intros w. rewrite !dget_dset. destruct (decide (y = w)) as [<-|Hne].
           { rewrite decide_True; [by rewrite Hpw|]. split; [set_solver|]. by rewrite Hdy, Ezd. }
           rewrite HP. apply decide_ext. set_solver.
      * eexists. split; [done|]. split_and!; try done.
        -- intros w. rewrite Hsg. destruct (decide (y = w)) as [<-|Hne].
           { rewrite !decide_False; [done| |]; rewrite Hdy; intros [_ ?]; congruence. }
           apply decide_ext. set_solver.
        -- intros w. rewrite HP. destruct (decide (y = w)) as [<-|Hne].
           { rewrite !decide_False; [done| |]; rewrite Hdy; intros [_ ?]; congruence. }
           apply decide_ext. set_solver.
Qed.

(** One turn of the [while Q] loop keeps the invariant. *)
Lemma fwd_step st v Q' :
  fwd_inv st → st_Q st = v :: Q' →
  ∃ z st',
    dget (st_dist st) v = Some z
    ∧ foldM (relax (FL:=rational) v (z + 1))
            (FwdState (st_S st ++ [v]) (st_P st) (st_sigma st) (st_dist st) Q')
            (nbrs v) = Ok st'
    ∧ fwd_inv st' ∧ st_S st' = st_S st ++ [v].
Proof.
  intros [HkP Hks Hkd Hrg Hb Hsg HP] HQ. rewrite HQ in Hb.
  set (D := fw_D (st_dist st)) in *.
  assert (Hvn : v ∈ nodes). { apply (bi_nodes _ _ _ _ _ Hb). set_solver. }
  assert (is_Some (D v)) as [a Ha]. { apply (bi_visited _ _ _ _ _ Hb). set_solver. }
  assert (∃ z, dget (st_dist st) v = Some z ∧ 0 ≤ z ∧ a = Z.to_nat z) as (z & Hz & Hz0 & Haz).
  { unfold D, fw_D in Ha. destruct (dget (st_dist st) v) as [z|]; [|done]. exists z.
    destruct (z <? 0) eqn:E; [done|]. apply Z.ltb_ge in E. split_and!; [done|done|congruence]. }
  set (sv := #(npaths adj s v)).
  assert (Hsv : dget (st_sigma st) v = Some sv).
  { rewrite Hsg by done. unfold sv. do 3 f_equal.
    apply (sig_val_done _ (v :: Q') D v a Hb Ha).
    intros q b Hq Hqb. by eapply (bi_queue_ge adj Hwf s _ _ D Hb v Q' q a b). }
  destruct (relax_fold v (z + 1) sv
              (FwdState (st_S st ++ [v]) (st_P st) (st_sigma st) (st_dist st) Q') (nbrs v))
    as (st' & E & HS' & HQ' & HkP' & Hks' & Hkd' & Hd' & Hsg' & HP');
    [by apply wf_nodup|by apply wf_irrefl|by intros w ?%(wf_key_r adj)|done..|lia|].
  cbn [st_dist st_sigma st_P st_S st_Q] in *.
  exists z, st'. split; [done|]. split; [done|]. split; [|done].
  set (new := filter (λ w, D w = None) (nbrs v)) in *.
  set (D' := fw_D (st_dist st')).
  assert (Hd'' : ∀ w, dget (st_dist st') w
                      = if decide (w ∈ new) then Some (z + 1) else dget (st_dist st) w)
    by exact Hd'.
  assert (HD' : ∀ w, D' w = if decide (w ∈ new) then Some (S a) else D w).
  { intros w. unfold D', fw_D at 1. rewrite Hd''. destruct (decide (w ∈ new)); [|done].
    rewrite (proj2 (Z.ltb_ge (z + 1) 0)) by lia. f_equal. lia. }
  pose proof (bfs_inv_step adj Hwf s _ v Q' D a D' new Hb Ha eq_refl HD') as Hb'.
  assert (Hnew : ∀ w, w ∈ new ↔ w ∈ nbrs v ∧ D w = None).
  { intros w. unfold new. rewrite list_elem_of_filter. naive_solver. }
  assert (Hold : ∀ w b, D w = Some b → D' w = Some b).
  { intros w b Hw. rewrite HD', decide_False; [done|]. rewrite Hnew. intros [_ ?]. congruence. }
  assert (Hpv : ∀ w, is_pred D' v w ↔ w ∈ nbrs v ∧ dget (st_dist st') w = Some (z + 1)).
  { intros w. unfold is_pred. rewrite (Hold _ _ Ha). simpl.
    assert (D' w = Some (S a) ↔ dget (st_dist st') w = Some (z + 1)); [|naive_solver].
    unfold D', fw_D. destruct (dget (st_dist st') w) as [z'|] eqn:Ez'; [|done].
    destruct (z' <? 0) eqn:Elt; [apply Z.ltb_lt in Elt|apply Z.ltb_ge in Elt].
    - split; [done|]. intros [= ->]. lia.
    - split; intros [= ?]; f_equal; lia. }
  assert (HpS : ∀ x w, x ∈ st_S st → (is_pred D' x w ↔ is_pred D x w)).
  { intros x w Hx.
    assert (is_Some (D x)) as [b Hxb] by (apply (bi_visited _ _ _ _ _ Hb); set_solver).
    unfold is_pred. rewrite (Hold _ _ Hxb), Hxb. simpl.
    split; intros (Hw & ? & Hw'); (split_and!; [done..|]).
    - destruct (bi_relaxed _ _ _ _ _ Hb x w b Hx Hw Hxb) as (c & Hc & _).
      rewrite (Hold _ _ Hc) in Hw'. congruence.
    - by apply Hold. }
  split; cbn [st_dist st_sigma st_P st_S st_Q].
  - done.
  - done.
  - done.
  - intros w z'. rewrite Hd'. destruct (decide _); [|by apply Hrg].
    intros [= <-]. lia.
  - by rewrite HS', HQ'.
  - intros w Hw. rewrite Hsg', (Hsg w Hw), HS'. fold D'.
    unfold sig_val. rewrite sumN_app. cbn [big foldr].
    rewrite (sumN_ext (λ x, if decide (is_pred D' x w) then npaths adj s x else 0%nat)
                      (λ x, if decide (is_pred D x w) then npaths adj s x else 0%nat)).
    2:{ intros x Hx. apply decide_ext. by apply HpS. }
    destruct (decide (w ∈ nbrs v ∧ _)) as [Ht|Ht];
      destruct (decide (is_pred D' v w)) as [Hp|Hp];
      try (by apply Hpv in Hp); try (by apply Hpv in Ht).
    + simpl. f_equal. unfold sv. rewrite <- Z2Qc_inj_add. f_equal. lia.
    + do 3 f_equal. lia.
  - intros w Hw. rewrite HP', (HP w Hw), HS'. fold D'.
    rewrite filter_app, filter_singleton; [|exact []].
    rewrite (filter_ext_elem (λ x, is_pred D' x w) (λ x, is_pred D x w))
      by (intros; by apply HpS).
    destruct (decide (w ∈ nbrs v ∧ _)) as [Ht|Ht];
      destruct (decide (is_pred D' v w)) as [Hp|Hp];
      try (by apply Hpv in Hp); try (by apply Hpv in Ht).
    by rewrite app_nil_r.
Qed.

Lemma fwd_inv_init :
  fwd_inv (FwdState [] (dict_comp nodes (λ _, []))
             (dset (dict_comp nodes (λ _, of_int (PyFloat:=rational) 0)) s
                   (of_int (PyFloat:=rational) 1))
             (dset (dict_comp nodes (λ _, -1)) s 0) [s]).
Proof.
  pose proof (wf_keys _ Hwf) as Hnd.
  assert (HD : ∀ w, fw_D (dset (dict_comp nodes (λ _, -1)) s 0) w
                    = if decide (w = s) then Some 0%nat else None).
  { intros w. unfold fw_D. rewrite dget_dset, dget_dict_comp.
    destruct (decide (s = w)) as [->|]; [by rewrite decide_True|].
    destruct (decide (w = s)); [congruence|]. by destruct (decide (w ∈ nodes)). }
  split; cbn [st_dist st_sigma st_P st_S st_Q].
  - by apply keys_dict_comp.
  - rewrite keys_dset_in; rewrite keys_dict_comp; done.
  - rewrite keys_dset_in; rewrite keys_dict_comp; done.
  - intros w z. rewrite dget_dset, dget_dict_comp.
    destruct (decide (s = w)); [intros [= <-]; lia|].
    destruct (decide (w ∈ nodes)); [intros [= <-]; lia|done].
  - eapply bfs_inv_ext; [exact HD|]. by apply bfs_inv_init.
  - intros w Hw. rewrite dget_dset, dget_dict_comp.
    unfold sig_val. cbn [big foldr]. rewrite !of_int_rational.
    destruct (decide (w ∈ nodes)); [|done].
    destruct (decide (s = w)) as [->|]; [by rewrite decide_True|].
    destruct (decide (w = s)); [congruence|done].
  - intros w Hw. by rewrite dget_dict_comp, decide_True.
Qed.

(** The [while Q] loop ends, on an empty queue, within the fuel given. *)
Lemma fwd_loop_ok fuel st :
  fwd_inv st → (length nodes - length (st_S st) < fuel)%nat →
  ∃ st', fwd_loop (FL:=rational) adj fuel st = Ok st' ∧ fwd_inv st' ∧ st_Q st' = [].
Proof.
  revert st. induction fuel as [|fuel IH]; intros st Hinv Hfuel; [lia|].
  cbn [fwd_loop]. destruct (st_Q st) as [|v Q'] eqn:HQ; [by exists st|].
  assert (Hlen : (length (st_S st ++ v :: Q') ≤ length nodes)%nat).
  { pose proof (fi_bfs _ Hinv) as Hb. rewrite HQ in Hb.
    apply NoDup_length_le; [apply Hb|]. intros w. apply Hb. }
  rewrite length_app in Hlen. simpl in Hlen.
  destruct (fwd_step st v Q' Hinv HQ) as (z & st' & Hz & E & Hinv' & HS').
  cbn [st_dist]. unfold getitem. rewrite Hz. cbn [mbind res_bind].
  rewrite E. cbn [mbind res_bind].
  apply IH; [done|]. rewrite HS', length_app. simpl. lia.
Qed.

Lemma forward_ok :
  ∃ st, forward (FL:=rational) adj nodes s = Ok st ∧ fwd_inv st ∧ st_Q st = [].
Proof.
  unfold forward. apply fwd_loop_ok; [apply fwd_inv_init|simpl; lia].
Qed.

(** What the forward search hands to the backward phase. *)
Lemma forward_final st :
  fwd_inv st → st_Q st = [] →
  NoDup (st_S st)
  ∧ (∀ w, w ∈ st_S st ↔ is_Some (dst s w))
  ∧ (∀ w, w ∈ st_S st → w ∈ nodes)
  ∧ (∀ l1 x l2 y a b, st_S st = l1 ++ x :: l2 → y ∈ l1 →
       dst s y = Some a → dst s x = Some b → (a ≤ b)%nat)
  ∧ (∀ w, w ∈ nodes → dget (st_sigma st) w = Some #(npaths adj s w))
  ∧ (∀ w, w ∈ nodes →
       dget (st_P st) w = Some (filter (λ x, is_pred (dst s) x w) (st_S st)))
  ∧ keys (st_P st) = nodes ∧ keys (st_sigma st) = nodes.
Proof.
  intros [HkP Hks Hkd Hrg Hb Hsg HP] HQ. rewrite HQ in Hb.
  set (D := fw_D (st_dist st)) in *.
  assert (HD : ∀ w, D w = dst s w) by (intros; by eapply bfs_final_distance).
  pose proof (bi_nodup _ _ _ _ _ Hb) as Hnd. rewrite app_nil_r in Hnd.
  assert (Hp : ∀ x w, is_pred D x w ↔ is_pred (dst s) x w).
  { intros x w. unfold is_pred. by rewrite !HD. }
  split_and!; try done.
  - intros w. rewrite <- HD, (bi_visited _ _ _ _ _ Hb), app_nil_r. done.
  - intros w Hw. apply (bi_nodes _ _ _ _ _ Hb). by rewrite app_nil_r.
  - intros l1 x l2 y a b E Hy Hya Hxb. rewrite <- HD in Hya, Hxb.
    eapply (bi_sorted _ _ _ _ _ Hb l1 x l2 y); [by rewrite app_nil_r|done..].
  - intros w Hw. rewrite Hsg by done. do 3 f_equal.
    destruct (D w) as [a|] eqn:Ha.
    + eapply (sig_val_done _ [] D w a); [done..|]. by intros q b ?%elem_of_nil.
    + unfold sig_val. rewrite npaths_None by (by rewrite <- HD).
      rewrite decide_False.
      2:{ intros ->. rewrite (bi_source _ _ _ _ _ Hb) in Ha. done. }
      rewrite sumN_zero; [done|]. intros x _. rewrite decide_False; [done|].
      intros (_ & [b Hb'] & E). rewrite Ha, Hb' in E. done.
  - intros w Hw. rewrite HP by done. f_equal. apply filter_ext_elem. intros; apply Hp.
Qed.
End Forward.

(** * Pair dependencies *)

Section Dependencies.
Context {Node : Type} `{EqDecision Node}.
Variable adj : dict Node (list Node).
Hypothesis Hwf : adj_wf adj.
Implicit Types (u v w x y s t : Node) (p : list Node).
Local Open Scope nat_scope.

Local Notation nbrs := (adj_get adj).
Local Notation nw := (nwalks adj).
Local Notation dst := (distance adj).
Local Notation nodes := (keys adj).
Local Notation np := (npaths adj).

(** [x] lies on a shortest path from [s] to [t]. *)
Definition on_path s t x : Prop :=
  ∃ a b, dst s x = Some a ∧ dst x t = Some b ∧ dst s t = Some (a + b).

Global Instance on_path_dec s t x : Decision (on_path s t x).
Proof.
  unfold on_path.
  destruct (dst s x) as [a|]; [|right; by intros (? & ? & ? & _)].
  destruct (dst x t) as [b|]; [|right; by intros (? & ? & _ & ? & _)].
  destruct (decide (dst s t = Some (a + b))) as [E|E].
  - left. by exists a, b.
  - right. intros (a' & b' & ? & ? & ?). by simplify_eq.
Defined.

(** The number of shortest paths from [s] to [t] through [x]. *)
Definition thru s t x : nat :=
  if decide (on_path s t x) then np s x * np x t else 0.




Lemma npaths_refl u : np u u = 1.
Proof. rewrite (npaths_dist adj u u 0) by (by apply distance_refl). apply nwalks_0_eq. Qed.


(** A predecessor of a node on a shortest path to [t] is on one too. *)
Lemma on_path_pred s t x w :
  is_pred adj (dst s) x w → on_path s t w →
  on_path s t x ∧ t ≠ x ∧ dst x t = S <$> dst w t.
Proof.
  intros (Hw & [a Ha] & Hsw) (a1 & b1 & Ha1 & Hb1 & Hc).
  rewrite Ha in Hsw. simpl in Hsw. assert (a1 = S a) as -> by congruence.
  pose proof (distance_edge adj Hwf x w Hw) as He.
  destruct (distance_triangle adj Hwf x w t 1 b1 He Hb1) as (c' & Hc' & Hle).
  destruct (distance_triangle adj Hwf s x t a c' Ha Hc') as (c'' & Hc'' & Hle').
  assert (c'' = S a + b1) as -> by congruence.
  assert (c' = S b1) as -> by lia.
  split_and!.
  - exists a, (S b1). split_and!; [done..|]. rewrite Hc. f_equal. lia.
  - intros ->. rewrite distance_refl in Hc' by done. done.
  - by rewrite Hc', Hb1.
Qed.

(** The first step of a shortest path from a node on a shortest path from
    [s] leads to a successor that is on one too. *)
Lemma on_path_succ s t x w b :
  on_path s t x → w ∈ nbrs x → dst w t = Some b → dst x t = Some (S b) →
  is_pred adj (dst s) x w ∧ on_path s t w.
Proof.
  intros (a & b0 & Ha & Hb0 & Hc) Hw Hb Hxb. assert (b0 = S b) as -> by congruence.
  pose proof (distance_edge adj Hwf x w Hw) as He.
  destruct (distance_triangle adj Hwf s x w a 1 Ha He) as (e & He' & Hle).
  destruct (distance_triangle adj Hwf s w t e b He' Hb) as (c' & Hc' & Hle').
  assert (c' = a + S b) as -> by congruence.
  assert (e = S a) as -> by lia.
  split.
  - split_and!; [done|eauto|]. by rewrite Ha, He'.
  - exists (S a), b. split_and!; [done..|]. rewrite Hc. f_equal. lia.
Qed.

(** The shortest paths from [x] to [t], by their first step. *)
Lemma npaths_first_step s t x :
  sumN (λ w, if decide (is_pred adj (dst s) x w ∧ on_path s t w) then np w t else 0) nodes
  = if decide (t ≠ x ∧ on_path s t x) then np x t else 0.
Proof.
  destruct (decide (t ≠ x ∧ on_path s t x)) as [[Htx Hon]|Hno].
  2:{ apply sumN_zero. intros w _. rewrite decide_False; [done|].
      intros [Hp Ho]. apply Hno. by destruct (on_path_pred s t x w Hp Ho) as (? & ? & _). }
  pose proof Hon as (a & b & Ha & Hb & Hc).
  destruct b as [|b]; [by apply distance_0 in Hb|].
  rewrite (npaths_dist adj x t _ Hb), nwalks_S.
  rewrite (sumN_sub _ (nbrs x) nodes);
    [|by apply wf_nodup|by apply wf_keys|by intros w ?%(wf_key_r adj)].
  apply sumN_ext. intros w _.
  destruct (decide (w ∈ nbrs x)) as [Hw|Hw].
  2:{ rewrite decide_False; [done|]. by intros [(? & _) _]. }
  destruct (decide (is_pred adj (dst s) x w ∧ on_path s t w)) as [[Hp Ho]|Hn].
  - destruct (on_path_pred s t x w Hp Ho) as (_ & _ & E).
    rewrite Hb in E. destruct (dst w t) as [b'|] eqn:Eb'; [|done].
    simpl in E. simplify_eq. by apply npaths_dist.
  - destruct (decide (0 < nw b w t)) as [Hpos|]; [|lia]. exfalso. apply Hn.
    destruct (distance_walk adj Hwf w t b Hpos) as (j & Hj & Hjb).
    pose proof (distance_edge adj Hwf x w Hw) as He.
    destruct (distance_triangle adj Hwf x w t 1 j He Hj) as (c' & Hc' & Hle).
    assert (c' = S b) as -> by congruence. assert (j = b) as -> by lia.
    by apply (on_path_succ s t x w b).
Qed.

Local Open Scope Qc_scope.
Local Notation "# n" := (Qc_of_Z (Z.of_nat n)) (at level 5, format "# n").

(** The dependency of the pair [(s, t)] on [x], and of [s] on [x]. *)
Definition dep s t x : Qc := #(thru s t x) / #(np s t).

Definition delta_spec s x : Qc :=
  sumQ (λ t, if decide (t ≠ s ∧ t ≠ x) then dep s t x else 0) nodes.

Lemma Qc_of_nat_mul (a b : nat) : #(a * b) = #a * #b.
Proof. by rewrite Nat2Z.inj_mul, Z2Qc_inj_mul. Qed.

Lemma Qc_of_nat_0 : #0 = 0.
Proof. apply Z2Qc_inj_0. Qed.

Lemma Qc_of_nat_pos (a : nat) : (0 < a)%nat → #a ≠ 0.
Proof. intros Ha. apply Qc_of_Z_nonzero. lia. Qed.


(** The share of [w] in the pair [(s, t)], per shortest path from [s] to [w]. *)
Definition share s t w : Qc :=
  (if decide (on_path s t w) then #(np w t) else 0) / #(np s t).

Lemma dep_share s t w : dep s t w = #(np s w) * share s t w.
Proof.
  unfold dep, share, thru. destruct (decide (on_path s t w)).
  - rewrite Qc_of_nat_mul. unfold Qcdiv. ring.
  - unfold Qcdiv. rewrite Qc_of_nat_0. ring.
Qed.

Lemma delta_spec_share s w :
  delta_spec s w
  = #(np s w) * sumQ (λ t, if decide (t ≠ s ∧ t ≠ w) then share s t w else 0) nodes.
Proof.
  unfold delta_spec. rewrite sumQ_mul. apply sumQ_ext. intros t _.
  destruct (decide _); [apply dep_share|ring].
Qed.

Lemma one_plus_delta s w :
  w ∈ nodes → w ≠ s → is_Some (dst s w) →
  1 + delta_spec s w
  = #(np s w) * sumQ (λ t, if decide (t ≠ s) then share s t w else 0) nodes.
Proof.
  intros Hw Hne [a Ha].
  pose proof (Qc_of_nat_pos _ (npaths_pos adj Hwf s w a Ha)) as Hnz.
  rewrite (sumQ_split_at _ w nodes (wf_keys _ Hwf) Hw).
  rewrite decide_True by done.
  rewrite (sumQ_ext (λ t, if decide (t ≠ w) then if decide (t ≠ s) then share s t w else 0 else 0)
                    (λ t, if decide (t ≠ s ∧ t ≠ w) then share s t w else 0)).
  2:{ intros t _. destruct (decide (t ≠ w)), (decide (t ≠ s)), (decide (t ≠ s ∧ t ≠ w));
        naive_solver. }
  rewrite delta_spec_share.
  assert (Hsh : share s w w = 1 / #(np s w)).
  { unfold share. rewrite decide_True.
    - by rewrite npaths_refl.
    - exists a, 0%nat. rewrite distance_refl by done. split_and!; [done..|].
      rewrite Ha. f_equal. lia. }
  rewrite Hsh. field. done.
Qed.

(** Brandes' recursion: the dependency of [s] on [x] from the dependencies
    on the successors of [x]. *)
Lemma brandes_recursion s x :
  delta_spec s x
  = sumQ (λ w, if decide (is_pred adj (dst s) x w)
               then #(np s x) / #(np s w) * (1 + delta_spec s w) else 0) nodes.
Proof.
  symmetry.
  transitivity (sumQ (λ w, sumQ (λ t,
      if decide (t ≠ s)
      then #(np s x) * ((if decide (is_pred adj (dst s) x w ∧ on_path s t w)
                         then #(np w t) else 0) / #(np s t))
      else 0) nodes) nodes).
  { apply sumQ_ext. intros w Hw.
    destruct (decide (is_pred adj (dst s) x w)) as [Hp|Hp].
    - pose proof Hp as (Hwx & [a Ha] & Hsw). rewrite Ha in Hsw. simpl in Hsw.
      assert (w ≠ s).
      { intros ->. rewrite distance_refl in Hsw by done. done. }
      rewrite one_plus_delta by eauto.
      pose proof (Qc_of_nat_pos _ (npaths_pos adj Hwf s w _ Hsw)) as Hnz.
      transitivity (#(np s x)
                    * sumQ (λ t, if decide (t ≠ s) then share s t w else 0) nodes).
      { field. done. }
      rewrite sumQ_mul. apply sumQ_ext. intros t _.
      destruct (decide (t ≠ s)); [|ring]. unfold share.
      f_equal. f_equal. apply decide_ext. naive_solver.
    - symmetry. apply sumQ_zero. intros t _. destruct (decide (t ≠ s)); [|done].
      rewrite decide_False by naive_solver. unfold Qcdiv. ring. }
  rewrite sumQ_swap. unfold delta_spec. apply sumQ_ext. intros t _.
  destruct (decide (t ≠ s)) as [Hts|Hts].
  2:{ rewrite decide_False by naive_solver. by apply sumQ_zero. }
  rewrite <- sumQ_mul.
  rewrite (sumQ_ext _ (λ w, #(if decide (is_pred adj (dst s) x w ∧ on_path s t w)
                             then np w t else 0%nat) * / #(np s t))).
  2:{ intros w _. destruct (decide _); [done|]. by rewrite Qc_of_nat_0. }
  rewrite <- (sumQ_ext (λ w, / #(np s t)
                            * #(if decide (is_pred adj (dst s) x w ∧ on_path s t w)
                                then np w t else 0%nat)))
    by (intros; ring).
  rewrite <- sumQ_mul, <- sumQ_of_sumN, npaths_first_step.
  rewrite dep_share. unfold share.
  destruct (decide (t ≠ x ∧ on_path s t x)) as [[Htx Hon]|Hno].
  - rewrite decide_True by done. rewrite decide_True by done. unfold Qcdiv. ring.
  - rewrite Qc_of_nat_0. destruct (decide (t ≠ s ∧ t ≠ x)) as [[_ Htx]|]; [|ring].
    rewrite decide_False by naive_solver. unfold Qcdiv. ring.
Qed.
End Dependencies.

(** * 媒介中心性: the backward phase and the sum over the sources *)

Lemma NoDup_reverse {A} (l : list A) : NoDup l → NoDup (reverse l).
Proof. by rewrite reverse_Permutation. Qed.

Section Backward.
Context {Node : Type} `{EqDecision Node}.
Variable adj : dict Node (list Node).
Hypothesis Hwf : adj_wf adj.
Implicit Types (u v w x y s t : Node) (delta Cb sigma : dict Node Qc)
  (P : dict Node (list Node)).
Local Open Scope Qc_scope.

Local Notation nbrs := (adj_get adj).
Local Notation dst := (distance adj).
Local Notation nodes := (keys adj).
Local Notation np := (npaths adj).
Local Notation "# n" := (Qc_of_Z (Z.of_nat n)) (at level 5, format "# n").

(** [for v in P[w]: delta[v] += sigma[v] * coeff] *)
Lemma push_delta_fold sigma (coeff : Qc) delta (l : list Node) (sg : Node → Qc) :
  NoDup l → (∀ x, x ∈ l → x ∈ keys delta) →
  (∀ x, x ∈ l → dget sigma x = Some (sg x)) →
  ∃ delta', foldM (push_delta (FL:=rational) sigma coeff) delta l = Ok delta'
    ∧ keys delta' = keys delta
    ∧ ∀ x, dget delta' x
           = if decide (x ∈ l) then (λ d, d + sg x * coeff) <$> dget delta x
             else dget delta x.
Proof.
  intros Hnd Hk Hsg.
  destruct (foldM_inv (λ l1 d,
      keys d = keys delta
      ∧ ∀ x, dget d x = if decide (x ∈ l1) then (λ d, d + sg x * coeff) <$> dget delta x
                        else dget delta x)
    (push_delta (FL:=rational) sigma coeff) delta l) as (delta' & E & HI).
  3:{ exists delta'. by split. }
  - split; [done|]. intros x. by rewrite decide_False by apply not_elem_of_nil.
  - intros l1 y l2 d -> [Hkd Hd].
    assert (Hy : y ∉ l1).
    { apply NoDup_app in Hnd as (_ & Hd1 & _). intros Hy. apply (Hd1 _ Hy). by left. }
    assert (is_Some (dget delta y)) as [c Hc] by (apply dget_is_Some, Hk; set_solver).
    unfold push_delta, getitem.
    rewrite Hd, decide_False, Hc by done. cbn [mbind res_bind].
    rewrite Hsg by set_solver. cbn [mbind res_bind].
    eexists. split; [done|]. split.
    + rewrite keys_dset_in; [done|]. rewrite Hkd. apply dget_is_Some. eauto.
    + intros x. rewrite dget_dset. destruct (decide (y = x)) as [<-|Hne].
      * rewrite decide_True by set_solver. by rewrite Hc.
      * rewrite Hd. apply decide_ext. set_solver.
Qed.

(** An unreachable node carries no dependency. *)
Lemma delta_spec_unreachable s x : dst s x = None → delta_spec adj s x = 0.
Proof.
  intros Hx. apply sumQ_zero. intros t _. destruct (decide _); [|done].
  unfold dep, thru. rewrite decide_False.
  - unfold Qcdiv. rewrite Qc_of_nat_0. ring.
  - intros (? & ? & ? & _). congruence.
Qed.



(** One turn of the [while S] loop, once the lookups are known to succeed. *)
Lemma back_step_eq s P sigma delta Cb w (sw dw cw dw' : Qc) pw delta' :
  dget sigma w = Some sw → sw ≠ 0 → dget delta w = Some dw → dget P w = Some pw →
  foldM (push_delta (FL:=rational) sigma ((1 + dw) / sw)) delta pw = Ok delta' →
  dget Cb w = Some cw → dget delta' w = Some dw' →
  back_step (FL:=rational) s P sigma (delta, Cb) w
  = Ok (delta', if decide (w ≠ s) then dset Cb w (cw + dw') else Cb).
Proof.
  intros Hsw Hnz Hdw Hpw E Hcw Hdw'. unfold back_step, getitem.
  rewrite Hsw. cbn [mbind res_bind].
  rewrite is_zero_rational, bool_decide_eq_false_2 by done.
  rewrite Hdw. cbn [mbind res_bind]. rewrite of_int_rational, Z2Qc_inj_1.
  change (fadd 1 dw) with (1 + dw). rewrite fdiv_rational by done.
  cbn [mbind res_bind]. rewrite Hpw. cbn [mbind res_bind]. rewrite E.
  cbn [mbind res_bind]. destruct (decide (w ≠ s)); [|done].
  rewrite Hcw. cbn [mbind res_bind]. rewrite Hdw'. done.
Qed.

Section OneSource.
Variables (s : Node) (Ss : list Node) (P : dict Node (list Node)) (sigma : dict Node Qc).
Hypothesis HS_nodup : NoDup Ss.
Hypothesis HS_reach : ∀ w, w ∈ Ss ↔ is_Some (dst s w).
Hypothesis HS_nodes : ∀ w, w ∈ Ss → w ∈ nodes.
Hypothesis HS_sorted : ∀ l1 x l2 y a b,
  Ss = l1 ++ x :: l2 → y ∈ l1 → dst s y = Some a → dst s x = Some b → (a ≤ b)%nat.
Hypothesis Hsigma : ∀ w, w ∈ nodes → dget sigma w = Some #(np s w).
Hypothesis HP : ∀ w, w ∈ nodes →
  dget P w = Some (filter (λ x, is_pred adj (dst s) x w) Ss).

(** What a successor [w] of [x] sends back to [x]. *)
Definition back_term (x w : Node) : Qc :=
  if decide (is_pred adj (dst s) x w)
  then #(np s x) / #(np s w) * (1 + delta_spec adj s w) else 0.

(** The successors of [w] come after it in [Ss]. *)
Lemma succ_later l1 w l2 w' :
  reverse Ss = l1 ++ w :: l2 → is_pred adj (dst s) w w' → w' ∈ l1.
Proof.
  intros E (Hw' & [a Ha] & Hd). rewrite Ha in Hd. simpl in Hd.
  assert (Hin : w' ∈ reverse Ss) by (apply elem_of_reverse, HS_reach; eauto).
  rewrite E in Hin. apply elem_of_app in Hin as [?|Hin]; [done|].
  apply elem_of_cons in Hin as [->|Hin]; [rewrite Ha in Hd; simplify_eq; lia|]. exfalso.
  assert (ES : Ss = reverse l2 ++ w :: reverse l1).
  { rewrite <- (reverse_involutive Ss), E, reverse_app, reverse_cons.
    by rewrite <- app_assoc. }
  pose proof (HS_sorted (reverse l2) w (reverse l1) w' (S a) a ES
                ltac:(by apply elem_of_reverse) Hd Ha). lia.
Qed.

Lemma back_fold (c0 : Node → Qc) Cb :
  keys Cb = nodes → (∀ x, x ∈ nodes → dget Cb x = Some (c0 x)) →
  ∃ delta' Cb',
    foldM (back_step (FL:=rational) s P sigma)
          (dict_comp nodes (λ _, of_int (PyFloat:=rational) 0), Cb) (reverse Ss)
    = Ok (delta', Cb')
    ∧ keys Cb' = nodes
    ∧ ∀ x, x ∈ nodes →
        dget Cb' x = Some (c0 x + (if decide (x ≠ s) then delta_spec adj s x else 0)).
Proof.
  intros HkC HC. pose proof (wf_keys _ Hwf) as Hnd.
  destruct (foldM_inv (λ l1 st,
      keys st.1 = nodes ∧ keys st.2 = nodes
      ∧ (∀ x, x ∈ nodes → dget st.1 x = Some (sumQ (back_term x) l1))
      ∧ (∀ x, x ∈ nodes →
           dget st.2 x = Some (c0 x + (if decide (x ∈ l1 ∧ x ≠ s)
                                       then delta_spec adj s x else 0))))
    (back_step (FL:=rational) s P sigma)
    (dict_comp nodes (λ _, of_int (PyFloat:=rational) 0), Cb) (reverse Ss))
    as ([delta' Cb'] & E & Hk1 & Hk2 & Hd & Hc).
  - cbn [fst snd]. split_and!; [by apply keys_dict_comp|done| |].
    + intros x Hx. rewrite dget_dict_comp, decide_True by done.
      by rewrite of_int_rational, Z2Qc_inj_0.
    + intros x Hx. rewrite HC by done. f_equal.
      rewrite decide_False by (intros [?%elem_of_nil _]; done). ring.
  - intros l1 w l2 [delta Cb1] E (Hk1 & Hk2 & Hd & Hc). cbn [fst snd] in *.
    assert (HwS : w ∈ Ss) by (apply elem_of_reverse; rewrite E; set_solver).
    pose proof (HS_nodes w HwS) as Hwn.
    pose proof (proj1 (HS_reach w) HwS) as [a Ha].
    assert (Hwl1 : w ∉ l1).
    { pose proof (NoDup_reverse _ HS_nodup) as Hr. rewrite E in Hr.
      apply NoDup_app in Hr as (_ & Hr & _). intros Hw. apply (Hr _ Hw). by left. }
    pose proof (Qc_of_nat_pos _ (npaths_pos adj Hwf s w a Ha)) as Hnz.
    assert (Hdw : dget delta w = Some (delta_spec adj s w)).
    { rewrite Hd by done. f_equal. rewrite brandes_recursion by done.
      assert (Hl1 : NoDup l1).
      { pose proof (NoDup_reverse _ HS_nodup) as Hr. rewrite E in Hr.
        by apply NoDup_app in Hr as (? & _). }
      rewrite (sumQ_sub _ l1 nodes Hl1 Hnd).
      2:{ intros x Hx. apply HS_nodes, elem_of_reverse. rewrite E. set_solver. }
      apply sumQ_ext. intros w' _. unfold back_term.
      destruct (decide (is_pred adj (dst s) w w')) as [Hp|]; [|by destruct (decide _)].
      by rewrite decide_True by (by eapply succ_later). }
    set (Pw := filter (λ x, is_pred adj (dst s) x w) Ss).
    destruct (push_delta_fold sigma ((1 + delta_spec adj s w) / #(np s w)) delta Pw
                (λ x, #(np s x))) as (delta1 & E1 & Hk1' & Hd1).
    { by apply NoDup_filter. }
    { intros x [_ Hx]%list_elem_of_filter. rewrite Hk1. by apply HS_nodes. }
    { intros x [_ Hx]%list_elem_of_filter. by apply Hsigma, HS_nodes. }
    assert (HwP : w ∉ Pw).
    { intros [(Hw & _) _]%list_elem_of_filter. by apply wf_irrefl in Hw. }
    rewrite (back_step_eq s P sigma delta Cb1 w #(np s w) (delta_spec adj s w)
               (c0 w) (delta_spec adj s w) Pw delta1); try done.
    2:{ by apply Hsigma. }
    2:{ by apply HP. }
    2:{ rewrite Hc by done. f_equal. rewrite decide_False by naive_solver. ring. }
    2:{ by rewrite Hd1, decide_False. }
    eexists. split; [done|]. cbn [fst snd]. split_and!.
    + by rewrite Hk1'.
    + destruct (decide (w ≠ s)); [|done]. rewrite keys_dset_in; [done|]. by rewrite Hk2.
    + intros x Hx. rewrite Hd1, Hd by done. rewrite sumQ_app. cbn [big foldr].
      assert (Hbt : back_term x w
                    = if decide (is_pred adj (dst s) x w)
                      then #(np s x) / #(np s w) * (1 + delta_spec adj s w) else 0)
        by done.
      rewrite Hbt.
      destruct (decide (x ∈ Pw)) as [[Hp HxS]%list_elem_of_filter|Hn].
      * rewrite decide_True by done. simpl. f_equal. field. done.
      * rewrite decide_False.
        2:{ intros Hp. apply Hn, list_elem_of_filter. split; [done|].
            apply HS_reach. by destruct Hp as (_ & ? & _). }
        f_equal. ring.
    + intros x Hx. destruct (decide (w ≠ s)) as [Hws|Hws].
      * rewrite dget_dset. destruct (decide (w = x)) as [<-|Hne].
        { rewrite decide_True by set_solver. done. }
        rewrite Hc by done. f_equal. f_equal. apply decide_ext. set_solver.
      * rewrite Hc by done. f_equal. f_equal. apply decide_ext.
        apply dec_stable in Hws. subst w. set_solver.
  - cbn [fst snd] in *. exists delta', Cb'. split_and!; [done..|].
    intros x Hx. rewrite Hc by done. f_equal. f_equal.
    destruct (decide (x ≠ s)) as [Hne|Heq].
    + destruct (decide (x ∈ Ss)) as [HxS|HxS].
      * rewrite decide_True; [done|]. split; [by apply elem_of_reverse|done].
      * rewrite decide_False by (rewrite elem_of_reverse; naive_solver).
        symmetry. apply delta_spec_unreachable.
        apply eq_None_not_Some. by rewrite <- HS_reach.
    + rewrite decide_False by naive_solver. done.
Qed.
End OneSource.

(** One source: the forward search and the backward phase together add
    to [Cb[x]] the dependency of [s] on [x], for every [x] other than [s]. *)
Lemma source_pass_ok s (c0 : Node → Qc) Cb :
  s ∈ nodes → keys Cb = nodes → (∀ x, x ∈ nodes → dget Cb x = Some (c0 x)) →
  ∃ Cb', source_pass (FL:=rational) adj nodes Cb s = Ok Cb'
    ∧ keys Cb' = nodes
    ∧ ∀ x, x ∈ nodes →
        dget Cb' x = Some (c0 x + (if decide (x ≠ s) then delta_spec adj s x else 0)).
Proof.
  intros Hs HkC HC.
  destruct (forward_ok adj Hwf s Hs) as (st & E & Hinv & HQ).
  destruct (forward_final adj Hwf s st Hinv HQ)
    as (H1 & H2 & H3 & H4 & H5 & H6 & _ & _).
  destruct (back_fold s (st_S st) (st_P st) (st_sigma st) H1 H2 H3 H4 H5 H6 c0 Cb HkC HC)
    as (delta' & Cb' & E' & Hk' & HC').
  exists Cb'. split; [|done]. unfold source_pass. rewrite E. cbn [mbind res_bind].
  rewrite E'. done.
Qed.

(** The sum of the dependencies of all sources on [x]. *)
Definition dependency_sum (x : Node) : Qc :=
  sumQ (λ s, if decide (x ≠ s) then delta_spec adj s x else 0) nodes.

Lemma all_sources_ok :
  ∃ Cb, foldM (source_pass (FL:=rational) adj nodes)
              (dict_comp nodes (λ _, of_int (PyFloat:=rational) 0)) nodes = Ok Cb
    ∧ keys Cb = nodes
    ∧ ∀ x, x ∈ nodes → dget Cb x = Some (dependency_sum x).
Proof.
  pose proof (wf_keys _ Hwf) as Hnd.
  apply (foldM_inv (λ l1 Cb, keys Cb = nodes
    ∧ ∀ x, x ∈ nodes →
        dget Cb x = Some (sumQ (λ s, if decide (x ≠ s) then delta_spec adj s x else 0) l1))).
  - split; [by apply keys_dict_comp|]. intros x Hx.
    rewrite dget_dict_comp, decide_True by done. by rewrite of_int_rational, Z2Qc_inj_0.
  - intros l1 s l2 Cb E [Hk HC].
    destruct (source_pass_ok s _ Cb ltac:(rewrite E; set_solver) Hk HC) as (Cb' & E' & Hk' & HC').
    exists Cb'. split_and!; [done..|]. intros x Hx. rewrite HC' by done.
    rewrite sumQ_app. cbn [big foldr]. f_equal. ring.
Qed.
End Backward.

Section InPlace.
Context {Node : Type} `{EqDecision Node}.
Implicit Types (Cb : dict Node Qc) (x v : Node).
Local Open Scope Qc_scope.

(** A loop that rewrites every value of a dict in place. *)
Lemma update_all_fold (body : dict Node Qc → Node → res (dict Node Qc)) (g : Qc → Qc) Cb :
  NoDup (keys Cb) →
  (∀ d v c, dget d v = Some c → body d v = Ok (dset d v (g c))) →
  ∃ Cb', foldM body Cb (keys Cb) = Ok Cb'
    ∧ keys Cb' = keys Cb ∧ ∀ x, dget Cb' x = g <$> dget Cb x.
Proof.
  intros Hnd Hbody.
  destruct (foldM_inv (λ l1 d, keys d = keys Cb
      ∧ ∀ x, dget d x = if decide (x ∈ l1) then g <$> dget Cb x else dget Cb x)
    body Cb (keys Cb)) as (Cb' & E & Hk & Hd).
  - split; [done|]. intros x. by rewrite decide_False by apply not_elem_of_nil.
  - intros l1 v l2 d E [Hk Hd].
    assert (Hv : v ∉ l1).
    { rewrite E in Hnd. apply NoDup_app in Hnd as (_ & Hd1 & _).
      intros Hv. apply (Hd1 _ Hv). by left. }
    assert (is_Some (dget Cb v)) as [c Hc] by (apply dget_is_Some; rewrite E; set_solver).
    rewrite (Hbody d v c) by (by rewrite Hd, decide_False).
    eexists. split; [done|]. split.
    + rewrite keys_dset_in; [done|]. rewrite Hk, E. set_solver.
    + intros x. rewrite dget_dset. destruct (decide (v = x)) as [<-|Hne].
      * rewrite decide_True by set_solver. by rewrite Hc.
      * rewrite Hd. apply decide_ext. set_solver.
  - exists Cb'. split_and!; [done..|]. intros x. rewrite Hd.
    destruct (decide (x ∈ keys Cb)) as [|Hn]; [done|].
    apply dget_None in Hn. by rewrite Hn.
Qed.

Lemma halve_ok Cb :
  NoDup (keys Cb) →
  ∃ Cb', halve (FL:=rational) Cb = Ok Cb'
    ∧ keys Cb' = keys Cb ∧ ∀ x, dget Cb' x = (λ c, c / 2) <$> dget Cb x.
Proof.
  intros Hnd. apply update_all_fold; [done|]. intros d v c Hc.
  unfold getitem. rewrite Hc. cbn [mbind res_bind].
  rewrite of_int_rational, Z2Qc_inj_2, fdiv_rational by done. done.
Qed.

Lemma rescale_ok (scale : Qc) Cb :
  NoDup (keys Cb) →
  ∃ Cb', rescale (FL:=rational) scale Cb = Ok Cb'
    ∧ keys Cb' = keys Cb ∧ ∀ x, dget Cb' x = (λ c, c * scale) <$> dget Cb x.
Proof.
  intros Hnd. apply update_all_fold; [done|]. intros d v c Hc.
  unfold getitem. rewrite Hc. done.
Qed.
End InPlace.

(** * 媒介中心性: the whole function *)

Lemma sumQ_fmap {A B} (h : A → B) (f : B → Qc) (l : list A) :
  sumQ f (h <$> l) = sumQ (λ a, f (h a)) l.
Proof. induction l as [|a l IH]; [done|]. rewrite fmap_cons, !big_cons. by rewrite IH. Qed.


Lemma Qcdiv_nonzero (x y : Qc) : x ≠ 0%Qc → y ≠ 0%Qc → (x / y)%Qc ≠ 0%Qc.
Proof.
  intros Hx Hy E. apply Hx. transitivity (x / y * y)%Qc; [field; done|].
  rewrite E. ring.
Qed.

Section BetweennessTop.
Context {Node : Type} `{EqDecision Node}.
Implicit Types (edges : list (Node * Node)) (u v w x s t : Node)
  (adj : dict Node (list Node)).
Local Open Scope Qc_scope.
Local Notation "# n" := (Qc_of_Z (Z.of_nat n)) (at level 5, format "# n").





(** The value the run leaves at [x]. *)
Definition brandes_value adj (normalized : bool) (x : Node) : Qc :=
  let n := Z.of_nat (length (keys adj)) in
  if (n <=? 2)%Z then 0
  else if normalized
       then dependency_sum adj x / 2 * (2 / Qc_of_Z ((n - 1) * (n - 2)))
       else dependency_sum adj x / 2.

Lemma betweenness_centrality_run edges normalized :
  let adj := build_adj edges in
  ∃ r, betweenness_centrality (FL:=rational) edges normalized = Ok r
       ∧ keys r = keys adj
       ∧ ∀ x, x ∈ keys adj → dget r x = Some (brandes_value adj normalized x).
Proof.
  intros adj. pose proof (build_adj_wf edges) as Hwf. fold adj in Hwf.
  pose proof (wf_keys _ Hwf) as Hnd.
  unfold betweenness_centrality, brandes_value. fold adj.
  destruct (Z.of_nat (length (keys adj)) <=? 2)%Z eqn:En.
  { eexists. split; [done|]. split; [by apply keys_dict_comp|].
    intros x Hx. rewrite dget_dict_comp, decide_True by done.
    by rewrite of_int_rational, Z2Qc_inj_0. }
  apply Z.leb_gt in En.
  destruct (all_sources_ok adj Hwf) as (Cb & E & Hk & HC).
  rewrite E. cbn [mbind res_bind].
  destruct (halve_ok Cb) as (Cb2 & E2 & Hk2 & HC2); [by rewrite Hk|].
  rewrite E2. cbn [mbind res_bind].
  destruct normalized.
  - rewrite (proj2 (Z.gtb_gt _ 2)) by lia.
    assert (Hden : Qc_of_Z ((Z.of_nat (length (keys adj)) - 1)
                            * (Z.of_nat (length (keys adj)) - 2)) ≠ 0).
    { apply Qc_of_Z_nonzero. nia. }
    rewrite !of_int_rational, Z2Qc_inj_2, fdiv_rational by done. cbn [mbind res_bind].
    rewrite is_zero_rational, bool_decide_eq_false_2 by (by apply Qcdiv_nonzero).
    cbn [negb].
    destruct (rescale_ok (2 / Qc_of_Z ((Z.of_nat (length (keys adj)) - 1)
                                       * (Z.of_nat (length (keys adj)) - 2))) Cb2)
      as (Cb3 & E3 & Hk3 & HC3); [by rewrite Hk2, Hk|].
    exists Cb3. split; [done|]. split; [by rewrite Hk3, Hk2|].
    intros x Hx. by rewrite HC3, HC2, HC.
  - exists Cb2. split; [done|]. split; [by rewrite Hk2|].
    intros x Hx. by rewrite HC2, HC.
Qed.


(** C5: for a graph of more than 2 nodes, [normalized=True] multiplies every
    halved score by [2 / ((n - 1) (n - 2))]; for a graph of at most 2 nodes
    every score is [0.0], whatever [normalized]. *)
Theorem betweenness_centrality_normalization edges :
  let adj := build_adj edges in
  let n := Z.of_nat (length (keys adj)) in
  ∃ r0 r1,
    betweenness_centrality (FL:=rational) edges false = Ok r0
    ∧ betweenness_centrality (FL:=rational) edges true = Ok r1
    ∧ keys r0 = keys adj ∧ keys r1 = keys adj
    ∧ ∀ v, v ∈ keys adj →
        if (n <=? 2)%Z then dget r0 v = Some 0 ∧ dget r1 v = Some 0
        else ∃ c, dget r0 v = Some c
                  ∧ dget r1 v = Some (c * (2 / Qc_of_Z ((n - 1) * (n - 2)))).
Proof.
  intros adj n.
  destruct (betweenness_centrality_run edges false) as (r0 & E0 & Hk0 & Hr0).
  destruct (betweenness_centrality_run edges true) as (r1 & E1 & Hk1 & Hr1).
  exists r0, r1. split_and!; [done..|]. intros v Hv.
  rewrite (Hr0 v Hv), (Hr1 v Hv). unfold brandes_value. fold adj n.
  destruct (n <=? 2)%Z; [done|]. eauto.
Qed.


End BetweennessTop.

(** * Concrete runs *)

(** The path 1 – 2 – 3 and the 4-cycle 1 – 2 – 3 – 4 – 1. *)
Definition path3 : list (nat * nat) := [(1, 2); (2, 3)]%nat.
Definition cycle4 : list (nat * nat) := [(1, 2); (2, 3); (3, 4); (4, 1)]%nat.

Example pair_dependency_path3 :
  pair_dependency_score (build_adj path3) 2%nat = 1%Qc
  ∧ pair_dependency_score (build_adj path3) 1%nat = 0%Qc.
Proof. split; by apply Qc_is_canon. Qed.

Example pair_dependency_cycle4 :
  pair_dependency_score (build_adj cycle4) 1%nat = (Qc_of_Z 1 / Qc_of_Z 2)%Qc.
Proof. by apply Qc_is_canon. Qed.

Example betweenness_cycle4_run :
  betweenness_centrality (FL:=rational) cycle4 false
  = Ok [(1%nat, Q2Qc (1 # 2)); (2%nat, Q2Qc (1 # 2));
        (3%nat, Q2Qc (1 # 2)); (4%nat, Q2Qc (1 # 2))].
Proof.
  vm_compute. repeat f_equal; by apply Qc_is_canon.
Qed.


(** * What the enumerations of the specification list *)

Section Enumerations.
Context {Node : Type} `{EqDecision Node}.
Variable adj : dict Node (list Node).
Implicit Types (u v w x : Node) (p : list Node) (l : list Node).

(** Consecutive nodes of [p] are neighbours. *)
Fixpoint is_walk p : Prop :=
  match p with
  | x :: p' => match p' with
               | y :: _ => y ∈ adj_get adj x ∧ is_walk p'
               | [] => True
               end
  | [] => True
  end.

(** [walks k u w] lists the walks of [k] edges from [u] to [w]. *)
Lemma elem_of_walks k u w p :
  p ∈ walks adj k u w ↔
  length p = S k ∧ head p = Some u ∧ last p = Some w ∧ is_walk p.
Proof.
  revert u p. induction k as [|k IH]; intros u p; cbn [walks].
  - destruct (decide (u = w)) as [->|Hne].
    + rewrite list_elem_of_singleton. split; [by intros ->|].
      intros (Hl & Hh & _ & _). destruct p as [|x [|??]]; simplify_eq/=. done.
    + split; [by intros ?%elem_of_nil|].
      intros (Hl & Hh & Hla & _). destruct p as [|x [|??]]; simplify_eq/=.
  - rewrite list_elem_of_bind. split.
    + intros (x & (p' & -> & Hp')%list_elem_of_fmap & Hx).
      apply IH in Hp' as (Hl & Hh & Hla & Hw).
      destruct p' as [|y p']; [done|]. simpl in Hh. simplify_eq.
      split_and!; simpl; [simpl in Hl; lia|done|done|split; [done|exact Hw]].
    + intros (Hl & Hh & Hla & Hw). destruct p as [|x [|y p']]; simplify_eq/=.
      destruct Hw as [Hy Hw]. exists y. split; [|done].
      apply list_elem_of_fmap. exists (y :: p'). split; [done|].
      apply IH. done.
Qed.

(** Each once, when no neighbour is listed twice. *)
Lemma NoDup_walks k u w :
  (∀ v, NoDup (adj_get adj v)) → NoDup (walks adj k u w).
Proof.
  intros Hnd. revert u. induction k as [|k IH]; intros u; cbn [walks].
  - destruct (decide (u = w)); [apply NoDup_singleton|apply NoDup_nil_2].
  - apply NoDup_bind; [|intros x _; apply NoDup_fmap_2; [|apply IH]|apply Hnd].
    + intros x1 x2 p _ _ (p1 & -> & H1)%list_elem_of_fmap (p2 & E & H2)%list_elem_of_fmap.
      apply elem_of_walks in H1 as (_ & Hh1 & _). apply elem_of_walks in H2 as (_ & Hh2 & _).
      simplify_eq. congruence.
    + intros p1 p2 E. by simplify_eq.
Qed.

(** A pair of [unordered_pairs l] has its first member before its second
    in [l]. *)
Lemma elem_of_unordered_pairs l u w :
  (u, w) ∈ unordered_pairs l ↔ ∃ l1 l2 l3, l = l1 ++ u :: l2 ++ w :: l3.
Proof.
  induction l as [|x l IH]; cbn [unordered_pairs].
  - split; [by intros ?%elem_of_nil|]. intros (l1 & l2 & l3 & E). by destruct l1.
  - rewrite elem_of_app, IH, list_elem_of_fmap. split.
    + intros [(y & E & Hy)|(l1 & l2 & l3 & ->)].
      * simplify_eq. apply list_elem_of_split in Hy as (l2 & l3 & ->).
        by exists [], l2, l3.
      * by exists (x :: l1), l2, l3.
    + intros (l1 & l2 & l3 & E). destruct l1 as [|x' l1]; simplify_eq/=.
      * left. exists w. split; [done|]. apply elem_of_app. right. left.
      * right. by exists l1, l2, l3.
Qed.

(** Of two different nodes of a duplicate-free list, exactly one of the two
    ordered pairs is listed, and once. *)
Lemma unordered_pairs_members l u w :
  (u, w) ∈ unordered_pairs l → u ∈ l ∧ w ∈ l.
Proof.
  intros (l1 & l2 & l3 & ->)%elem_of_unordered_pairs.
  rewrite !elem_of_app, !elem_of_cons, !elem_of_app, !elem_of_cons. tauto.
Qed.

Lemma unordered_pairs_distinct l u w :
  NoDup l → (u, w) ∈ unordered_pairs l → u ≠ w ∧ (w, u) ∉ unordered_pairs l.
Proof.
  induction l as [|x l IH]; cbn [unordered_pairs]; intros Hnd Hin.
  { by apply elem_of_nil in Hin. }
  apply NoDup_cons in Hnd as [Hx Hnd].
  rewrite elem_of_app, list_elem_of_fmap in Hin. rewrite elem_of_app, list_elem_of_fmap.
  destruct Hin as [(y & E & Hy)|Hin].
  - simplify_eq. split; [by intros ->|].
    intros [(y' & E' & Hy')|Hin']; [by simplify_eq|].
    apply unordered_pairs_members in Hin' as [_ ?]. done.
  - destruct (IH Hnd Hin) as [Hne Hnot]. split; [done|].
    intros [(y & E & _)|Hin']; [|done]. simplify_eq.
    apply unordered_pairs_members in Hin as [_ ?]. done.
Qed.

Lemma unordered_pairs_total l u w :
  u ∈ l → w ∈ l → u ≠ w → (u, w) ∈ unordered_pairs l ∨ (w, u) ∈ unordered_pairs l.
Proof.
  induction l as [|x l IH]; cbn [unordered_pairs]; intros Hu Hw Hne.
  { by apply elem_of_nil in Hu. }
  rewrite !elem_of_app, !list_elem_of_fmap.
  apply elem_of_cons in Hu as [->|Hu]; apply elem_of_cons in Hw as [->|Hw].
  - done.
  - left. left. by exists w.
  - right. left. by exists u.
  - destruct (IH Hu Hw Hne); tauto.
Qed.

Lemma NoDup_unordered_pairs l : NoDup l → NoDup (unordered_pairs l).
Proof.
  induction l as [|x l IH]; cbn [unordered_pairs]; intros Hnd; [constructor|].
  apply NoDup_cons in Hnd as [Hx Hnd]. apply NoDup_app. split_and!.
  - apply NoDup_fmap_2; [|done]. intros y1 y2 E. by simplify_eq.
  - intros [u w] (y & E & _)%list_elem_of_fmap Hin. simplify_eq.
    apply unordered_pairs_members in Hin as [? _]. done.
  - by apply IH.
Qed.
End Enumerations.

(** * Bounds on the scores *)

Section QcOrder.
Local Open Scope Qc_scope.
Implicit Types (x y : Qc).

Lemma Qcinv_nonneg x : 0 ≤ x → 0 ≤ / x.
Proof.
  intros [Hx| <-]%Qcle_lt_or_eq.
  - by apply Qclt_le_weak, Qcinv_pos.
  - replace (/ 0) with 0 by (by apply Qc_is_canon). apply Qcle_refl.
Qed.

Lemma Qcdiv_nonneg x y : 0 ≤ x → 0 ≤ y → 0 ≤ x / y.
Proof. intros Hx Hy. apply Qcmult_nonneg_nonneg; [done|by apply Qcinv_nonneg]. Qed.

Lemma Qcdiv_le_1 x y : x ≤ y → 0 < y → x / y ≤ 1.
Proof.
  intros Hxy Hy. rewrite <- (Qcmult_inv_r y) by (by apply not_eq_sym, Qclt_not_eq).
  apply Qcmult_le_compat_r; [done|]. by apply Qclt_le_weak, Qcinv_pos.
Qed.

Lemma Qcmult_le_1 x y : 0 ≤ x → x ≤ 1 → y ≤ 1 → x * y ≤ 1.
Proof.
  intros Hx0 Hx1 Hy1. apply Qcle_trans with (x * 1).
  - by apply Qcmult_le_mono_nonneg_l.
  - by rewrite Qcmult_1_r.
Qed.

Lemma Qc_of_Z_nonneg (z : Z) : (0 ≤ z)%Z → 0 ≤ Qc_of_Z z.
Proof. intros Hz. rewrite <- Z2Qc_inj_0. by apply (proj1 (Z2Qc_inj_le 0 z)). Qed.

Lemma Qc_of_Z_pos (z : Z) : (0 < z)%Z → 0 < Qc_of_Z z.
Proof. intros Hz. rewrite <- Z2Qc_inj_0. by apply (proj1 (Z2Qc_inj_lt 0 z)). Qed.

Lemma Qc_of_Z_le (a b : Z) : (a ≤ b)%Z → Qc_of_Z a ≤ Qc_of_Z b.
Proof. apply Z2Qc_inj_le. Qed.
End QcOrder.

Lemma sumN_ge_length {A} (f : A → nat) (l : list A) :
  (∀ a, a ∈ l → (1 ≤ f a)%nat) → (length l ≤ sumN f l)%nat.
Proof.
  induction l as [|a l IH]; intros Hf; [done|]. rewrite big_cons. simpl.
  specialize (Hf a ltac:(left)) as Ha.
  specialize (IH ltac:(intros; apply Hf; by right)). lia.
Qed.

Lemma length_filter_ne {A} `{EqDecision A} (s : A) (l : list A) :
  NoDup l → (length l ≤ length (filter (λ w, w ≠ s) l) + 1)%nat.
Proof.
  induction l as [|a l IH]; intros Hnd; [simpl; lia|].
  apply NoDup_cons in Hnd as [Ha Hnd]. rewrite filter_cons.
  destruct (decide (a ≠ s)) as [Hne|Heq]; simpl.
  - specialize (IH Hnd). lia.
  - apply dec_stable in Heq. subst a.
    rewrite length_filter_all; [lia|]. intros w Hw ->. done.
Qed.

Section Bounds.
Context {Node : Type} `{EqDecision Node}.
Variable adj : dict Node (list Node).
Hypothesis Hwf : adj_wf adj.
Implicit Types (v s x : Node).

(** A node is not its own neighbour: at most [n - 1] neighbours. *)
Lemma degree_bound v :
  v ∈ keys adj → (length (adj_get adj v) + 1 ≤ length (keys adj))%nat.
Proof.
  intros Hv. change (length (adj_get adj v) + 1)%nat with (length (adj_get adj v) + length [v])%nat.
  rewrite <- length_app. apply NoDup_length_le.
  - apply NoDup_app. split_and!; [by apply wf_nodup| |apply NoDup_singleton].
    intros w Hw ->%list_elem_of_singleton. by apply wf_irrefl in Hw.
  - intros w [Hw| ->%list_elem_of_singleton]%elem_of_app; [by eapply wf_key_r|done].
Qed.

Lemma reachable_bound s : (length (reachable_from adj s) ≤ length (keys adj))%nat.
Proof. apply length_filter. Qed.

(** Every other reachable node is at least one hop away. *)
Lemma total_hops_bound s :
  (length (reachable_from adj s) ≤ total_hops adj s + 1)%nat.
Proof.
  unfold total_hops.
  pose proof (length_filter_ne s (reachable_from adj s)
                ltac:(apply NoDup_filter, Hwf)) as H1.
  assert (length (filter (λ w, w ≠ s) (reachable_from adj s))
          ≤ sumN (hops adj s) (filter (λ w, w ≠ s) (reachable_from adj s)))%nat; [|lia].
  apply sumN_ge_length. intros w [Hne [Hr _]%list_elem_of_filter]%list_elem_of_filter.
  destruct Hr as [k Hk]. unfold hops. rewrite Hk. simpl.
  destruct k; [|lia]. apply distance_0 in Hk; [|done]. congruence.
Qed.

Local Open Scope Qc_scope.

Lemma degree_spec_bounds v : v ∈ keys adj → 0 ≤ degree_spec adj v ∧ degree_spec adj v ≤ 1.
Proof.
  intros Hv. pose proof (degree_bound v Hv) as Hb. unfold degree_spec.
  destruct (Z.of_nat (length (keys adj)) <=? 1)%Z eqn:En.
  - rewrite Z2Qc_inj_0. done.
  - apply Z.leb_gt in En. split.
    + apply Qcdiv_nonneg; apply Qc_of_Z_nonneg; lia.
    + apply Qcdiv_le_1; [apply Qc_of_Z_le|apply Qc_of_Z_pos]; lia.
Qed.

Lemma closeness_spec_bounds wf_improved s :
  0 ≤ closeness_spec adj wf_improved s ∧ closeness_spec adj wf_improved s ≤ 1.
Proof.
  pose proof (reachable_bound s) as H1. pose proof (total_hops_bound s) as H2.
  unfold closeness_spec.
  destruct (_ || _) eqn:Eg; [rewrite Z2Qc_inj_0; done|].
  apply orb_false_iff in Eg as [Er%Z.leb_gt Et%Z.eqb_neq].
  assert (Hs : 0 ≤ Qc_of_Z (Z.of_nat (length (reachable_from adj s)) - 1)
                   / Qc_of_Z (Z.of_nat (total_hops adj s))
               ∧ Qc_of_Z (Z.of_nat (length (reachable_from adj s)) - 1)
                 / Qc_of_Z (Z.of_nat (total_hops adj s)) ≤ 1).
  { split.
    - apply Qcdiv_nonneg; apply Qc_of_Z_nonneg; lia.
    - apply Qcdiv_le_1; [apply Qc_of_Z_le|apply Qc_of_Z_pos]; lia. }
  destruct (wf_improved && _) eqn:Ew; [|done].
  apply andb_true_iff in Ew as [_ EN%Z.gtb_gt]. split.
  - apply Qcmult_nonneg_nonneg; [apply Hs|].
    apply Qcdiv_nonneg; apply Qc_of_Z_nonneg; lia.
  - apply Qcmult_le_1; [apply Hs..|].
    apply Qcdiv_le_1; [apply Qc_of_Z_le|apply Qc_of_Z_pos]; lia.
Qed.


End Bounds.

(** * The three results as score tables over the nodes of the graph *)

Section Scores.
Context {Node : Type} `{EqDecision Node}.
Implicit Types (edges : list (Node * Node)) (v w : Node) (r : dict Node Qc).

(** [r] has the nodes of [adj] as keys, in their order, and holds [val v]
    at every node [v]. *)
Definition is_scores (adj : dict Node (list Node)) (val : Node → Qc) r : Prop :=
  keys r = keys adj ∧ ∀ v, v ∈ keys adj → dget r v = Some (val v).

Lemma is_scores_dict_comp adj val :
  NoDup (keys adj) → is_scores adj val (dict_comp (keys adj) val).
Proof.
  intros Hnd. split; [by apply keys_dict_comp|].
  intros v Hv. by rewrite dget_dict_comp, decide_True.
Qed.

Lemma is_scores_lookup adj val r v c :
  is_scores adj val r → dget r v = Some c → v ∈ keys adj ∧ c = val v.
Proof.
  intros [Hk Hr] Hc. assert (Hv : v ∈ keys adj).
  { rewrite <- Hk. apply dget_is_Some. eauto. }
  split; [done|]. rewrite (Hr v Hv) in Hc. congruence.
Qed.


Lemma degree_centrality_scores edges :
  ∃ r, degree_centrality (FL:=rational) edges = Ok r
       ∧ is_scores (build_adj edges) (degree_spec (build_adj edges)) r.
Proof.
  eexists. split; [apply degree_centrality_run|].
  apply is_scores_dict_comp, NoDup_keys_build_adj.
Qed.

Lemma closeness_centrality_scores edges wf_improved :
  ∃ r, closeness_centrality (FL:=rational) edges wf_improved = Ok r
       ∧ is_scores (build_adj edges)
           (closeness_spec (build_adj edges) wf_improved) r.
Proof.
  eexists. split; [apply closeness_centrality_run|].
  apply is_scores_dict_comp, NoDup_keys_build_adj.
Qed.

Lemma betweenness_centrality_scores edges normalized :
  ∃ r, betweenness_centrality (FL:=rational) edges normalized = Ok r
       ∧ is_scores (build_adj edges)
           (brandes_value (build_adj edges) normalized) r.
Proof.
  destruct (betweenness_centrality_run edges normalized) as (r & E & Hk & Hr).
  by exists r.
Qed.



(** C10: every degree score and every closeness score is at most 1: a node
    has at most [n - 1] neighbours, the hop distances from a node add up to
    at least [reachable - 1], and [reachable] is at most the number of
    nodes. *)
Theorem degree_closeness_at_most_one edges wf_improved :
  let adj := build_adj edges in
  ∃ rd rc,
    degree_centrality (FL:=rational) edges = Ok rd
    ∧ closeness_centrality (FL:=rational) edges wf_improved = Ok rc
    ∧ (∀ v c, dget rd v = Some c → (c ≤ 1)%Qc)
    ∧ (∀ v c, dget rc v = Some c → (c ≤ 1)%Qc)
    ∧ ∀ v, v ∈ keys adj →
        (length (adj_get adj v) ≤ length (keys adj) - 1)%nat
        ∧ (length (reachable_from adj v) - 1 ≤ total_hops adj v)%nat
        ∧ (length (reachable_from adj v) ≤ length (keys adj))%nat.
Proof.
  intros adj. pose proof (build_adj_wf edges) as Hwf. fold adj in Hwf.
  destruct (degree_centrality_scores edges) as (rd & Ed & Hd).
  destruct (closeness_centrality_scores edges wf_improved) as (rc & Ec & Hc).
  exists rd, rc. split_and!; [done..| | |].
  - intros v c Hv. destruct (is_scores_lookup _ _ _ _ _ Hd Hv) as [Hk ->].
    by apply degree_spec_bounds.
  - intros v c Hv. destruct (is_scores_lookup _ _ _ _ _ Hc Hv) as [Hk ->].
    by apply closeness_spec_bounds.
  - intros v Hv. pose proof (degree_bound adj Hwf v Hv).
    pose proof (total_hops_bound adj Hwf v). pose proof (reachable_bound adj v).
    lia.
Qed.
End Scores.

(** * The scores depend on the graph only *)

Lemma bind_perm_ext {A B} (f g : A → list B) (l1 l2 : list A) :
  l1 ≡ₚ l2 → (∀ a, f a ≡ₚ g a) → l1 ≫= f ≡ₚ l2 ≫= g.
Proof.
  intros Hl Hfg. rewrite <- Hl. clear l2 Hl.
  induction l1 as [|a l IH]; [done|]. rewrite !bind_cons. by rewrite IH, (Hfg a).
Qed.

Lemma find_ext {A} (f g : A → bool) (l : list A) :
  (∀ a, f a = g a) → find f l = find g l.
Proof. intros Hfg. induction l as [|a l IH]; simpl; [done|]. by rewrite Hfg, IH. Qed.

Section Invariance.
Context {Node : Type} `{EqDecision Node}.
Implicit Types (edges : list (Node * Node)) (u v w x s t : Node)
  (adj : dict Node (list Node)).

(** Two adjacency tables of the same graph: the same nodes and the same
    neighbours, in any order. *)
Definition adj_equiv adj1 adj2 : Prop :=
  keys adj1 ≡ₚ keys adj2 ∧ ∀ v, adj_get adj1 v ≡ₚ adj_get adj2 v.

Section Equiv.
Variables adj1 adj2 : dict Node (list Node).
Hypothesis Heq : adj_equiv adj1 adj2.

Lemma walks_equiv k u w : walks adj1 k u w ≡ₚ walks adj2 k u w.
Proof.
  revert u. induction k as [|k IH]; intros u; [done|]. simpl.
  apply bind_perm_ext; [apply Heq|]. intros a. by rewrite IH.
Qed.

Lemma nwalks_equiv k u w : nwalks adj1 k u w = nwalks adj2 k u w.
Proof. unfold nwalks. by rewrite walks_equiv. Qed.

Lemma length_keys_equiv : length (keys adj1) = length (keys adj2).
Proof. by rewrite (proj1 Heq). Qed.

Lemma distance_equiv u w : distance adj1 u w = distance adj2 u w.
Proof.
  unfold distance. rewrite length_keys_equiv. apply find_ext.
  intros k. by rewrite nwalks_equiv.
Qed.

Lemma npaths_equiv u w : npaths adj1 u w = npaths adj2 u w.
Proof.
  unfold npaths, shortest_paths. rewrite distance_equiv.
  destruct (distance adj2 u w); [apply nwalks_equiv|done].
Qed.


Lemma reachable_from_equiv s : reachable_from adj1 s ≡ₚ reachable_from adj2 s.
Proof.
  unfold reachable_from. rewrite (proj1 Heq).
  rewrite (list_filter_iff _ (λ w, is_Some (distance adj2 s w))); [done|].
  intros w. by rewrite distance_equiv.
Qed.

Lemma total_hops_equiv s : total_hops adj1 s = total_hops adj2 s.
Proof.
  unfold total_hops. rewrite (sumN_perm _ _ (filter (λ w, w ≠ s) (reachable_from adj2 s))).
  - apply sumN_ext. intros w _. unfold hops. by rewrite distance_equiv.
  - by rewrite reachable_from_equiv.
Qed.


Lemma on_path_equiv s t x : on_path adj1 s t x ↔ on_path adj2 s t x.
Proof. unfold on_path. by rewrite !distance_equiv. Qed.

Lemma thru_equiv s t x : thru adj1 s t x = thru adj2 s t x.
Proof.
  unfold thru. rewrite !npaths_equiv.
  destruct (decide (on_path adj1 s t x)) as [H1|H1],
           (decide (on_path adj2 s t x)) as [H2|H2]; try done;
    apply on_path_equiv in H1 || apply on_path_equiv in H2; done.
Qed.

Lemma delta_spec_equiv s x : delta_spec adj1 s x = delta_spec adj2 s x.
Proof.
  unfold delta_spec. rewrite (sumQ_perm _ _ _ (proj1 Heq)).
  apply sumQ_ext. intros t _. unfold dep. by rewrite thru_equiv, npaths_equiv.
Qed.

Lemma dependency_sum_equiv x : dependency_sum adj1 x = dependency_sum adj2 x.
Proof.
  unfold dependency_sum. rewrite (sumQ_perm _ _ _ (proj1 Heq)).
  apply sumQ_ext. intros s _. by rewrite delta_spec_equiv.
Qed.

Lemma brandes_value_equiv normalized x :
  brandes_value adj1 normalized x = brandes_value adj2 normalized x.
Proof. unfold brandes_value. by rewrite length_keys_equiv, dependency_sum_equiv. Qed.
End Equiv.
End Invariance.

Section SameGraph.
Context {Node : Type} `{EqDecision Node}.
Implicit Types (edges : list (Node * Node)) (u v w : Node).

(** Two edge sequences with the same unordered pairs of distinct nodes. *)
Definition same_graph edges1 edges2 : Prop :=
  ∀ u v, u ≠ v →
    ((u, v) ∈ edges1 ∨ (v, u) ∈ edges1) ↔ ((u, v) ∈ edges2 ∨ (v, u) ∈ edges2).

(** Equality of two result dicts as Python's [==] decides it: the same
    keys with the same values, whatever the insertion order. *)
Definition dict_eq {V} (r1 r2 : dict Node V) : Prop := ∀ v, dget r1 v = dget r2 v.

(** Reordering keeps the graph. *)
Lemma same_graph_perm edges1 edges2 : edges1 ≡ₚ edges2 → same_graph edges1 edges2.
Proof. intros Hp u v _. by rewrite Hp. Qed.

(** So does adding self-loops and copies of edges already there, in
    either orientation and any number. *)
Lemma same_graph_extend edges extra :
  (∀ u v, (u, v) ∈ extra → u = v ∨ (u, v) ∈ edges ∨ (v, u) ∈ edges) →
  same_graph edges (edges ++ extra).
Proof.
  intros Hx u v Hne. rewrite !elem_of_app. split; [tauto|].
  intros [[?|He]|[?|He]]; auto; apply Hx in He as [?|[?|?]]; auto; congruence.
Qed.

Lemma same_graph_sym edges1 edges2 : same_graph edges1 edges2 → same_graph edges2 edges1.
Proof. intros Hs u v Hne. symmetry. by apply Hs. Qed.

Lemma same_graph_trans edges1 edges2 edges3 :
  same_graph edges1 edges2 → same_graph edges2 edges3 → same_graph edges1 edges3.
Proof. intros H1 H2 u v Hne. rewrite (H1 u v Hne). by apply H2. Qed.

Lemma build_adj_equiv edges1 edges2 :
  same_graph edges1 edges2 → adj_equiv (build_adj edges1) (build_adj edges2).
Proof.
  intros Hs. split.
  - apply NoDup_Permutation; [apply NoDup_keys_build_adj..|].
    intros v. rewrite !build_adj_keys. split; intros (w & Hne & Hw); exists w;
      (split; [done|]); by apply (Hs v w Hne).
  - intros v. apply NoDup_Permutation; [apply NoDup_adj_get_build_adj..|].
    intros w. rewrite !build_adj_edge. split; intros [Hne Hw];
      (split; [done|]); by apply (Hs v w Hne).
Qed.

Lemma is_scores_equiv adj1 adj2 val1 val2 (r1 r2 : dict Node Qc) :
  adj_equiv adj1 adj2 → (∀ v, val1 v = val2 v) →
  is_scores adj1 val1 r1 → is_scores adj2 val2 r2 → dict_eq r1 r2.
Proof.
  intros [Hk _] Hval [Hk1 Hr1] [Hk2 Hr2] v.
  destruct (decide (v ∈ keys adj1)) as [Hv|Hv].
  - rewrite (Hr1 v Hv), Hval. symmetry. apply Hr2. by rewrite <- Hk.
  - rewrite (proj2 (dget_None r1 v)), (proj2 (dget_None r2 v)); [done| |].
    + rewrite Hk2, <- Hk. done.
    + by rewrite Hk1.
Qed.

End SameGraph.

(** * Degree and closeness in any arithmetic

    Both functions count with ints and only divide at the end, so what
    they return is a function of the graph whatever the arithmetic. *)

Section AnyArithmetic.
Context {Node : Type} `{EqDecision Node} {F : Type} {FL : PyFloat F}.
Implicit Types (edges : list (Node * Node)) (v s : Node)
  (adj : dict Node (list Node)).

(** Two outcomes that a caller cannot tell apart: equal dicts, or the same
    exception. *)
Definition res_dict_eq {V} (x y : res (dict Node V)) : Prop :=
  match x, y with
  | Ok r1, Ok r2 => dict_eq r1 r2
  | Raise a, Raise b => a = b
  | _, _ => False
  end.

Lemma dict_comp_equiv {V} (f g : Node → V) (l1 l2 : list Node) :
  l1 ≡ₚ l2 → (∀ v, f v = g v) → dict_eq (dict_comp l1 f) (dict_comp l2 g).
Proof.
  intros Hl Hfg v. rewrite !dget_dict_comp, Hfg.
  destruct (decide (v ∈ l1)) as [H1|H1], (decide (v ∈ l2)) as [H2|H2]; try done;
    rewrite Hl in H1; done.
Qed.

Lemma dict_compM_raise {V} (e : exn) (l : list Node) :
  l ≠ [] → dict_compM (V:=V) l (λ _, Raise e) = Raise e.
Proof. by destruct l. Qed.

Lemma degree_centrality_equiv edges1 edges2 :
  same_graph edges1 edges2 →
  res_dict_eq (degree_centrality (FL:=FL) edges1) (degree_centrality (FL:=FL) edges2).
Proof.
  intros [Hk Hn]%build_adj_equiv. unfold degree_centrality.
  rewrite <- (Permutation_length Hk).
  destruct (_ <=? 1) eqn:En; [by apply dict_comp_equiv|]. apply Z.leb_gt in En.
  unfold fdiv. destruct (is_zero _).
  - rewrite !dict_compM_raise; [done|intros E..].
    + rewrite (Permutation_length Hk), E in En. simpl in En. lia.
    + rewrite E in En. simpl in En. lia.
  - rewrite !(dict_compM_pure _ _ (λ v, fquot _ _)) by done.
    apply dict_comp_equiv; [done|]. intros v. by rewrite (Hn v).
Qed.

(** The closeness of [s], from the graph. *)
Definition closeness_value adj (wf_improved : bool) s : F :=
  let reachable := Z.of_nat (length (reachable_from adj s)) in
  let total := Z.of_nat (total_hops adj s) in
  let N := Z.of_nat (length (keys adj)) in
  if (reachable <=? 1) || (total =? 0) then of_int 0
  else
    let score := fquot (of_int (reachable - 1)) (of_int total) in
    if wf_improved && (N >? 1)
    then fmul score (fquot (of_int (reachable - 1)) (of_int (N - 1)))
    else score.

Lemma cl_score_value adj wf_improved (C : dict Node F) s :
  adj_wf adj → s ∈ keys adj →
  cl_score (FL:=FL) adj (S (length (keys adj))) (Z.of_nat (length (keys adj)))
           wf_improved C s
  = Ok (dset C s (closeness_value adj wf_improved s)).
Proof.
  intros Hwf Hs. unfold cl_score. rewrite bfs_sum_dist_run by done.
  cbn [mbind res_bind]. unfold closeness_value.
  destruct (_ || _) eqn:Eg; [done|].
  apply orb_false_iff in Eg as [_ Et]. unfold int_div. rewrite Et.
  cbn [mbind res_bind].
  destruct (wf_improved && _) eqn:Ew; [|done].
  apply andb_true_iff in Ew as [_ EN%Z.gtb_gt].
  by rewrite (proj2 (Z.eqb_neq _ 0)) by lia.
Qed.

Lemma closeness_centrality_value edges wf_improved :
  closeness_centrality (FL:=FL) edges wf_improved
  = Ok (dict_comp (keys (build_adj edges))
          (closeness_value (build_adj edges) wf_improved)).
Proof.
  unfold closeness_centrality.
  destruct (Z.of_nat (length (keys (build_adj edges))) =? 0) eqn:En.
  - apply Z.eqb_eq in En. destruct (keys (build_adj edges)); [done|simpl in En; lia].
  - unfold dict_comp. apply foldM_pure. intros C s Hs.
    apply cl_score_value; [apply build_adj_wf|done].
Qed.

Lemma closeness_value_equiv adj1 adj2 wf_improved s :
  adj_equiv adj1 adj2 →
  closeness_value adj1 wf_improved s = closeness_value adj2 wf_improved s.
Proof.
  intros Heq. unfold closeness_value.
  rewrite (total_hops_equiv adj1 adj2 Heq), (length_keys_equiv adj1 adj2 Heq).
  by rewrite (Permutation_length (reachable_from_equiv adj1 adj2 Heq s)).
Qed.

Lemma closeness_centrality_equiv edges1 edges2 wf_improved :
  same_graph edges1 edges2 →
  res_dict_eq (closeness_centrality (FL:=FL) edges1 wf_improved)
              (closeness_centrality (FL:=FL) edges2 wf_improved).
Proof.
  intros Heq%build_adj_equiv. rewrite !closeness_centrality_value.
  apply dict_comp_equiv; [apply Heq|]. intros v. by apply closeness_value_equiv.
Qed.
End AnyArithmetic.

(** * Reordering the edges *)

(** C7, as the code has it: two edge sequences with the same unordered
    pairs of distinct nodes (one a reordering of the other, or with edges
    repeated in either orientation, or with self-loops added) get equal
    score mappings from [degree_centrality] and, for either [wf_improved],
    from [closeness_centrality], in any arithmetic; from
    [betweenness_centrality], for either [normalized], they get mappings
    with the same keys whose scores are equal in exact arithmetic. *)
Theorem centrality_same_graph {Node : Type} `{EqDecision Node}
    {F : Type} {FL : PyFloat F}
    (edges1 edges2 : list (Node * Node)) (wf_improved normalized : bool) :
  same_graph edges1 edges2 →
  res_dict_eq (degree_centrality (FL:=FL) edges1)
              (degree_centrality (FL:=FL) edges2)
  ∧ (∃ r1 r2, closeness_centrality (FL:=FL) edges1 wf_improved = Ok r1
              ∧ closeness_centrality (FL:=FL) edges2 wf_improved = Ok r2
              ∧ dict_eq r1 r2)
  ∧ (∃ r1 r2, betweenness_centrality (FL:=rational) edges1 normalized = Ok r1
              ∧ betweenness_centrality (FL:=rational) edges2 normalized = Ok r2
              ∧ keys r1 ≡ₚ keys r2
              ∧ dict_eq r1 r2).
Proof.
  intros Hs. split_and!.
  - by apply degree_centrality_equiv.
  - pose proof (closeness_centrality_equiv edges1 edges2 wf_improved Hs) as Hc.
    rewrite !closeness_centrality_value in Hc.
    do 2 eexists. split_and!; [apply closeness_centrality_value..|done].
  - apply build_adj_equiv in Hs.
    destruct (betweenness_centrality_scores edges1 normalized) as (r1 & E1 & H1).
    destruct (betweenness_centrality_scores edges2 normalized) as (r2 & E2 & H2).
    exists r1, r2. split_and!; [done..| |].
    + rewrite (proj1 H1), (proj1 H2). apply Hs.
    + eapply is_scores_equiv; [done| |done..]. intros v. by apply brandes_value_equiv.
Qed.

(** The edges of one graph on six nodes, in two orders. Every node gets
    its neighbours in the same order from both; the nodes first appear in
    the order 0, 3, 4, 5, 1, 2 in the first and 0, 3, 1, 2, 4, 5 in the
    second. *)
Definition order_a : list (nat * nat) :=
  [(0, 3); (0, 4); (0, 5); (1, 3); (1, 5); (2, 3); (2, 4)]%nat.
Definition order_b : list (nat * nat) :=
  [(0, 3); (1, 3); (2, 3); (0, 4); (2, 4); (0, 5); (1, 5)]%nat.

Example order_adjacency :
  build_adj order_a
  = [(0, [3; 4; 5]); (3, [0; 1; 2]); (4, [0; 2]); (5, [0; 1]);
     (1, [3; 5]); (2, [3; 4])]%nat
  ∧ build_adj order_b
    = [(0, [3; 4; 5]); (3, [0; 1; 2]); (1, [3; 5]); (2, [3; 4]);
       (4, [0; 2]); (5, [0; 1])]%nat.
Proof. split; reflexivity. Qed.

(** What the passes from the sources other than node 0 add to [Cb[0]]. *)
Example order_contributions :
  (λ s, source_pass (FL:=binary64) (build_adj order_a) (keys (build_adj order_a))
          (dict_comp (keys (build_adj order_a)) (λ _, 0%float)) s
        ≫= λ Cb, getitem Cb 0%nat) <$> [3; 4; 5; 1; 2]%nat
  = Ok <$> [1; 2.1666666666666665; 2.1666666666666665;
            0.66666666666666663; 0.66666666666666663]%float.
Proof. vm_compute. reflexivity. Qed.

(** In binary64 the sum of these five depends on the order:
    [Cb[0]] ends at [6.666666666666667] on [order_a] and at
    [6.6666666666666661] on [order_b], and [betweenness_centrality]
    returns two dicts that differ at node 0 (and at node 3). *)
Lemma betweenness_binary64_order_dependent :
  order_a ≡ₚ order_b
  ∧ same_graph order_a order_b
  ∧ ∃ r1 r2,
      betweenness_centrality (FL:=binary64) order_a false = Ok r1
      ∧ betweenness_centrality (FL:=binary64) order_b false = Ok r2
      ∧ dget r1 0%nat = Some 3.3333333333333335%float
      ∧ dget r2 0%nat = Some 3.333333333333333%float
      ∧ PrimFloat.eqb 3.3333333333333335 3.333333333333333 = false
      ∧ ¬ dict_eq r1 r2.
Proof.
  assert (Hp : order_a ≡ₚ order_b).
  { apply (bool_decide_unpack _). vm_compute. exact I. }
  split_and!; [done|by apply same_graph_perm|].
  do 2 eexists. split_and!; [vm_compute; reflexivity..| |].
  - vm_compute. reflexivity.
  - intros Hd. specialize (Hd 0%nat).
    apply (f_equal (λ o, from_option (PrimFloat.eqb 3.3333333333333335) false o)) in Hd.
    vm_compute in Hd. discriminate.
Qed.

(** C7 at two sequences for one path on three nodes. *)
Lemma centrality_same_graph_witness :
  same_graph [(1, 2); (2, 3)]%nat [(3, 2); (2, 2); (2, 1); (1, 2)]%nat
  ∧ res_dict_eq (degree_centrality (FL:=binary64) [(1, 2); (2, 3)]%nat)
                (degree_centrality (FL:=binary64) [(3, 2); (2, 2); (2, 1); (1, 2)]%nat)
  ∧ (∃ r1 r2, closeness_centrality (FL:=binary64) [(1, 2); (2, 3)]%nat true = Ok r1
              ∧ closeness_centrality (FL:=binary64)
                  [(3, 2); (2, 2); (2, 1); (1, 2)]%nat true = Ok r2
              ∧ dict_eq r1 r2)
  ∧ (∃ r1 r2, betweenness_centrality (FL:=rational) [(1, 2); (2, 3)]%nat true = Ok r1
              ∧ betweenness_centrality (FL:=rational)
                  [(3, 2); (2, 2); (2, 1); (1, 2)]%nat true = Ok r2
              ∧ keys r1 ≡ₚ keys r2
              ∧ dict_eq r1 r2).
Proof.
  assert (Hs : same_graph [(1, 2); (2, 3)]%nat [(3, 2); (2, 2); (2, 1); (1, 2)]%nat).
  { intros u v Hne. rewrite !elem_of_cons, !elem_of_nil. naive_solver. }
  split; [exact Hs|].
  exact (centrality_same_graph [(1, 2); (2, 3)]%nat
           [(3, 2); (2, 2); (2, 1); (1, 2)]%nat true true Hs).
Defined.

(** * The documented example of 媒介中心性.py *)

Section Golden.
Local Open Scope string_scope.

(** [edges1] of the source: 24 edges on the 19 nodes [A] to [S]. *)
Definition edges1 : list (string * string) := [
  ("A", "B"); ("A", "C"); ("B", "C"); ("B", "D"); ("C", "E"); ("D", "E");
  ("F", "G"); ("F", "H"); ("G", "H"); ("G", "I"); ("H", "J"); ("I", "J");
  ("K", "L"); ("K", "M"); ("L", "M"); ("L", "N"); ("M", "O"); ("N", "O");
  ("E", "F"); ("J", "K");
  ("A", "P"); ("C", "Q"); ("L", "R"); ("N", "S")].

(** The output the source documents for it, digit by digit. *)
Definition golden : list (string * Q) := [
  ("A", 0.11111111111111112); ("B", 0.0196078431372549);
  ("C", 0.3235294117647059); ("D", 0.042483660130718956);
  ("E", 0.477124183006536); ("F", 0.5032679738562091);
  ("G", 0.05555555555555556); ("H", 0.4444444444444445);
  ("I", 0.026143790849673203); ("J", 0.5065359477124183);
  ("K", 0.47058823529411764); ("L", 0.28758169934640526);
  ("M", 0.09150326797385622); ("N", 0.11764705882352941);
  ("O", 0.006535947712418301);
  ("P", 0.0); ("Q", 0.0); ("R", 0.0); ("S", 0.0)]%Q.

(** The rational number a double stands for. *)
Definition float_to_Q (x : float) : option Q :=
  match Prim2SF x with
  | S754_zero _ => Some 0%Q
  | S754_finite s m e =>
      Some ((if s then -1 else 1) * inject_Z (Zpos m) * Qpower 2 e)%Q
  | _ => None
  end.

Definition tolerance : Q := 0.000000001%Q.

Definition close (x g : Q) : bool := Qle_bool (Qabs (x - g)) tolerance.

(** Entry by entry: the same key, and a score within [tolerance] of the
    documented one. *)
Fixpoint all_close {V} (to_Q : V → option Q)
    (r : list (string * V)) (g : list (string * Q)) : bool :=
  match r, g with
  | [], [] => true
  | (k, x) :: r', (k', y) :: g' =>
      bool_decide (k = k')
      && from_option (λ q, close q y) false (to_Q x)
      && all_close to_Q r' g'
  | _, _ => false
  end.

Lemma close_spec x g : close x g = true ↔ (Qabs (x - g) <= tolerance)%Q.
Proof. apply Qle_bool_iff. Qed.

Lemma all_close_spec {V} (to_Q : V → option Q) r g :
  all_close to_Q r g = true ↔
  Forall2 (λ kx ky, kx.1 = ky.1
             ∧ ∃ q, to_Q kx.2 = Some q ∧ (Qabs (q - ky.2) <= tolerance)%Q) r g.
Proof.
  revert g. induction r as [|[k x] r IH]; intros [|[k' y] g]; simpl.
  - split; [constructor|done].
  - split; [done|inversion 1].
  - split; [done|inversion 1].
  - rewrite !andb_true_iff, bool_decide_eq_true, IH, Forall2_cons. simpl.
    destruct (to_Q x) as [q|]; simpl.
    + rewrite close_spec. naive_solver.
    + naive_solver.
Qed.
End Golden.

(** C4: on [edges1], 24 edges on 19 nodes, [betweenness_centrality] with
    [normalized=True] returns, in binary64, a score within [1e-9] of the
    documented one for every node, [0.5032679738562091] for [F],
    [0.5065359477124183] for [J] and exactly [0.0] for the four pendant
    nodes [P], [Q], [R] and [S]; the scores of exact arithmetic are within
    [1e-9] of the documented ones too, and exactly 0 at the pendant
    nodes. *)
Theorem betweenness_edges1_golden :
  length edges1 = 24%nat
  ∧ length (keys (build_adj edges1)) = 19%nat
  ∧ (∃ r, betweenness_centrality (FL:=binary64) edges1 true = Ok r
          ∧ Forall2 (λ kx ky, kx.1 = ky.1
                       ∧ ∃ q, float_to_Q kx.2 = Some q
                              ∧ (Qabs (q - ky.2) <= tolerance)%Q) r golden
          ∧ dget r "F"%string = Some 0.5032679738562091%float
          ∧ dget r "J"%string = Some 0.5065359477124183%float
          ∧ ∀ v, v ∈ ["P"; "Q"; "R"; "S"]%string → dget r v = Some 0%float)
  ∧ (∃ r, betweenness_centrality (FL:=rational) edges1 true = Ok r
          ∧ Forall2 (λ kx ky, kx.1 = ky.1
                       ∧ ∃ q, Some (this kx.2) = Some q
                              ∧ (Qabs (q - ky.2) <= tolerance)%Q) r golden
          ∧ ∀ v, v ∈ ["P"; "Q"; "R"; "S"]%string → dget r v = Some 0%Qc).
Proof.
  split_and!; [reflexivity|vm_compute; reflexivity| |].
  - eexists. split_and!; [vm_compute; reflexivity| |vm_compute; reflexivity..|].
    + apply all_close_spec. vm_compute. reflexivity.
    + intros v Hv. repeat (apply elem_of_cons in Hv as [->|Hv]; [vm_compute; reflexivity|]).
      by apply elem_of_nil in Hv.
  - eexists. split_and!; [vm_compute; reflexivity| |].
    + apply (all_close_spec (λ x, Some (this x))). vm_compute. reflexivity.
    + intros v Hv.
      repeat (apply elem_of_cons in Hv as [->|Hv];
              [vm_compute; f_equal; by apply Qc_is_canon|]).
      by apply elem_of_nil in Hv.
Qed.

(** * What the construction loop does with any list

    The functions above take a list of pairs of nodes with a decidable
    equality: what Python calls a list of 2-tuples of hashable values.
    Python accepts any list.  Here are the values that tell the cases
    apart, and the loop
    [for u, v in edges: if u == v: continue; adj[u].add(v); adj[v].add(u)]
    on them. *)

(** Values: ints and strings, which are hashable, and lists of ints, which
    are not. *)
Inductive value :=
  | VInt (z : Z)
  | VStr (s : string)
  | VList (l : list Z).

Global Instance value_eq_dec : EqDecision value.
Proof. solve_decision. Defined.

Definition hashable (v : value) : bool :=
  match v with
  | VList _ => false
  | _ => true
  end.

(** The elements of the edge list: a tuple of values, of any length, or
    something that is not iterable (an int, say). *)
Inductive element :=
  | Tuple (items : list value)
  | NotIterable (z : Z).

(** [u, v = e]: a tuple of another length raises [ValueError], a value
    that cannot be iterated [TypeError]. *)
Definition unpack (e : element) : res (value * value) :=
  match e with
  | Tuple [u; v] => Ok (u, v)
  | Tuple _ => Raise ValueError
  | NotIterable _ => Raise TypeError
  end.

(** [hash(v)], which [adj[v]] and [.add(v)] call. *)
Definition hash_check (v : value) : res unit :=
  if hashable v then Ok () else Raise TypeError.

(** One turn of the loop.  The comparison [u == v] comes first: the members
    of a self-loop are never hashed. *)
Definition construct_step (adj : dict value (list value)) (e : element)
  : res (dict value (list value)) :=
  '(u, v) ← unpack e;
  if decide (u = v) then Ok adj
  else
    _ ← hash_check u;
    _ ← hash_check v;
    Ok (add_edge adj (u, v)).

Definition construct (edges : list element) : res (dict value (list value)) :=
  foldM construct_step [] edges.

(** The elements that are pairs, as pairs. *)
Definition pairs_of (edges : list element) : list (value * value) :=
  omap (λ e, match e with Tuple [u; v] => Some (u, v) | _ => None end) edges.

Section Construction.
Context {F : Type} {FL : PyFloat F}.
Implicit Types (edges : list element) (e : element) (u v : value)
  (adj : dict value (list value)).

(** The three functions on any list: the loop, with its checks, and then
    what the function does with the adjacency structure, which is that of
    the pairs ([construct_build_adj] below). *)
Definition degree_centrality_py edges : res (dict value F) :=
  _ ← construct edges; degree_centrality (FL:=FL) (pairs_of edges).

Definition closeness_centrality_py edges (wf_improved : bool) : res (dict value F) :=
  _ ← construct edges; closeness_centrality (FL:=FL) (pairs_of edges) wf_improved.

Definition betweenness_centrality_py edges (normalized : bool) : res (dict value F) :=
  _ ← construct edges; betweenness_centrality (FL:=FL) (pairs_of edges) normalized.

(** An element on which the loop stops: it does not unpack into two
    values, or its two values differ and one of them is not hashable. *)
Definition offends e : Prop :=
  match unpack e with
  | Ok (u, v) => u ≠ v ∧ (hashable u = false ∨ hashable v = false)
  | _ => True
  end.

Global Instance offends_dec e : Decision (offends e).
Proof. unfold offends. destruct (unpack e) as [[u v]| |]; apply _. Defined.

Lemma construct_fold edges adj0 adj :
  foldM construct_step adj0 edges = Ok adj →
  adj = foldl add_edge adj0 (pairs_of edges).
Proof.
  revert adj0. induction edges as [|e edges IH]; intros adj0 E.
  { simpl in *. congruence. }
  cbn [foldM] in E. apply bind_Ok in E as (adj1 & E1 & E). apply IH in E as ->.
  clear IH. unfold construct_step in E1.
  destruct e as [[|u [|v [|]]]|]; try discriminate.
  change (pairs_of (Tuple [u; v] :: edges)) with ((u, v) :: pairs_of edges).
  cbn [foldl]. cbn [unpack mbind res_bind] in E1.
  destruct (decide (u = v)) as [->|Hne].
  - injection E1 as <-. f_equal. unfold add_edge. by rewrite decide_True.
  - unfold hash_check in E1. destruct (hashable u), (hashable v); try discriminate.
    simpl in E1. by injection E1 as <-.
Qed.

(** When the loop ends, it has built the adjacency structure of the
    pairs. *)
Lemma construct_build_adj edges adj :
  construct edges = Ok adj → adj = build_adj (pairs_of edges).
Proof. apply construct_fold. Qed.

Lemma construct_step_offends adj e :
  offends e →
  ∃ ex, (ex = TypeError ∨ ex = ValueError) ∧ construct_step adj e = Raise ex.
Proof.
  unfold offends, construct_step.
  destruct e as [[|u [|v [|]]]|]; simpl; try (intros _; eauto; fail).
  intros [Hne Hh]. rewrite decide_False by done. unfold hash_check.
  exists TypeError. split; [by left|].
  destruct Hh as [-> | ->]; [done|]. by destruct (hashable u).
Qed.

Lemma construct_step_passes adj e :
  ¬ offends e → ∃ adj', construct_step adj e = Ok adj'.
Proof.
  unfold offends, construct_step.
  destruct e as [[|u [|v [|]]]|]; simpl; try (intros []; done).
  intros Hn. destruct (decide (u = v)) as [->|Hne]; [eauto|].
  unfold hash_check.
  destruct (hashable u) eqn:Hu; [|destruct Hn; auto].
  destruct (hashable v) eqn:Hv; [|destruct Hn; auto].
  simpl. eauto.
Qed.

Lemma construct_raises edges adj0 :
  (∃ e, e ∈ edges ∧ offends e) →
  ∃ ex, (ex = TypeError ∨ ex = ValueError)
        ∧ foldM construct_step adj0 edges = Raise ex.
Proof.
  revert adj0. induction edges as [|e edges IH]; intros adj0 (e' & Hin & Ho).
  { by apply elem_of_nil in Hin. }
  simpl. destruct (decide (offends e)) as [He|He].
  - destruct (construct_step_offends adj0 e He) as (ex & Hex & ->). by exists ex.
  - destruct (construct_step_passes adj0 e He) as (adj' & ->). simpl.
    apply IH. exists e'. split; [|done].
    apply elem_of_cons in Hin as [->|Hin]; [done|done].
Qed.

Lemma construct_passes edges adj0 :
  (∀ e, e ∈ edges → ¬ offends e) → ∃ adj, foldM construct_step adj0 edges = Ok adj.
Proof.
  revert adj0. induction edges as [|e edges IH]; intros adj0 Hall; simpl; [eauto|].
  destruct (construct_step_passes adj0 e) as (adj' & ->); [apply Hall; left|].
  simpl. apply IH. intros e' He'. apply Hall. by right.
Qed.
End Construction.

(** Without such an element the loop ends, and each function returns what
    it returns on the pairs. *)
Lemma construction_passes {F : Type} {FL : PyFloat F}
    (edges : list element) (wf_improved normalized : bool) :
  (∀ e, e ∈ edges → ¬ offends e) →
  construct edges = Ok (build_adj (pairs_of edges))
  ∧ degree_centrality_py (FL:=FL) edges = degree_centrality (pairs_of edges)
  ∧ closeness_centrality_py (FL:=FL) edges wf_improved
    = closeness_centrality (pairs_of edges) wf_improved
  ∧ betweenness_centrality_py (FL:=FL) edges normalized
    = betweenness_centrality (pairs_of edges) normalized.
Proof.
  intros Hall. destruct (construct_passes edges [] Hall) as (adj & E).
  fold (construct edges) in E.
  unfold degree_centrality_py, closeness_centrality_py, betweenness_centrality_py.
  rewrite E. split_and!; try done. by rewrite (construct_build_adj edges adj E) at 1.
Qed.

(** C6, as the code has it: when some element of the edge list does not
    unpack into two values, or is a pair of two different values one of
    which is not hashable, the construction loop raises Python's
    [TypeError] or [ValueError], and so does each of
    [degree_centrality], [closeness_centrality] and
    [betweenness_centrality], which returns no result. *)
Theorem construction_errors {F : Type} {FL : PyFloat F}
    (edges : list element) (wf_improved normalized : bool) :
  (∃ e, e ∈ edges ∧ offends e) →
  ∃ ex, (ex = TypeError ∨ ex = ValueError)
        ∧ construct edges = Raise ex
        ∧ degree_centrality_py (FL:=FL) edges = Raise ex
        ∧ closeness_centrality_py (FL:=FL) edges wf_improved = Raise ex
        ∧ betweenness_centrality_py (FL:=FL) edges normalized = Raise ex.
Proof.
  intros Ho. destruct (construct_raises edges [] Ho) as (ex & Hex & E).
  fold (construct edges) in E. exists ex.
  unfold degree_centrality_py, closeness_centrality_py, betweenness_centrality_py.
  rewrite E. done.
Qed.

(** A tuple of one value after a good pair: [ValueError]. *)
Definition short_tuple : list element :=
  [Tuple [VInt 1; VInt 2]; Tuple [VInt 3]].

Lemma construction_errors_witness :
  (∃ e, e ∈ short_tuple ∧ offends e)
  ∧ ∃ ex, (ex = TypeError ∨ ex = ValueError)
          ∧ construct short_tuple = Raise ex
          ∧ degree_centrality_py (FL:=binary64) short_tuple = Raise ex
          ∧ closeness_centrality_py (FL:=binary64) short_tuple true = Raise ex
          ∧ betweenness_centrality_py (FL:=binary64) short_tuple true = Raise ex.
Proof.
  assert (Ho : ∃ e, e ∈ short_tuple ∧ offends e).
  { exists (Tuple [VInt 3]). split; [|exact I]. right. left. }
  split; [exact Ho|].
  exact (construction_errors (FL:=binary64) short_tuple true true Ho).
Defined.

Example short_tuple_raises :
  degree_centrality_py (FL:=binary64) short_tuple = Raise ValueError
  ∧ degree_centrality_py (FL:=binary64) [Tuple [VInt 1; VList [2]]] = Raise TypeError
  ∧ degree_centrality_py (FL:=binary64) [NotIterable 7] = Raise TypeError.
Proof. split_and!; reflexivity. Qed.

(** A self-loop of two equal lists: its members are not hashable, and
    nothing is raised, since the loop skips the pair before it hashes
    them.  Each function returns the empty dict. *)
Definition unhashable_self_loop : list element :=
  [Tuple [VList [1]; VList [1]]].

Lemma unhashable_self_loop_accepted :
  (∃ u v, Tuple [u; v] ∈ unhashable_self_loop
          ∧ hashable u = false ∧ hashable v = false)
  ∧ construct unhashable_self_loop = Ok []
  ∧ degree_centrality_py (FL:=binary64) unhashable_self_loop = Ok []
  ∧ closeness_centrality_py (FL:=binary64) unhashable_self_loop true = Ok []
  ∧ closeness_centrality_py (FL:=binary64) unhashable_self_loop false = Ok []
  ∧ betweenness_centrality_py (FL:=binary64) unhashable_self_loop true = Ok []
  ∧ betweenness_centrality_py (FL:=binary64) unhashable_self_loop false = Ok [].
Proof.
  split_and!; try reflexivity.
  exists (VList [1]), (VList [1]). split_and!; [left|done..].
Qed.

(** * More on the three centralities *)

Section MoreCentrality.
Context {Node : Type} `{EqDecision Node}.
Implicit Types (edges : list (Node * Node)) (u v w s t x : Node)
  (adj : dict Node (list Node)).
Local Notation "# n" := (Qc_of_Z (Z.of_nat n)) (at level 5, format "# n").

(** X1: the construction loop of the three functions builds a simple
    undirected graph: every node and every neighbour is listed once, [w]
    is a neighbour of [v] exactly when they differ and some edge joins
    them in either orientation, the relation is symmetric, no node is its
    own neighbour, and the keys are the nodes that have a neighbour. *)
Theorem adjacency_structure edges :
  let adj := build_adj edges in
  NoDup (keys adj)
  ∧ (∀ v, NoDup (adj_get adj v))
  ∧ (∀ v w, w ∈ adj_get adj v ↔ v ≠ w ∧ ((v, w) ∈ edges ∨ (w, v) ∈ edges))
  ∧ (∀ v w, w ∈ adj_get adj v → v ∈ adj_get adj w)
  ∧ (∀ v, v ∉ adj_get adj v)
  ∧ (∀ v, v ∈ keys adj ↔ adj_get adj v ≠ []).
Proof.
  intros adj. pose proof (build_adj_wf edges) as Hwf. fold adj in Hwf.
  split_and!; [apply Hwf..| |apply Hwf|apply Hwf|].
  - intros v w. apply build_adj_edge.
  - intros v. split; [apply Hwf|].
    intros Hne. destruct (adj_get adj v) as [|w l] eqn:E; [done|].
    apply (wf_key adj Hwf v w). rewrite E. left.
Qed.

Lemma Qcdiv_pos (x y : Qc) : (0 < x → 0 < y → 0 < x / y)%Qc.
Proof. intros Hx Hy. apply Qcmult_pos_pos; [done|by apply Qcinv_pos]. Qed.

(** A node of the graph has a neighbour, so it reaches a second node. *)
Lemma reachable_two adj s :
  adj_wf adj → s ∈ keys adj → (2 ≤ length (reachable_from adj s))%nat.
Proof.
  intros Hwf Hs. pose proof (wf_inhabited adj Hwf s Hs) as Hne.
  destruct (adj_get adj s) as [|w l] eqn:E; [done|]. clear Hne.
  assert (Hw : w ∈ adj_get adj s) by (rewrite E; left).
  change 2%nat with (length [s; w]). apply NoDup_length_le.
  - apply NoDup_cons. split; [|apply NoDup_singleton].
    intros ->%list_elem_of_singleton. by apply (wf_irrefl adj Hwf) in Hw.
  - intros y Hy. apply list_elem_of_filter.
    apply elem_of_cons in Hy as [-> | ->%list_elem_of_singleton].
    + split; [|done]. by rewrite distance_refl.
    + split; [|by eapply wf_key_r]. by rewrite (distance_edge adj Hwf s w Hw).
Qed.

Lemma closeness_spec_pos adj wf_improved s :
  adj_wf adj → s ∈ keys adj → (0 < closeness_spec adj wf_improved s)%Qc.
Proof.
  intros Hwf Hs. pose proof (reachable_two adj s Hwf Hs) as H2.
  pose proof (total_hops_bound adj Hwf s) as HT.
  pose proof (reachable_bound adj s) as HN.
  unfold closeness_spec. destruct (_ || _) eqn:Eg.
  { apply orb_true_iff in Eg as [Er%Z.leb_le|Et%Z.eqb_eq]; lia. }
  assert (0 < Qc_of_Z (Z.of_nat (length (reachable_from adj s)) - 1)
              / Qc_of_Z (Z.of_nat (total_hops adj s)))%Qc.
  { apply Qcdiv_pos; apply Qc_of_Z_pos; lia. }
  destruct (wf_improved && _); [|done].
  apply Qcmult_pos_pos; [done|]. apply Qcdiv_pos; apply Qc_of_Z_pos; lia.
Qed.

Lemma degree_spec_pos adj v :
  adj_wf adj → v ∈ keys adj → (0 < degree_spec adj v)%Qc.
Proof.
  intros Hwf Hv. pose proof (reachable_two adj v Hwf Hv) as H2.
  pose proof (reachable_bound adj v) as HN.
  pose proof (wf_inhabited adj Hwf v Hv) as Hne.
  unfold degree_spec. destruct (_ <=? 1) eqn:En; [apply Z.leb_le in En; lia|].
  apply Qcdiv_pos; apply Qc_of_Z_pos; [|lia].
  destruct (adj_get adj v); [done|simpl; lia].
Qed.

(** X2: every score that [degree_centrality] and [closeness_centrality]
    return is strictly positive.  A node enters the graph with a
    neighbour, so the graph never has exactly one node, and from each of
    its nodes a second one is reached at a distance of at least 1: the
    branches [n <= 1] (unless the graph is empty) and
    [reachable <= 1 or total_dist == 0] are never taken. *)
Theorem degree_closeness_positive edges wf_improved :
  let adj := build_adj edges in
  ∃ rd rc,
    degree_centrality (FL:=rational) edges = Ok rd
    ∧ closeness_centrality (FL:=rational) edges wf_improved = Ok rc
    ∧ (∀ v c, dget rd v = Some c → (0 < c)%Qc)
    ∧ (∀ v c, dget rc v = Some c → (0 < c)%Qc)
    ∧ length (keys adj) ≠ 1%nat
    ∧ ∀ s, s ∈ keys adj →
        ∃ total reachable,
          bfs_sum_dist adj (S (length (keys adj))) s = Ok (total, reachable)
          ∧ 1 < reachable ∧ 0 < total.
Proof.
  intros adj. pose proof (build_adj_wf edges) as Hwf. fold adj in Hwf.
  destruct (degree_centrality_scores edges) as (rd & Ed & Hd).
  destruct (closeness_centrality_scores edges wf_improved) as (rc & Ec & Hc).
  exists rd, rc. split_and!; [done..| | | |].
  - intros v c Hv. destruct (is_scores_lookup _ _ _ _ _ Hd Hv) as [Hk ->].
    by apply degree_spec_pos.
  - intros v c Hv. destruct (is_scores_lookup _ _ _ _ _ Hc Hv) as [Hk ->].
    by apply closeness_spec_pos.
  - intros E. destruct (keys adj) as [|v [|??]] eqn:Ek; try done.
    assert (Hv : v ∈ keys adj) by (rewrite Ek; left).
    pose proof (reachable_two adj v Hwf Hv). pose proof (reachable_bound adj v).
    rewrite Ek in *. simpl in *. lia.
  - intros s Hs. do 2 eexists. split; [by apply bfs_sum_dist_run|].
    pose proof (reachable_two adj s Hwf Hs).
    pose proof (total_hops_bound adj Hwf s). lia.
Qed.

(** X3: in [closeness_centrality], the search [bfs_sum_dist(start)] from
    a node of the graph ends; its [dist] has as keys, each once and nearer
    nodes first, the nodes reachable from [start], each with its hop
    distance; and it returns the sum of the hop distances to the others
    and the number of reachable nodes, [start] counted. *)
Theorem bfs_sum_dist_correct edges s :
  let adj := build_adj edges in
  s ∈ keys adj →
  ∃ dist,
    cl_loop adj (S (length (keys adj))) [(s, 0)] [s] = Ok dist
    ∧ NoDup (keys dist)
    ∧ (∀ w, dget dist w = Z.of_nat <$> distance adj s w)
    ∧ (∀ l1 x l2 y a b, keys dist = l1 ++ x :: l2 → y ∈ l1 →
         distance adj s y = Some a → distance adj s x = Some b → (a ≤ b)%nat)
    ∧ bfs_sum_dist adj (S (length (keys adj))) s
      = Ok (Z.of_nat (sumN (hops adj s) (filter (λ w, w ≠ s) (reachable_from adj s))),
            Z.of_nat (length (reachable_from adj s))).
Proof.
  intros adj Hs. pose proof (build_adj_wf edges) as Hwf. fold adj in Hwf.
  destruct (cl_loop_source adj Hwf s Hs) as (Ss & dist & E & [Hk Hnn Hbfs]).
  rewrite app_nil_r in Hk.
  assert (HD : ∀ w, cl_D dist w = distance adj s w).
  { intros w. by eapply bfs_final_distance. }
  exists dist. split_and!; [done| | | |by apply bfs_sum_dist_run].
  - rewrite Hk. pose proof (bi_nodup _ _ _ _ _ Hbfs) as Hn. by rewrite app_nil_r in Hn.
  - intros w. rewrite <- HD. unfold cl_D.
    destruct (dget dist w) as [z|] eqn:Ez; [|done]. simpl.
    apply Hnn in Ez. f_equal. lia.
  - intros l1 x l2 y a b El Hy Ha Hb. rewrite <- HD in Ha, Hb.
    eapply (bi_sorted _ _ _ _ _ Hbfs l1 x l2 y); [|done..].
    by rewrite app_nil_r, <- Hk.
Qed.





Lemma length_filter_remove (a : Node) (l : list Node) :
  NoDup l → a ∈ l → (length (filter (λ w, w ≠ a) l) + 1 = length l)%nat.
Proof.
  induction l as [|b l IH]; intros Hnd Ha; [by apply elem_of_nil in Ha|].
  apply NoDup_cons in Hnd as [Hb Hnd]. rewrite filter_cons.
  destruct (decide (b ≠ a)) as [Hne|Heq]; simpl.
  - apply elem_of_cons in Ha as [->|Ha]; [done|]. specialize (IH Hnd Ha). lia.
  - apply dec_stable in Heq. subst b.
    rewrite length_filter_all; [lia|]. intros w Hw ->. done.
Qed.







Lemma closeness_spec_factor adj s :
  adj_wf adj → s ∈ keys adj →
  closeness_spec adj true s
  = (closeness_spec adj false s
     * (Qc_of_Z (Z.of_nat (length (reachable_from adj s)) - 1)
        / Qc_of_Z (Z.of_nat (length (keys adj)) - 1)))%Qc.
Proof.
  intros Hwf Hs. pose proof (reachable_two adj s Hwf Hs) as H2.
  pose proof (reachable_bound adj s) as HN.
  unfold closeness_spec. destruct (_ || _).
  - rewrite Z2Qc_inj_0. ring.
  - cbn [andb]. by rewrite (proj2 (Z.gtb_gt _ 1)) by lia.
Qed.

(** X7: the Wasserman–Faust correction never raises a score: for every
    node the score with [wf_improved=True] is the score with
    [wf_improved=False] times [(reachable - 1) / (N - 1)], which is at
    most 1, and the two scores are equal for a node that reaches every
    node of the graph. *)
Theorem wf_improved_scales edges :
  let adj := build_adj edges in
  ∃ r1 r0,
    closeness_centrality (FL:=rational) edges true = Ok r1
    ∧ closeness_centrality (FL:=rational) edges false = Ok r0
    ∧ keys r1 = keys r0
    ∧ ∀ v c1 c0, dget r1 v = Some c1 → dget r0 v = Some c0 →
        c1 = (c0 * (Qc_of_Z (Z.of_nat (length (reachable_from adj v)) - 1)
                    / Qc_of_Z (Z.of_nat (length (keys adj)) - 1)))%Qc
        ∧ (c1 ≤ c0)%Qc
        ∧ ((∀ w, w ∈ keys adj → is_Some (distance adj v w)) → c1 = c0).
Proof.
  intros adj. pose proof (build_adj_wf edges) as Hwf. fold adj in Hwf.
  destruct (closeness_centrality_scores edges true) as (r1 & E1 & H1).
  destruct (closeness_centrality_scores edges false) as (r0 & E0 & H0).
  exists r1, r0. split_and!; [done..|by rewrite (proj1 H1), (proj1 H0)|].
  intros v c1 c0 Hv1 Hv0.
  destruct (is_scores_lookup _ _ _ _ _ H1 Hv1) as [Hk ->].
  destruct (is_scores_lookup _ _ _ _ _ H0 Hv0) as [_ ->]. fold adj in Hk |- *.
  pose proof (reachable_two adj v Hwf Hk) as H2.
  pose proof (reachable_bound adj v) as HN.
  pose proof (closeness_spec_bounds adj Hwf false v) as [Hc0 _].
  rewrite (closeness_spec_factor adj v Hwf Hk). split_and!; [done| |].
  - rewrite <- (Qcmult_1_r (closeness_spec adj false v)) at 2.
    apply Qcmult_le_mono_nonneg_l; [done|].
    apply Qcdiv_le_1; [apply Qc_of_Z_le|apply Qc_of_Z_pos]; lia.
  - intros Hall. unfold reachable_from at 1.
    rewrite length_filter_all by done.
    unfold Qcdiv. rewrite Qcmult_inv_r by (apply Qc_of_Z_nonzero; lia). ring.
Qed.

(** The first step of a shortest path. *)
Lemma distance_first_step adj v t b :
  adj_wf adj → distance adj v t = Some (S b) →
  ∃ z, z ∈ adj_get adj v ∧ distance adj z t = Some b.
Proof.
  intros Hwf Hd. pose proof (distance_pos adj Hwf v t _ Hd) as Hp.
  rewrite nwalks_S in Hp. apply sumN_pos_inv in Hp as (z & Hz & Hp).
  exists z. split; [done|].
  destruct (distance_walk adj Hwf z t b Hp) as (j & Hj & Hle).
  pose proof (distance_edge adj Hwf v z Hz) as He.
  destruct (distance_triangle adj Hwf v z t 1 j He Hj) as (c & Hc & Hle').
  rewrite Hd in Hc. injection Hc as <-. rewrite Hj. f_equal. lia.
Qed.

(** No shortest path between two other nodes passes through a node whose
    neighbours are adjacent to each other. *)
Lemma on_path_simplicial adj s t v :
  adj_wf adj →
  (∀ y z, y ∈ adj_get adj v → z ∈ adj_get adj v → y ≠ z → z ∈ adj_get adj y) →
  s ≠ v → t ≠ v → ¬ on_path adj s t v.
Proof.
  intros Hwf Hcl Hs Ht (a & b & Ha & Hb & Hc).
  destruct a as [|a]; [by apply distance_0 in Ha|].
  destruct b as [|b]; [apply distance_0 in Hb; [congruence|done]|].
  rewrite (distance_sym adj Hwf s v) in Ha.
  destruct (distance_first_step adj v s a Hwf Ha) as (y & Hy & Hys).
  destruct (distance_first_step adj v t b Hwf Hb) as (z & Hz & Hzt).
  rewrite (distance_sym adj Hwf y s) in Hys.
  destruct (decide (y = z)) as [->|Hne].
  - destruct (distance_triangle adj Hwf s z t a b Hys Hzt) as (c & Hc' & Hle).
    rewrite Hc in Hc'. injection Hc' as <-. lia.
  - pose proof (distance_edge adj Hwf y z (Hcl y z Hy Hz Hne)) as He.
    destruct (distance_triangle adj Hwf s y z a 1 Hys He) as (e & He' & Hle).
    destruct (distance_triangle adj Hwf s z t e b He' Hzt) as (c & Hc' & Hle').
    rewrite Hc in Hc'. injection Hc' as <-. lia.
Qed.

Lemma brandes_value_simplicial adj normalized v :
  adj_wf adj →
  (∀ y z, y ∈ adj_get adj v → z ∈ adj_get adj v → y ≠ z → z ∈ adj_get adj y) →
  brandes_value adj normalized v = 0%Qc.
Proof.
  intros Hwf Hcl.
  assert (HD : dependency_sum adj v = 0%Qc).
  { apply sumQ_zero. intros s _. destruct (decide (v ≠ s)) as [Hvs|]; [|done].
    apply sumQ_zero. intros t _. destruct (decide _) as [[Hts Htv]|]; [|done].
    unfold dep, thru. rewrite decide_False.
    - rewrite Qc_of_nat_0. unfold Qcdiv. ring.
    - apply on_path_simplicial; [done..|congruence|done]. }
  unfold brandes_value. rewrite HD. destruct (_ <=? 2)%Z; [done|].
  destruct normalized; unfold Qcdiv; ring.
Qed.

(** X8: [betweenness_centrality] gives 0, for either [normalized], to
    every node whose neighbours are all adjacent to each other; a node
    with a single neighbour is one. *)
Theorem betweenness_simplicial_zero edges normalized v :
  let adj := build_adj edges in
  v ∈ keys adj →
  (∀ y z, y ∈ adj_get adj v → z ∈ adj_get adj v → y ≠ z → z ∈ adj_get adj y) →
  ∃ r, betweenness_centrality (FL:=rational) edges normalized = Ok r
       ∧ dget r v = Some 0%Qc.
Proof.
  intros adj Hv Hcl. pose proof (build_adj_wf edges) as Hwf. fold adj in Hwf.
  destruct (betweenness_centrality_scores edges normalized) as (r & E & Hk & Hr).
  exists r. split; [done|]. rewrite (Hr v Hv). f_equal.
  by apply brandes_value_simplicial.
Qed.

Lemma Qcdiv_eq_1 (x y : Qc) : y ≠ 0%Qc → (x / y = 1 ↔ x = y)%Qc.
Proof.
  intros Hy. split.
  - intros E. rewrite <- (Qcmult_1_l y), <- E. by field.
  - intros ->. by field.
Qed.

(** A node has [n - 1] neighbours exactly when every other node is one. *)
Lemma degree_full adj v :
  adj_wf adj → v ∈ keys adj →
  (length (adj_get adj v) + 1 = length (keys adj))%nat
  ↔ ∀ w, w ∈ keys adj → w ≠ v → w ∈ adj_get adj v.
Proof.
  intros Hwf Hv. pose proof (degree_bound adj Hwf v Hv) as Hb. split.
  - intros Hlen w Hw Hne.
    assert (Hp : v :: adj_get adj v ≡ₚ keys adj).
    { apply submseteq_length_Permutation; [|simpl; lia].
      apply NoDup_submseteq.
      - apply NoDup_cons. split; [apply Hwf|apply Hwf].
      - intros y [->|Hy]%elem_of_cons; [done|by eapply wf_key_r]. }
    rewrite <- Hp in Hw. apply elem_of_cons in Hw as [->|Hw]; done.
  - intros Hall.
    pose proof (length_filter_remove v (keys adj) (wf_keys adj Hwf) Hv) as Hlen.
    assert (length (filter (λ w, w ≠ v) (keys adj)) ≤ length (adj_get adj v))%nat; [|lia].
    apply NoDup_length_le; [apply NoDup_filter, Hwf|].
    intros w [Hne Hw]%list_elem_of_filter. by apply Hall.
Qed.

(** X9: [degree_centrality] gives the score 1 to exactly the nodes that
    an edge joins to every other node of the graph. *)
Theorem degree_one_iff_universal edges :
  ∃ r, degree_centrality (FL:=rational) edges = Ok r
       ∧ ∀ v c, dget r v = Some c →
           (c = 1%Qc ↔ ∀ w, w ∈ keys r → w ≠ v → (v, w) ∈ edges ∨ (w, v) ∈ edges).
Proof.
  pose proof (build_adj_wf edges) as Hwf.
  destruct (degree_centrality_scores edges) as (r & E & Hr).
  exists r. split; [done|]. intros v c Hv.
  destruct (is_scores_lookup _ _ _ _ _ Hr Hv) as [Hk ->]. rewrite (proj1 Hr).
  pose proof (reachable_two _ v Hwf Hk) as H2.
  pose proof (reachable_bound (build_adj edges) v) as HN.
  transitivity (length (adj_get (build_adj edges) v) + 1
                = length (keys (build_adj edges)))%nat.
  - unfold degree_spec. destruct (_ <=? 1) eqn:En; [apply Z.leb_le in En; lia|].
    rewrite Qcdiv_eq_1 by (apply Qc_of_Z_nonzero; lia). split.
    + intros Eq%Z2Qc_inj. lia.
    + intros Eq. f_equal. lia.
  - rewrite (degree_full _ v Hwf Hk). split; intros Hall w Hw Hne.
    + specialize (Hall w Hw Hne). apply build_adj_edge in Hall. tauto.
    + apply build_adj_edge. split; [congruence|]. by apply Hall.
Qed.

Lemma sumN_all_one {A} (f : A → nat) (l : list A) :
  (∀ a, a ∈ l → (1 ≤ f a)%nat) → sumN f l = length l → ∀ a, a ∈ l → f a = 1%nat.
Proof.
  induction l as [|b l IH]; intros Hf Hs a Ha; [by apply elem_of_nil in Ha|].
  rewrite big_cons in Hs. simpl in Hs.
  pose proof (Hf b ltac:(left)) as Hb.
  pose proof (sumN_ge_length f l ltac:(intros; apply Hf; by right)) as Hl.
  apply elem_of_cons in Ha as [->|Ha]; [lia|].
  apply IH; [intros; apply Hf; by right|lia|done].
Qed.

Lemma distance_1_edge adj s w :
  adj_wf adj → distance adj s w = Some 1%nat → w ∈ adj_get adj s.
Proof.
  intros Hwf Hd. pose proof (distance_pos adj Hwf s w _ Hd) as Hp.
  rewrite nwalks_S in Hp. apply sumN_pos_inv in Hp as (x & Hx & Hp).
  by apply nwalks_0_pos in Hp as <-.
Qed.

Lemma hops_pos adj s w :
  adj_wf adj → w ∈ reachable_from adj s → w ≠ s → (1 ≤ hops adj s w)%nat.
Proof.
  intros Hwf [[k Hk] _]%list_elem_of_filter Hne. unfold hops. rewrite Hk. simpl.
  destruct k; [|lia]. apply distance_0 in Hk; [|done]. congruence.
Qed.

Lemma filter_all_eq {A} (P : A → Prop) `{∀ a, Decision (P a)} (l : list A) :
  (∀ a, a ∈ l → P a) → filter P l = l.
Proof.
  induction l as [|a l IH]; intros HP; [done|].
  rewrite filter_cons, decide_True by (apply HP; left).
  f_equal. apply IH. intros; apply HP; by right.
Qed.

Lemma filter_length_eq {A} (P : A → Prop) `{∀ a, Decision (P a)} (l : list A) :
  length (filter P l) = length l → filter P l = l.
Proof.
  induction l as [|a l IH]; [done|]. rewrite filter_cons.
  pose proof (length_filter P l). destruct (decide (P a)); simpl; intros E.
  - f_equal. apply IH. lia.
  - lia.
Qed.

(** The distances from [s] add up to [reachable - 1] and [s] reaches every
    node exactly when every other node is a neighbour of [s]. *)
Lemma closeness_full adj s :
  adj_wf adj → s ∈ keys adj →
  (total_hops adj s + 1 = length (reachable_from adj s)
   ∧ length (reachable_from adj s) = length (keys adj))%nat
  ↔ ∀ w, w ∈ keys adj → w ≠ s → w ∈ adj_get adj s.
Proof.
  intros Hwf Hs.
  pose proof (length_filter_remove s (reachable_from adj s)
                ltac:(apply NoDup_filter, Hwf)
                ltac:(apply list_elem_of_filter; split;
                      [by rewrite distance_refl|done])) as Hrem.
  split.
  - intros [HT HN] w Hw Hne.
    assert (Hall : reachable_from adj s = keys adj).
    { by apply filter_length_eq. }
    assert (Hw' : w ∈ filter (λ w, w ≠ s) (reachable_from adj s)).
    { apply list_elem_of_filter. by rewrite Hall. }
    assert (H1 : hops adj s w = 1%nat).
    { apply (sumN_all_one (hops adj s) (filter (λ w, w ≠ s) (reachable_from adj s)));
        [|unfold total_hops in HT; lia|done].
      intros a [? ?]%list_elem_of_filter. by apply hops_pos. }
    apply distance_1_edge; [done|].
    apply list_elem_of_filter in Hw' as [_ [[k Hk] _]%list_elem_of_filter].
    unfold hops in H1. rewrite Hk in H1 |- *. simpl in H1. by subst k.
  - intros Hall.
    assert (Hd : ∀ w, w ∈ keys adj → w ≠ s → distance adj s w = Some 1%nat).
    { intros w Hw Hne. apply distance_edge; [done|]. by apply Hall. }
    assert (HR : reachable_from adj s = keys adj).
    { apply filter_all_eq. intros w Hw.
      destruct (decide (w = s)) as [->|Hne]; [by rewrite distance_refl|].
      by rewrite Hd. }
    split; [|by rewrite HR]. unfold total_hops.
    rewrite (sumN_ext _ (λ _, 1%nat)).
    + rewrite <- Hrem. clear. induction (filter _ _) as [|a l IH]; [done|].
      rewrite big_cons. simpl. lia.
    + intros w [Hne Hw]%list_elem_of_filter. rewrite HR in Hw.
      unfold hops. by rewrite Hd.
Qed.

Lemma Qcmult_eq_1 (a b : Qc) :
  (0 ≤ a → a ≤ 1 → b ≤ 1 → a * b = 1 → a = 1 ∧ b = 1)%Qc.
Proof.
  intros Ha0 Ha1 Hb1 E.
  assert (a = 1%Qc) as ->.
  { apply Qcle_antisym; [done|]. rewrite <- E. rewrite <- (Qcmult_1_r a) at 2.
    by apply Qcmult_le_mono_nonneg_l. }
  split; [done|]. by rewrite Qcmult_1_l in E.
Qed.

(** X10: [closeness_centrality] with [wf_improved=True] gives the score 1
    to exactly the nodes that an edge joins to every other node of the
    graph: the nodes to which [degree_centrality] gives 1. *)
Theorem closeness_one_iff_universal edges :
  ∃ r, closeness_centrality (FL:=rational) edges true = Ok r
       ∧ ∀ v c, dget r v = Some c →
           (c = 1%Qc ↔ ∀ w, w ∈ keys r → w ≠ v → (v, w) ∈ edges ∨ (w, v) ∈ edges).
Proof.
  pose proof (build_adj_wf edges) as Hwf.
  destruct (closeness_centrality_scores edges true) as (r & E & Hr).
  exists r. split; [done|]. intros v c Hv.
  destruct (is_scores_lookup _ _ _ _ _ Hr Hv) as [Hk ->]. rewrite (proj1 Hr).
  set (adj := build_adj edges) in *.
  pose proof (reachable_two adj v Hwf Hk) as H2.
  pose proof (reachable_bound adj v) as HN.
  pose proof (total_hops_bound adj Hwf v) as HT.
  transitivity (total_hops adj v + 1 = length (reachable_from adj v)
                ∧ length (reachable_from adj v) = length (keys adj))%nat.
  - unfold closeness_spec. destruct (_ || _) eqn:Eg.
    { apply orb_true_iff in Eg as [Er%Z.leb_le|Et%Z.eqb_eq]; lia. }
    cbn [andb]. rewrite (proj2 (Z.gtb_gt _ 1)) by lia.
    assert (HTne : Qc_of_Z (Z.of_nat (total_hops adj v)) ≠ 0%Qc)
      by (apply Qc_of_Z_nonzero; lia).
    assert (HNne : Qc_of_Z (Z.of_nat (length (keys adj)) - 1) ≠ 0%Qc)
      by (apply Qc_of_Z_nonzero; lia).
    split.
    + intros Eq. apply Qcmult_eq_1 in Eq as [Ea Eb].
      * apply (proj1 (Qcdiv_eq_1 _ _ HTne)) in Ea.
        apply (proj1 (Qcdiv_eq_1 _ _ HNne)) in Eb.
        apply Z2Qc_inj in Ea, Eb. lia.
      * apply Qcdiv_nonneg; apply Qc_of_Z_nonneg; lia.
      * apply Qcdiv_le_1; [apply Qc_of_Z_le|apply Qc_of_Z_pos]; lia.
      * apply Qcdiv_le_1; [apply Qc_of_Z_le|apply Qc_of_Z_pos]; lia.
    + intros [ET EN].
      rewrite (proj2 (Qcdiv_eq_1 _ _ HTne)) by (f_equal; lia).
      rewrite (proj2 (Qcdiv_eq_1 _ _ HNne)) by (f_equal; lia). ring.
  - rewrite (closeness_full adj v Hwf Hk). split; intros Hall w Hw Hne.
    + specialize (Hall w Hw Hne). apply build_adj_edge in Hall. tauto.
    + apply build_adj_edge. split; [congruence|]. by apply Hall.
Qed.











End MoreCentrality.

(** * ChatGPTプロンプト/コード.py: the groups of room names

    The script takes a nested list from Dynamo, picks the lists of dicts
    out of it, sends them to a remote service in one request and flattens
    the reply.  The request itself (HTTP, JSON text) is outside of what is
    modelled; the reply is a parameter of [main]. *)

(** Python values, as far as the script tells them apart. *)
Inductive pyobj :=
  | PyList (items : list pyobj)
  | PyTuple (items : list pyobj)
  | PyDict (entries : list (string * pyobj))
  | PyStr (s : string)
  | PyInt (z : Z)
  | PyNone.

(** [isinstance(x, dict)] *)
Definition is_dict (x : pyobj) : bool :=
  match x with
  | PyDict _ => true
  | _ => false
  end.

(** [_walk(x)] of [extract_groups], with the list [groups] it appends to:
    a list or tuple that is not empty and starts with a dict is one group,
    taken whole as [list(x)]; any other list or tuple is searched element
    by element; anything else is passed over. *)
Fixpoint _walk (x : pyobj) (groups : list (list pyobj)) : list (list pyobj) :=
  let each := fix each (ys : list pyobj) (groups : list (list pyobj)) :=
    match ys with
    | [] => groups
    | y :: ys' => each ys' (_walk y groups)
    end in
  match x with
  | PyList l | PyTuple l =>
      match l with
      | PyDict _ :: _ => groups ++ [l]
      | _ => each l groups
      end
  | _ => groups
  end.

Definition extract_groups (obj : pyobj) : list (list pyobj) := _walk obj [].

(** The characters of a string, each a string. *)
Fixpoint chars (s : string) : list pyobj :=
  match s with
  | EmptyString => []
  | String c s' => PyStr (String c EmptyString) :: chars s'
  end.

(** [for x in g]: the elements of a list or tuple, the keys of a dict, the
    characters of a string; other values cannot be iterated. *)
Definition py_iter (g : pyobj) : res (list pyobj) :=
  match g with
  | PyList l | PyTuple l => Ok l
  | PyDict d => Ok (PyStr <$> d.*1)
  | PyStr s => Ok (chars s)
  | PyInt _ | PyNone => Raise TypeError
  end.

(** [flatten_groups(groups_2d)]: the elements of every list or tuple, and
    anything else as it is. *)
Definition flatten_step (flat : list pyobj) (g : pyobj) : list pyobj :=
  match g with
  | PyList l | PyTuple l => foldl (λ flat x, flat ++ [x]) flat l
  | _ => flat ++ [g]
  end.

Definition flatten_groups (groups_2d : pyobj) : res (list pyobj) :=
  gs ← py_iter groups_2d; Ok (foldl flatten_step [] gs).

(** [isinstance(r, dict) and "error" in r] *)
Definition is_error (r : pyobj) : bool :=
  match r with
  | PyDict d => bool_decide ("error"%string ∈ d.*1)
  | _ => false
  end.

(** The main part: [call] stands for [call_openai_structured_all] with
    the key, the model and the prompt. *)
Definition main (call : list (list pyobj) → pyobj) (raw_input : pyobj)
  : res (list pyobj) :=
  let raw_input := match raw_input with PyNone => PyList [] | x => x end in
  let groups_in := extract_groups raw_input in
  match groups_in with
  | [] => Ok []
  | _ =>
      let result_groups := call groups_in in
      if is_error result_groups then Ok [result_groups]
      else flatten_groups result_groups
  end.

Section Groups.
Implicit Types (x y obj : pyobj) (l ys : list pyobj) (g : list pyobj)
  (gs groups : list (list pyobj)).

Lemma pyobj_seq_ind (P : pyobj → Prop) :
  (∀ l, Forall P l → P (PyList l)) →
  (∀ l, Forall P l → P (PyTuple l)) →
  (∀ d, P (PyDict d)) → (∀ s, P (PyStr s)) → (∀ z, P (PyInt z)) → P PyNone →
  ∀ x, P x.
Proof.
  intros Hl Ht Hd Hs Hi Hn. fix IH 1. intros [l|l|d|s|z|].
  - apply Hl. induction l as [|y l IHl]; constructor; [apply IH|apply IHl].
  - apply Ht. induction l as [|y l IHl]; constructor; [apply IH|apply IHl].
  - apply Hd.
  - apply Hs.
  - apply Hi.
  - apply Hn.
Qed.

(** [x and isinstance(x[0], dict)] *)
Definition dict_headed l : Prop :=
  match l with
  | PyDict _ :: _ => True
  | _ => False
  end.

Global Instance dict_headed_dec l : Decision (dict_headed l).
Proof. destruct l as [|[] ?]; simpl; apply _. Defined.

(** The loop [for y in x: _walk(y)]. *)
Definition walk_each ys groups : list (list pyobj) :=
  foldl (λ groups y, _walk y groups) groups ys.

Lemma _walk_seq l groups :
  _walk (PyList l) groups
  = (if decide (dict_headed l) then groups ++ [l] else walk_each l groups)
  ∧ _walk (PyTuple l) groups = _walk (PyList l) groups.
Proof.
  assert (E : ∀ ys groups,
    (fix each (ys : list pyobj) (groups : list (list pyobj)) :=
       match ys with
       | [] => groups
       | y :: ys' => each ys' (_walk y groups)
       end) ys groups = walk_each ys groups).
  { intros ys. induction ys as [|y ys IH]; intros gr; [done|]. simpl. apply IH. }
  split; [|done]. destruct l as [|[] l]; cbn [_walk]; try rewrite E; done.
Qed.

(** What [_walk] appends does not depend on what is there. *)
Lemma _walk_app x groups : _walk x groups = groups ++ _walk x [].
Proof.
  revert groups. induction x as [l IH|l IH|d|s|z|] using pyobj_seq_ind;
    intros groups; try (cbn [_walk]; by rewrite app_nil_r).
  - rewrite !(proj1 (_walk_seq l _)). destruct (decide (dict_headed l)); [done|].
    unfold walk_each. clear n. revert groups.
    induction IH as [|y l Hy _ IHl]; intros groups; simpl; [by rewrite app_nil_r|].
    rewrite IHl, (IHl (_walk y [])), Hy. by rewrite app_assoc.
  - rewrite !(proj2 (_walk_seq l _)), !(proj1 (_walk_seq l _)).
    destruct (decide (dict_headed l)); [done|].
    unfold walk_each. clear n. revert groups.
    induction IH as [|y l Hy _ IHl]; intros groups; simpl; [by rewrite app_nil_r|].
    rewrite IHl, (IHl (_walk y [])), Hy. by rewrite app_assoc.
Qed.

Lemma walk_each_concat ys groups :
  walk_each ys groups = groups ++ mjoin (extract_groups <$> ys).
Proof.
  revert groups. induction ys as [|y ys IH]; intros groups; simpl.
  - by rewrite app_nil_r.
  - unfold walk_each in *. simpl. rewrite IH, _walk_app. by rewrite app_assoc.
Qed.

(** The groups of a list or tuple: itself when it starts with a dict, the
    groups of its elements, in order, otherwise. *)
Lemma extract_groups_seq l :
  extract_groups (PyList l)
  = (if decide (dict_headed l) then [l] else mjoin (extract_groups <$> l))
  ∧ extract_groups (PyTuple l) = extract_groups (PyList l).
Proof.
  unfold extract_groups. rewrite (proj2 (_walk_seq l _)), (proj1 (_walk_seq l _)).
  split; [|done]. destruct (decide (dict_headed l)); [done|].
  by rewrite walk_each_concat.
Qed.

Lemma extract_groups_headed obj g : g ∈ extract_groups obj → dict_headed g.
Proof.
  revert g. induction obj as [l IH|l IH|d|s|z|] using pyobj_seq_ind; intros g;
    try (by intros ?%elem_of_nil).
  - rewrite (proj1 (extract_groups_seq l)). destruct (decide (dict_headed l)).
    + by intros ->%list_elem_of_singleton.
    + intros (gs' & Hg & (y & -> & Hy)%list_elem_of_fmap)%list_elem_of_join.
      rewrite Forall_forall in IH. by apply (IH y).
  - rewrite (proj2 (extract_groups_seq l)), (proj1 (extract_groups_seq l)).
    destruct (decide (dict_headed l)).
    + by intros ->%list_elem_of_singleton.
    + intros (gs' & Hg & (y & -> & Hy)%list_elem_of_fmap)%list_elem_of_join.
      rewrite Forall_forall in IH. by apply (IH y).
Qed.

(** [x] inside [k] more lists: [[...[x]...]]. *)
Fixpoint wrap (k : nat) (x : pyobj) : pyobj :=
  match k with
  | O => x
  | S k' => PyList [wrap k' x]
  end.

Lemma extract_groups_of_groups gs :
  (∀ g, g ∈ gs → g = [] ∨ dict_headed g) →
  extract_groups (PyList (PyList <$> gs)) = filter (λ g, g ≠ []) gs.
Proof.
  intros Hgs. rewrite (proj1 (extract_groups_seq _)).
  destruct (decide (dict_headed (PyList <$> gs))) as [Hd|_]; [by destruct gs|].
  induction gs as [|g gs IH]; [done|]. rewrite !fmap_cons.
  change (mjoin (extract_groups (PyList g) :: (extract_groups <$> (PyList <$> gs))))
    with (extract_groups (PyList g) ++ mjoin (extract_groups <$> (PyList <$> gs))).
  rewrite IH by (intros; apply Hgs; by right). rewrite filter_cons.
  rewrite (proj1 (extract_groups_seq g)).
  destruct (Hgs g ltac:(left)) as [->|Hg].
  - destruct (decide (dict_headed [])) as [[]|_].
    destruct (decide (@nil pyobj ≠ [])) as [Hn|_]; [by destruct Hn|done].
  - destruct (decide (dict_headed g)) as [_|Hn]; [|done].
    destruct (decide (g ≠ [])) as [_|Hn]; [done|].
    destruct g; [done|]. by destruct Hn.
Qed.

Lemma extract_groups_wrap k x :
  is_dict x = false → extract_groups (wrap k x) = extract_groups x.
Proof.
  intros Hx. induction k as [|k IH]; [done|]. simpl.
  rewrite (proj1 (extract_groups_seq _)).
  rewrite decide_False.
  - simpl. by rewrite app_nil_r.
  - intros Hd. destruct k; simpl in Hd; [|done]. destruct x; try done; discriminate.
Qed.

(** X11: on the documented inputs, a list of groups inside any number of
    further lists, where every group is a list that starts with a dict or
    is empty, [extract_groups] returns the groups that are not empty, in
    order: the depth of the nesting makes no difference, and an empty
    group is dropped. *)
Theorem extract_groups_nested gs k :
  (∀ g, g ∈ gs → g = [] ∨ dict_headed g) →
  extract_groups (wrap k (PyList (PyList <$> gs))) = filter (λ g, g ≠ []) gs.
Proof.
  intros Hgs. rewrite extract_groups_wrap by done. by apply extract_groups_of_groups.
Qed.

(** X12: every group that [extract_groups] returns starts with a dict, and
    [extract_groups] applied to its own result, as a list of lists,
    returns it again. *)
Theorem extract_groups_idempotent obj :
  (∀ g, g ∈ extract_groups obj → ∃ d rest, g = PyDict d :: rest)
  ∧ extract_groups (PyList (PyList <$> extract_groups obj)) = extract_groups obj.
Proof.
  split.
  - intros g Hg%extract_groups_headed. destruct g as [|[] rest]; try done. eauto.
  - rewrite extract_groups_of_groups.
    + apply filter_all_eq. intros g Hg%extract_groups_headed. by destruct g.
    + intros g Hg%extract_groups_headed. by right.
Qed.

(** The part of a reply that one of its elements gives to the output. *)
Definition items_or_self (r : pyobj) : list pyobj :=
  match r with
  | PyList l | PyTuple l => l
  | _ => [r]
  end.

Lemma flatten_step_app flat r : flatten_step flat r = flat ++ items_or_self r.
Proof.
  assert (E : ∀ l flat, foldl (λ flat x, flat ++ [x]) flat l = flat ++ l).
  { intros l. induction l as [|x l IH]; intros fl; simpl; [by rewrite app_nil_r|].
    by rewrite IH, <- app_assoc. }
  destruct r; simpl; by rewrite ?E.
Qed.

Lemma flatten_fold rs flat :
  foldl flatten_step flat rs = flat ++ (rs ≫= items_or_self).
Proof.
  revert flat. induction rs as [|r rs IH]; intros flat; simpl; [by rewrite app_nil_r|].
  by rewrite IH, flatten_step_app, <- app_assoc.
Qed.

(** X13: when the input holds a group and the reply is a list, the output
    of the script is, in order, the elements of every list of the reply
    and every other element of the reply as it is (an error dict for one
    group stays one entry); the reply that is one error dict is the only
    entry of the output. *)
Theorem main_flattens (call : list (list pyobj) → pyobj) raw_input rs :
  extract_groups raw_input ≠ [] →
  call (extract_groups raw_input) = PyList rs →
  main call raw_input = Ok (rs ≫= items_or_self)
  ∧ ∀ call' d, call' (extract_groups raw_input) = PyDict d →
      "error"%string ∈ d.*1 → main call' raw_input = Ok [PyDict d].
Proof.
  intros Hne Hcall.
  assert (Hraw : (match raw_input with PyNone => PyList [] | x => x end) = raw_input).
  { by destruct raw_input. }
  unfold main. rewrite Hraw.
  destruct (extract_groups raw_input) as [|g gs] eqn:Eg; [done|]. split.
  - rewrite Hcall. cbn [is_error]. unfold flatten_groups. cbn [py_iter mbind res_bind].
    by rewrite flatten_fold.
  - intros call' d -> Hd. simpl. by rewrite bool_decide_eq_true_2.
Qed.
End Groups.

(** * 関数/部屋を構成する境界線の要素を取得.py: the boundary elements of rooms

    The Revit document is a parameter: [GetElement i] is
    [doc.GetElement(ElementId(i))], [None] standing for null.  A boundary
    segment is given by its [ElementId], [None] when that is null; a room
    by what [GetBoundarySegments] returns, loops of segments or null. *)

Section Boundary.
Context {Element : Type}.
Variable GetElement : Z → option Element.

Definition InvalidElementId : Z := -1.

(** The body of [for seg in loop], on [unique_ids] and
    [boundary_elements]. *)
Definition seg_step (st : list Z * list Element) (eid : option Z)
  : list Z * list Element :=
  match eid with
  | Some i =>
      if decide (i ≠ InvalidElementId) then
        if decide (i ∉ st.1) then
          match GetElement i with
          | Some elem => (set_add i st.1, st.2 ++ [elem])
          | None => st
          end
        else st
      else st
  | None => st
  end.

(** [for loop in segloops: for seg in loop: ...] *)
Definition boundary_elements (segloops : list (list (option Z))) : list Element :=
  (foldl (λ st loop, foldl seg_step st loop) ([], []) segloops).2.

(** One turn of [for r in rooms_db]: [r] is [None], or a room whose
    segments are null or empty, or a room with loops. *)
Definition room_result (r : option (option (list (list (option Z))))) : list Element :=
  match r with
  | None => []
  | Some None => []
  | Some (Some []) => []
  | Some (Some segloops) => boundary_elements segloops
  end.

(** The ids of a sequence of segments that name an element of the
    document. *)
Definition named (segs : list (option Z)) : list Z :=
  filter (λ i, i ≠ InvalidElementId ∧ is_Some (GetElement i)) (omap id segs).

(** A list without the repetitions of its elements, first occurrences
    kept. *)
Fixpoint first_seen (seen : list Z) (ids : list Z) : list Z :=
  match ids with
  | [] => []
  | i :: ids' =>
      if decide (i ∈ seen) then first_seen seen ids'
      else i :: first_seen (i :: seen) ids'
  end.

Lemma first_seen_ext seen1 seen2 ids :
  (∀ i, i ∈ seen1 ↔ i ∈ seen2) → first_seen seen1 ids = first_seen seen2 ids.
Proof.
  revert seen1 seen2. induction ids as [|i ids IH]; intros s1 s2 Hs; simpl; [done|].
  destruct (decide (i ∈ s1)) as [H1|H1], (decide (i ∈ s2)) as [H2|H2];
    try (apply Hs in H1; done); try (apply Hs in H2; done).
  - by apply IH.
  - f_equal. apply IH. intros j. rewrite !elem_of_cons. by rewrite Hs.
Qed.

Lemma first_seen_elem seen ids i :
  i ∈ first_seen seen ids ↔ i ∈ ids ∧ i ∉ seen.
Proof.
  revert seen. induction ids as [|j ids IH]; intros seen; simpl.
  - rewrite elem_of_nil. tauto.
  - destruct (decide (j ∈ seen)) as [Hj|Hj].
    + rewrite IH, elem_of_cons. split; [tauto|]. intros [[->|?] ?]; done.
    + rewrite !elem_of_cons, IH, elem_of_cons. split.
      * intros [->|(? & Hn)]; [tauto|]. split; [tauto|]. intros ?. apply Hn. tauto.
      * intros [[->|?] Hn]; [tauto|]. destruct (decide (i = j)); [tauto|].
        right. split; [done|]. intros [?|?]; done.
Qed.

Lemma first_seen_NoDup seen ids : NoDup (first_seen seen ids).
Proof.
  revert seen. induction ids as [|j ids IH]; intros seen; simpl; [constructor|].
  destruct (decide (j ∈ seen)); [apply IH|]. apply NoDup_cons. split; [|apply IH].
  rewrite first_seen_elem. intros [_ Hn]. apply Hn. left.
Qed.

(** The loop over the segments keeps in [unique_ids] the ids met so far
    that name an element, and in [boundary_elements] their elements. *)
Lemma seg_fold segs (u : list Z) (es : list Element) :
  foldl seg_step (u, es) segs
  = (u ++ first_seen u (named segs),
     es ++ omap GetElement (first_seen u (named segs))).
Proof.
  revert u es. induction segs as [|eid segs IH]; intros u es.
  { simpl. by rewrite !app_nil_r. }
  cbn [foldl]. unfold seg_step at 2, named. cbn [fst snd].
  destruct eid as [i|]; [|apply IH]. cbn [omap list_omap id].
  rewrite filter_cons.
  destruct (decide (i ≠ InvalidElementId ∧ is_Some (GetElement i))) as [[Hv [elem Ei]]|Hn].
  - destruct (decide (i ≠ InvalidElementId)) as [_|?]; [|done].
    rewrite Ei. cbn [first_seen].
    destruct (decide (i ∉ u)) as [Hu|Hu], (decide (i ∈ u)) as [Hu'|Hu']; try done.
    rewrite IH. unfold set_add. destruct (decide (i ∈ u)) as [?|_]; [done|].
    cbn [omap list_omap]. rewrite Ei. rewrite <- !app_assoc. cbn [app].
    rewrite (first_seen_ext (u ++ [i]) (i :: u)); [done|].
    intros j. rewrite elem_of_app, !elem_of_cons, elem_of_nil. tauto.
  - fold (named segs).
    destruct (decide (i ≠ InvalidElementId)) as [Hv|_]; [|apply IH].
    destruct (GetElement i) as [elem|] eqn:Ei.
    + destruct Hn. split; [done|by eexists].
    + destruct (decide (i ∉ u)); apply IH.
Qed.

Lemma loops_fold (segloops : list (list (option Z))) st :
  foldl (λ st loop, foldl seg_step st loop) st segloops
  = foldl seg_step st (mjoin segloops).
Proof.
  revert st. induction segloops as [|loop loops IH]; intros st; [done|].
  cbn [foldl]. rewrite IH.
  change (mjoin (loop :: loops)) with (loop ++ mjoin loops). by rewrite foldl_app.
Qed.

Lemma omap_GetElement (ids : list Z) :
  (∀ i, i ∈ ids → is_Some (GetElement i)) →
  Forall2 (λ i e, GetElement i = Some e) ids (omap GetElement ids).
Proof.
  induction ids as [|i ids IH]; intros Hall; [constructor|].
  cbn [omap list_omap]. destruct (Hall i ltac:(left)) as [e Ee]. rewrite Ee.
  constructor; [done|]. apply IH. intros; apply Hall; by right.
Qed.

Lemma elem_of_named segs i :
  i ∈ named segs ↔ Some i ∈ segs ∧ i ≠ InvalidElementId ∧ is_Some (GetElement i).
Proof.
  unfold named. rewrite list_elem_of_filter, list_elem_of_omap. split.
  - intros [H1 (x & Hx & E)]. destruct x; simplify_eq/=. tauto.
  - intros (H1 & H2 & H3). split; [done|]. by exists (Some i).
Qed.

(** X14: for every room the script returns, in the order in which the
    segments first name them, the elements of the document that the
    [ElementId] of some boundary segment names, each once; an id that is
    null or invalid or names nothing is passed over; for a room that is
    [None] or has no segments the list is empty. *)
Theorem room_result_elements r :
  let segs := match r with Some (Some segloops) => mjoin segloops | _ => [] end in
  let ids := first_seen [] (named segs) in
  NoDup ids
  ∧ (∀ i, i ∈ ids ↔ Some i ∈ segs ∧ i ≠ InvalidElementId ∧ is_Some (GetElement i))
  ∧ Forall2 (λ i e, GetElement i = Some e) ids (room_result r).
Proof.
  intros segs ids. split_and!.
  - apply first_seen_NoDup.
  - intros i. unfold ids. rewrite first_seen_elem, elem_of_named, elem_of_nil. tauto.
  - assert (Hr : room_result r = omap GetElement ids).
    { destruct r as [[segloops|]|]; [|done..].
      transitivity (boundary_elements segloops); [by destruct segloops|].
      unfold boundary_elements. by rewrite loops_fold, seg_fold. }
    rewrite Hr. apply omap_GetElement. intros i Hi.
    unfold ids in Hi. rewrite first_seen_elem, elem_of_named in Hi. tauto.
Qed.
End Boundary.

(** * 関数/部屋から部屋境界線で隣り合う部屋の組み合わせを出力する.py: pairs of rooms

    The geometry (sampling the separation lines, finding the rooms on both
    sides, the overlap with walls) is Revit's and is not modelled.  What
    is modelled is what the script does with the outcome of each sample:
    the bookkeeping of [mark_pair] and the output.  Rooms are given by the
    integer value of their ids. *)

Record flags := Flags { clean : bool; dirty : bool }.

(** [mark_pair(a, b, clean_sample)] on [pair_flags]. *)
Definition mark_pair (pair_flags : dict (Z * Z) flags) (ida idb : Z)
    (clean_sample : bool) : dict (Z * Z) flags :=
  let key := if ida <? idb then (ida, idb) else (idb, ida) in
  let fl := default (Flags false false) (dget pair_flags key) in
  let fl := if clean_sample then Flags true (dirty fl) else Flags (clean fl) true in
  dset pair_flags key fl.

(** The outcome of one sample point of a boundary segment of the room
    [rm]: the rooms found on the left and on the right of the line, if
    any, and whether the point lies on a wall. *)
Record sample := Sample {
  s_rm : Z;
  s_left : option Z;
  s_right : option Z;
  s_overlapped : bool;
}.

(** [if left is rm and right is not None and right.Id != rm.Id: ...
     elif right is rm and left is not None and left.Id != rm.Id: ...] *)
Definition other_side (s : sample) : option Z :=
  match s_left s, s_right s with
  | Some l, Some r =>
      if decide (l = s_rm s ∧ r ≠ s_rm s) then Some r
      else if decide (r = s_rm s ∧ l ≠ s_rm s) then Some l
      else None
  | _, _ => None
  end.

Definition record_sample (pair_flags : dict (Z * Z) flags) (s : sample)
  : dict (Z * Z) flags :=
  match other_side s with
  | Some o => mark_pair pair_flags (s_rm s) o (negb (s_overlapped s))
  | None => pair_flags
  end.

Section Output.
Context {Element : Type}.
Variable GetElement : Z → option Element.

(** The output loop: a pair that has a clean sample and whose two rooms
    the document has. *)
Definition output_step (pairs : list (option Element * option Element))
    (kv : Z * Z * flags) : list (option Element * option Element) :=
  if clean kv.2 then
    match GetElement kv.1.1, GetElement kv.1.2 with
    | Some a, Some b => pairs ++ [(Some a, Some b)]
    | _, _ => pairs
    end
  else pairs.

(** [OUT]: the pairs, or [[[None, None]]] when there is none. *)
Definition output (pair_flags : dict (Z * Z) flags)
  : list (option Element * option Element) :=
  match foldl output_step [] pair_flags with
  | [] => [(None, None)]
  | pairs => pairs
  end.

Definition adjacent_rooms (samples : list sample)
  : list (option Element * option Element) :=
  output (foldl record_sample [] samples).
End Output.

Section Pairs.
Implicit Types (pf : dict (Z * Z) flags) (s : sample) (a b o : Z).

(** The sample [s] sees the rooms [a] and [b] on the two sides. *)
Definition marked s a b : Prop :=
  ∃ o, other_side s = Some o ∧ ((s_rm s = a ∧ o = b) ∨ (s_rm s = b ∧ o = a)).

(** The flags of a pair, [False] and [False] before its first sample. *)
Definition flags_of pf a b : flags := default (Flags false false) (dget pf (a, b)).

Lemma other_side_ne s o : other_side s = Some o → o ≠ s_rm s.
Proof.
  unfold other_side. destruct (s_left s) as [l|], (s_right s) as [r|]; try done.
  repeat case_decide; intros; simplify_eq; tauto.
Qed.

Lemma mark_pair_dget pf x y c a b :
  x ≠ y → a < b →
  dget (mark_pair pf x y c) (a, b)
  = if decide ((x = a ∧ y = b) ∨ (x = b ∧ y = a))
    then Some (if c then Flags true (dirty (flags_of pf a b))
               else Flags (clean (flags_of pf a b)) true)
    else dget pf (a, b).
Proof.
  intros Hxy Hab. unfold mark_pair, flags_of. rewrite dget_dset.
  destruct (x <? y) eqn:E; [apply Z.ltb_lt in E|apply Z.ltb_ge in E];
    repeat case_decide; simplify_eq; try done; try lia.
  all: destruct_or?; destruct_and?; simplify_eq; try lia.
Qed.

Lemma mark_pair_keys pf x y c k :
  x ≠ y → k ∈ keys (mark_pair pf x y c) ↔
  k = (Z.min x y, Z.max x y) ∨ k ∈ keys pf.
Proof.
  intros Hxy. unfold mark_pair. rewrite elem_of_keys_dset.
  destruct (x <? y) eqn:E; [apply Z.ltb_lt in E|apply Z.ltb_ge in E].
  - by rewrite Z.min_l, Z.max_r by lia.
  - by rewrite Z.min_r, Z.max_l by lia.
Qed.

Lemma record_samples_inv (samples : list sample) :
  let pf := foldl record_sample [] samples in
  NoDup (keys pf)
  ∧ (∀ a b, (a, b) ∈ keys pf → a < b)
  ∧ (∀ a b, a < b →
       ((a, b) ∈ keys pf ↔ ∃ s, s ∈ samples ∧ marked s a b)
       ∧ (clean (flags_of pf a b) = true
          ↔ ∃ s, s ∈ samples ∧ s_overlapped s = false ∧ marked s a b)
       ∧ (dirty (flags_of pf a b) = true
          ↔ ∃ s, s ∈ samples ∧ s_overlapped s = true ∧ marked s a b)).
Proof.
  cbv zeta. induction samples as [|s samples IH] using rev_ind.
  { simpl. split_and!; [constructor|by intros ?? ?%elem_of_nil|].
    intros a b _. unfold flags_of. simpl.
    split_and!; (split; [by intros ?%elem_of_nil || done|by intros (? & ?%elem_of_nil & _)]). }
  rewrite foldl_app. cbn [foldl]. set (pf := foldl record_sample [] samples) in *.
  destruct IH as (Hnd & Hlt & Hfl). unfold record_sample.
  destruct (other_side s) as [o|] eqn:Eo.
  2:{ split_and!; [done..|]. intros a b Hab. destruct (Hfl a b Hab) as (H1 & H2 & H3).
      assert (Hno : ¬ marked s a b) by (intros (? & ? & _); congruence).
      rewrite H1, H2, H3. setoid_rewrite elem_of_app.
      setoid_rewrite list_elem_of_singleton. naive_solver. }
  pose proof (other_side_ne s o Eo) as Hne.
  assert (Hm : ∀ a b, marked s a b ↔ (s_rm s = a ∧ o = b) ∨ (s_rm s = b ∧ o = a)).
  { intros a b. unfold marked. rewrite Eo. naive_solver. }
  split_and!.
  - by apply NoDup_keys_dset.
  - intros a b [E|Hk]%mark_pair_keys; [|by apply Hlt|congruence]. simplify_eq. lia.
  - intros a b Hab. destruct (Hfl a b Hab) as (H1 & H2 & H3).
    unfold flags_of at 1 2. rewrite mark_pair_dget by (done || congruence).
    setoid_rewrite elem_of_app. setoid_rewrite list_elem_of_singleton.
    rewrite mark_pair_keys by congruence.
    destruct (decide ((s_rm s = a ∧ o = b) ∨ (s_rm s = b ∧ o = a))) as [Hd|Hd].
    + assert (Hk : (a, b) = (Z.min (s_rm s) o, Z.max (s_rm s) o)).
      { destruct Hd as [[<- <-]|[<- <-]]; f_equal; lia. }
      apply Hm in Hd. destruct (s_overlapped s) eqn:Ov; simpl.
      * split_and!; [naive_solver| |naive_solver].
        rewrite H2. split; [naive_solver|]. intros (s' & [Hs'| ->] & Ho & Hm'); [eauto|congruence].
      * split_and!; [naive_solver|naive_solver|].
        rewrite H3. split; [naive_solver|]. intros (s' & [Hs'| ->] & Ho & Hm'); [eauto|congruence].
    + assert (Hk : (a, b) ≠ (Z.min (s_rm s) o, Z.max (s_rm s) o)).
      { intros Hk. apply Hd. injection Hk as Ha Hb. lia. }
      rewrite <- Hm in Hd. fold (flags_of pf a b). rewrite H1, H2, H3. naive_solver.
Qed.
End Pairs.

Lemma elem_of_dict {K V} `{EqDecision K} (d : dict K V) (k : K) (v : V) :
  NoDup (keys d) → (k, v) ∈ d ↔ dget d k = Some v.
Proof.
  unfold keys. induction d as [|[k0 v0] d IH]; intros Hnd; simpl.
  { rewrite elem_of_nil. naive_solver. }
  apply NoDup_cons in Hnd as [Hk Hnd]. rewrite elem_of_cons, (IH Hnd).
  destruct (decide (k0 = k)) as [->|Hne].
  - split; [|naive_solver]. intros [?|Hd]; [by simplify_eq|].
    destruct Hk. apply (dget_is_Some d k). eauto.
  - naive_solver.
Qed.

Section OutputFacts.
Context {Element : Type}.
Variable GetElement : Z → option Element.
Implicit Types (pf : list (Z * Z * flags)) (kv : Z * Z * flags).

(** An entry of [pair_flags] that the output loop lists. *)
Definition listed kv : Prop :=
  clean kv.2 = true ∧ is_Some (GetElement kv.1.1) ∧ is_Some (GetElement kv.1.2).

Global Instance listed_dec kv : Decision (listed kv).
Proof. unfold listed. apply _. Defined.

Lemma output_fold pf pairs :
  foldl (output_step GetElement) pairs pf
  = pairs ++ ((λ kv, (GetElement kv.1.1, GetElement kv.1.2)) <$> filter listed pf).
Proof.
  revert pairs. induction pf as [|kv pf IH]; intros pairs.
  { simpl. by rewrite app_nil_r. }
  cbn [foldl]. rewrite IH, filter_cons. unfold output_step.
  destruct (decide (listed kv)) as [(Hc & [x Ex] & [y Ey])|Hn].
  - rewrite Hc, Ex, Ey, fmap_cons, Ex, Ey, <- app_assoc. done.
  - destruct (clean kv.2) eqn:Hc; [|done].
    destruct (GetElement kv.1.1) as [x|] eqn:Ex; [|done].
    destruct (GetElement kv.1.2) as [y|] eqn:Ey; [|done].
    destruct Hn. unfold listed. rewrite Ex, Ey. split_and!; [done|by eexists..].
Qed.

(** X15: the output of the script lists, smaller id first and each pair
    once, exactly the pairs of different rooms that some sample point, not
    overlapped by a wall, has on its two sides, and that the document
    still holds; a pair that only has overlapped samples is left out.
    When there is no such pair the output is [[None, None]]: it is never
    empty. *)
Theorem adjacent_rooms_pairs (samples : list sample) :
  ∃ ids : list (Z * Z),
    NoDup ids
    ∧ (∀ a b, (a, b) ∈ ids ↔
         a < b ∧ is_Some (GetElement a) ∧ is_Some (GetElement b)
         ∧ ∃ s, s ∈ samples ∧ s_overlapped s = false ∧ marked s a b)
    ∧ adjacent_rooms GetElement samples
      = match ids with
        | [] => [(None, None)]
        | _ => (λ ab, (GetElement ab.1, GetElement ab.2)) <$> ids
        end
    ∧ adjacent_rooms GetElement samples ≠ [].
Proof.
  destruct (record_samples_inv samples) as (Hnd & Hlt & Hfl).
  set (pf := foldl record_sample [] samples : list (Z * Z * flags)) in *.
  exists ((filter listed pf).*1). split_and!.
  - apply (sublist_NoDup _ (keys pf)); [exact Hnd|].
    unfold keys. apply fmap_sublist, sublist_filter.
  - intros a b. rewrite list_elem_of_fmap. split.
    + intros ([k fl] & E & [(Hc & Ha & Hb) Hin]%list_elem_of_filter). simpl in *. subst k.
      assert (Hab : a < b).
      { apply Hlt. apply list_elem_of_fmap. by exists (a, b, fl). }
      apply elem_of_dict in Hin; [|done].
      split_and!; [done..|]. apply (Hfl a b Hab). unfold flags_of. by rewrite Hin.
    + intros (Hab & Ha & Hb & Hs). apply (Hfl a b Hab) in Hs.
      unfold flags_of in Hs. destruct (dget pf (a, b)) as [fl|] eqn:Ed; [|done].
      exists (a, b, fl). split; [done|]. apply list_elem_of_filter.
      split; [done|]. by apply elem_of_dict.
  - unfold adjacent_rooms, output. fold pf. rewrite output_fold. cbn [app].
    rewrite <- list_fmap_compose. destruct (filter listed pf); reflexivity.
  - unfold adjacent_rooms, output. fold pf. rewrite output_fold. cbn [app].
    destruct (_ <$> filter listed pf); discriminate.
Qed.
End OutputFacts.

(** * Renaming the nodes *)

Section Rename.
Context {A B : Type} `{EqDecision A} `{EqDecision B}.
Variable f : A → B.
Context `{!Inj (=) (=) f}.
Implicit Types (adj : dict A (list A)) (u v w s t x : A) (l : list A).

(** The adjacency structure with every node renamed. *)
Definition rename_adj adj : dict B (list B) :=
  (λ kv : A * list A, (f kv.1, f <$> kv.2)) <$> (adj : list (A * list A)).

Lemma keys_rename adj : keys (rename_adj adj) = f <$> keys adj.
Proof.
  unfold keys, rename_adj. rewrite <- !list_fmap_compose. by apply list_fmap_ext.
Qed.

Lemma dget_rename adj v : dget (rename_adj adj) (f v) = (fmap (M:=list) f) <$> dget adj v.
Proof.
  induction adj as [|[k l] adj IH]; [done|]. simpl.
  destruct (decide (f k = f v)) as [E|E], (decide (k = v)) as [E'|E']; try done.
  - by apply (inj f) in E.
  - by subst.
Qed.

Lemma adj_get_rename adj v : adj_get (rename_adj adj) (f v) = f <$> adj_get adj v.
Proof. unfold adj_get. rewrite dget_rename. by destruct (dget adj v). Qed.

Lemma dset_rename adj v l :
  dset (rename_adj adj) (f v) (f <$> l) = rename_adj (dset adj v l).
Proof.
  induction adj as [|[k l0] adj IH]; [done|]. simpl.
  destruct (decide (f k = f v)) as [E|E], (decide (k = v)) as [E'|E']; try done.
  - by apply (inj f) in E.
  - by subst.
  - unfold rename_adj in *. rewrite fmap_cons. simpl. by rewrite IH.
Qed.

Lemma set_add_rename x l : set_add (f x) (f <$> l) = f <$> set_add x l.
Proof.
  unfold set_add. destruct (decide (f x ∈ f <$> l)) as [E|E], (decide (x ∈ l)) as [E'|E'].
  - done.
  - by apply list_elem_of_fmap_inj in E.
  - destruct E. by apply list_elem_of_fmap_inj.
  - by rewrite fmap_app.
Qed.

Lemma add_edge_rename adj u v :
  add_edge (rename_adj adj) (f u, f v) = rename_adj (add_edge adj (u, v)).
Proof.
  unfold add_edge.
  destruct (decide (f u = f v)) as [E|E], (decide (u = v)) as [E'|E']; try done.
  - by apply (inj f) in E.
  - by subst.
  - rewrite adj_get_rename, set_add_rename, dset_rename.
    by rewrite adj_get_rename, set_add_rename, dset_rename.
Qed.

Lemma build_adj_rename (edges : list (A * A)) :
  build_adj (prod_map f f <$> edges) = rename_adj (build_adj edges).
Proof.
  unfold build_adj. change (@nil (B * list B)) with (rename_adj []).
  generalize (@nil (A * list A)). induction edges as [|[u v] edges IH]; intros adj; [done|].
  rewrite fmap_cons. cbn [foldl prod_map fst snd]. by rewrite add_edge_rename, IH.
Qed.

Lemma walks_rename adj k u w :
  walks (rename_adj adj) k (f u) (f w) = (fmap (M:=list) f) <$> walks adj k u w.
Proof.
  revert u. induction k as [|k IH]; intros u; cbn [walks].
  - destruct (decide (f u = f w)) as [E|E], (decide (u = w)) as [E'|E']; try done.
    + by apply (inj f) in E.
    + by subst.
  - rewrite adj_get_rename, list_fmap_bind.
    induction (adj_get adj u) as [|y l IHl]; [done|].
    rewrite !bind_cons, fmap_app, <- IHl. f_equal. simpl.
    rewrite IH, <- !list_fmap_compose. by apply list_fmap_ext.
Qed.

Lemma nwalks_rename adj k u w :
  nwalks (rename_adj adj) k (f u) (f w) = nwalks adj k u w.
Proof. unfold nwalks. by rewrite walks_rename, length_fmap. Qed.

Lemma distance_rename adj u w :
  distance (rename_adj adj) (f u) (f w) = distance adj u w.
Proof.
  unfold distance. rewrite keys_rename, length_fmap. apply find_ext.
  intros k. by rewrite nwalks_rename.
Qed.

Lemma npaths_rename adj u w : npaths (rename_adj adj) (f u) (f w) = npaths adj u w.
Proof.
  unfold npaths, shortest_paths. rewrite distance_rename.
  destruct (distance adj u w); [apply nwalks_rename|done].
Qed.

Lemma filter_fmap_iff (P : B → Prop) (Q : A → Prop)
    `{∀ b, Decision (P b)} `{∀ a, Decision (Q a)} l :
  (∀ a, P (f a) ↔ Q a) → filter P (f <$> l) = f <$> filter Q l.
Proof.
  intros HPQ. induction l as [|a l IH]; [done|].
  rewrite fmap_cons, !filter_cons, IH.
  destruct (decide (P (f a))) as [HP|HP], (decide (Q a)) as [HQ|HQ]; try done;
    apply HPQ in HP || apply HPQ in HQ; done.
Qed.

Lemma sumN_fmap (g : B → nat) l : sumN g (f <$> l) = sumN (λ a, g (f a)) l.
Proof. induction l as [|a l IH]; [done|]. rewrite fmap_cons, !big_cons. by rewrite IH. Qed.

Lemma reachable_from_rename adj s :
  reachable_from (rename_adj adj) (f s) = f <$> reachable_from adj s.
Proof.
  unfold reachable_from. rewrite keys_rename. apply filter_fmap_iff.
  intros w. by rewrite distance_rename.
Qed.

Lemma total_hops_rename adj s : total_hops (rename_adj adj) (f s) = total_hops adj s.
Proof.
  unfold total_hops. rewrite reachable_from_rename.
  rewrite (filter_fmap_iff _ (λ w, w ≠ s)) by (intros w; split; [congruence|intros ? ?%(inj f); done]).
  rewrite sumN_fmap. apply sumN_ext. intros w _. unfold hops. by rewrite distance_rename.
Qed.

Lemma closeness_spec_rename adj wf_improved s :
  closeness_spec (rename_adj adj) wf_improved (f s) = closeness_spec adj wf_improved s.
Proof.
  unfold closeness_spec.
  by rewrite total_hops_rename, reachable_from_rename, keys_rename, !length_fmap.
Qed.

Lemma degree_spec_rename adj v :
  degree_spec (rename_adj adj) (f v) = degree_spec adj v.
Proof. unfold degree_spec. by rewrite keys_rename, adj_get_rename, !length_fmap. Qed.

Lemma thru_rename adj s t x :
  thru (rename_adj adj) (f s) (f t) (f x) = thru adj s t x.
Proof.
  unfold thru. rewrite !npaths_rename. apply decide_ext.
  unfold on_path. by rewrite !distance_rename.
Qed.

Lemma delta_spec_rename adj s x :
  delta_spec (rename_adj adj) (f s) (f x) = delta_spec adj s x.
Proof.
  unfold delta_spec. rewrite keys_rename, sumQ_fmap. apply sumQ_ext. intros t _.
  unfold dep. rewrite thru_rename, npaths_rename.
  destruct (decide (f t ≠ f s ∧ f t ≠ f x)) as [[H1 H2]|Hn],
           (decide (t ≠ s ∧ t ≠ x)) as [[H3 H4]|Hn']; try done.
  - destruct Hn'. split; congruence.
  - destruct Hn. split; intros ?%(inj f); done.
Qed.

Lemma dependency_sum_rename adj x :
  dependency_sum (rename_adj adj) (f x) = dependency_sum adj x.
Proof.
  unfold dependency_sum. rewrite keys_rename, sumQ_fmap. apply sumQ_ext. intros s _.
  rewrite delta_spec_rename.
  destruct (decide (f x ≠ f s)) as [H1|H1], (decide (x ≠ s)) as [H2|H2]; try done.
  - destruct H2. congruence.
  - destruct H1. intros ?%(inj f). done.
Qed.

Lemma brandes_value_rename adj normalized x :
  brandes_value (rename_adj adj) normalized (f x) = brandes_value adj normalized x.
Proof.
  unfold brandes_value. by rewrite keys_rename, length_fmap, dependency_sum_rename.
Qed.

(** Scores over the renamed graph, read at a renamed node. *)
Lemma is_scores_rename adj (val : A → Qc) (val' : B → Qc) r r' :
  (∀ v, val' (f v) = val v) →
  is_scores adj val r → is_scores (rename_adj adj) val' r' →
  keys r' = f <$> keys r ∧ ∀ v, dget r' (f v) = dget r v.
Proof.
  intros Hval [Hk Hr] [Hk' Hr']. split; [by rewrite Hk', Hk, keys_rename|].
  intros v. destruct (decide (v ∈ keys adj)) as [Hv|Hv].
  - rewrite (Hr v Hv), Hr', Hval; [done|].
    rewrite keys_rename. by apply list_elem_of_fmap_inj.
  - rewrite (proj2 (dget_None r v)) by (by rewrite Hk).
    apply dget_None. rewrite Hk', keys_rename. by rewrite list_elem_of_fmap_inj.
Qed.

(** X17: renaming the nodes by an injective function renames the keys of
    the three results, in the same order, and leaves every score as it
    is: the scores depend on the shape of the graph, not on what the nodes
    are called. *)
Theorem centrality_rename (edges : list (A * A)) (wf_improved normalized : bool) :
  let edges' := prod_map f f <$> edges in
  (∃ r r', degree_centrality (FL:=rational) edges = Ok r
           ∧ degree_centrality (FL:=rational) edges' = Ok r'
           ∧ keys r' = f <$> keys r ∧ ∀ v, dget r' (f v) = dget r v)
  ∧ (∃ r r', closeness_centrality (FL:=rational) edges wf_improved = Ok r
             ∧ closeness_centrality (FL:=rational) edges' wf_improved = Ok r'
             ∧ keys r' = f <$> keys r ∧ ∀ v, dget r' (f v) = dget r v)
  ∧ (∃ r r', betweenness_centrality (FL:=rational) edges normalized = Ok r
             ∧ betweenness_centrality (FL:=rational) edges' normalized = Ok r'
             ∧ keys r' = f <$> keys r ∧ ∀ v, dget r' (f v) = dget r v).
Proof.
  intros edges'. split_and!.
  - destruct (degree_centrality_scores edges) as (r & E & Hr).
    destruct (degree_centrality_scores edges') as (r' & E' & Hr').
    unfold edges' in Hr'. rewrite build_adj_rename in Hr'.
    destruct (is_scores_rename _ _ _ r r' ltac:(intros v; apply degree_spec_rename) Hr Hr')
      as [Hk Hd].
    by exists r, r'.
  - destruct (closeness_centrality_scores edges wf_improved) as (r & E & Hr).
    destruct (closeness_centrality_scores edges' wf_improved) as (r' & E' & Hr').
    unfold edges' in Hr'. rewrite build_adj_rename in Hr'.
    destruct (is_scores_rename _ _ _ r r' ltac:(intros v; apply closeness_spec_rename) Hr Hr')
      as [Hk Hd].
    by exists r, r'.
  - destruct (betweenness_centrality_scores edges normalized) as (r & E & Hr).
    destruct (betweenness_centrality_scores edges' normalized) as (r' & E' & Hr').
    unfold edges' in Hr'. rewrite build_adj_rename in Hr'.
    destruct (is_scores_rename _ _ _ r r' ltac:(intros v; apply brandes_value_rename) Hr Hr')
      as [Hk Hd].
    by exists r, r'.
Qed.
End Rename.

(** X18: [mark_pair] does not tell [(a, b)] from [(b, a)]; it changes
    no entry but that of the pair; a flag that is set stays set, the flag
    that the call names is set, and the same call a second time changes
    nothing. *)
Theorem mark_pair_flags (pair_flags : dict (Z * Z) flags) (a b : Z) (c : bool) :
  let pf' := mark_pair pair_flags a b c in
  pf' = mark_pair pair_flags b a c
  ∧ mark_pair pf' a b c = pf'
  ∧ (∀ k, k ≠ (Z.min a b, Z.max a b) → dget pf' k = dget pair_flags k)
  ∧ ∃ fl, dget pf' (Z.min a b, Z.max a b) = Some fl
          ∧ (if c then clean fl else dirty fl) = true
          ∧ (clean (flags_of pair_flags (Z.min a b) (Z.max a b)) = true → clean fl = true)
          ∧ (dirty (flags_of pair_flags (Z.min a b) (Z.max a b)) = true → dirty fl = true).
Proof.
  intros pf'. unfold pf', mark_pair, flags_of.
  assert (Hk : (if a <? b then (a, b) else (b, a)) = (Z.min a b, Z.max a b)).
  { destruct (a <? b) eqn:E; [apply Z.ltb_lt in E|apply Z.ltb_ge in E]; f_equal; lia. }
  assert (Hk' : (if b <? a then (b, a) else (a, b)) = (Z.min a b, Z.max a b)).
  { destruct (b <? a) eqn:E; [apply Z.ltb_lt in E|apply Z.ltb_ge in E]; f_equal; lia. }
  rewrite Hk, Hk'. set (k0 := (Z.min a b, Z.max a b)). split_and!.
  - done.
  - rewrite dget_dset_eq. simpl.
    assert (Hd : ∀ (d : dict (Z * Z) flags) k v, dget d k = Some v → dset d k v = d).
    { intros d k v. induction d as [|[k1 v1] d IH]; simpl; [done|].
      destruct (decide (k1 = k)) as [->|]; [by intros [= ->]|]. intros ?. f_equal. auto. }
    apply Hd. rewrite dget_dset_eq. by destruct c, (dget pair_flags k0) as [[]|].
  - intros k Hne. by rewrite dget_dset_ne.
  - eexists. split; [apply dget_dset_eq|]. destruct c; simpl; tauto.
Qed.

(** * Symmetries of the graph *)

Section Symmetry.
Context {A : Type} `{EqDecision A}.
Variable f : A → A.
Context `{!Inj (=) (=) f}.


End Symmetry.

(** * The theorems with a hypothesis, at concrete inputs *)

Lemma path3_node : (1%nat ∈ keys (build_adj path3)).
Proof. apply (bool_decide_unpack _). vm_compute. exact I. Defined.

(** X3 on the path 1 – 2 – 3, from node 1. *)
Lemma bfs_sum_dist_correct_witness :
  (1%nat ∈ keys (build_adj path3))
  ∧ ∃ dist,
      cl_loop (build_adj path3) (S (length (keys (build_adj path3))))
              [(1%nat, 0)] [1%nat] = Ok dist
      ∧ NoDup (keys dist)
      ∧ (∀ w, dget dist w = Z.of_nat <$> distance (build_adj path3) 1%nat w)
      ∧ (∀ l1 x l2 y a b, keys dist = l1 ++ x :: l2 → y ∈ l1 →
           distance (build_adj path3) 1%nat y = Some a →
           distance (build_adj path3) 1%nat x = Some b → (a ≤ b)%nat)
      ∧ bfs_sum_dist (build_adj path3) (S (length (keys (build_adj path3)))) 1%nat
        = Ok (Z.of_nat (sumN (hops (build_adj path3) 1%nat)
                          (filter (λ w, w ≠ 1%nat)
                                  (reachable_from (build_adj path3) 1%nat))),
              Z.of_nat (length (reachable_from (build_adj path3) 1%nat))).
Proof.
  split; [exact path3_node|].
  exact (bfs_sum_dist_correct path3 1%nat path3_node).
Defined.

Example bfs_sum_dist_path3 :
  bfs_sum_dist (build_adj path3) 4 1%nat = Ok (3, 3)
  ∧ bfs_sum_dist (build_adj path3) 4 2%nat = Ok (2, 3).
Proof. split; reflexivity. Qed.




(** X8 on the path 1 – 2 – 3: node 1 has the single neighbour 2. *)
Lemma path3_end_simplicial :
  ∀ y z : nat, y ∈ adj_get (build_adj path3) 1%nat →
    z ∈ adj_get (build_adj path3) 1%nat → y ≠ z → z ∈ adj_get (build_adj path3) y.
Proof.
  change (adj_get (build_adj path3) 1%nat) with [2%nat].
  intros y z Hy Hz Hne. apply list_elem_of_singleton in Hy, Hz. congruence.
Defined.

Lemma betweenness_simplicial_zero_witness :
  (1%nat ∈ keys (build_adj path3))
  ∧ (∀ y z : nat, y ∈ adj_get (build_adj path3) 1%nat →
       z ∈ adj_get (build_adj path3) 1%nat → y ≠ z →
       z ∈ adj_get (build_adj path3) y)
  ∧ ∃ r, betweenness_centrality (FL:=rational) path3 false = Ok r
         ∧ dget r 1%nat = Some 0%Qc.
Proof.
  split; [exact path3_node|]. split; [exact path3_end_simplicial|].
  exact (betweenness_simplicial_zero path3 false 1%nat path3_node path3_end_simplicial).
Defined.

(** X11: two groups and an empty one, two lists deep. *)
Definition three_groups : list (list pyobj) :=
  [[PyDict [("ID"%string, PyInt 1)]; PyDict [("ID"%string, PyInt 2)]];
   [];
   [PyDict [("ID"%string, PyInt 3)]]].

Lemma three_groups_headed : ∀ g, g ∈ three_groups → g = [] ∨ dict_headed g.
Proof.
  intros g Hg. unfold three_groups in Hg.
  repeat (apply elem_of_cons in Hg as [->|Hg]; [simpl; tauto|]).
  by apply elem_of_nil in Hg.
Defined.

Lemma extract_groups_nested_witness :
  (∀ g, g ∈ three_groups → g = [] ∨ dict_headed g)
  ∧ extract_groups (wrap 2 (PyList (PyList <$> three_groups)))
    = filter (λ g, g ≠ []) three_groups.
Proof.
  split; [exact three_groups_headed|].
  exact (extract_groups_nested three_groups 2 three_groups_headed).
Defined.

(** X13: a reply with the shape of the request. *)
Definition echo (groups : list (list pyobj)) : pyobj := PyList (PyList <$> groups).

Lemma main_flattens_witness :
  extract_groups (PyList (PyList <$> three_groups)) ≠ []
  ∧ echo (extract_groups (PyList (PyList <$> three_groups)))
    = PyList [PyList [PyDict [("ID"%string, PyInt 1)]; PyDict [("ID"%string, PyInt 2)]];
              PyList [PyDict [("ID"%string, PyInt 3)]]]
  ∧ main echo (PyList (PyList <$> three_groups))
    = Ok [PyDict [("ID"%string, PyInt 1)]; PyDict [("ID"%string, PyInt 2)];
          PyDict [("ID"%string, PyInt 3)]].
Proof.
  assert (H1 : extract_groups (PyList (PyList <$> three_groups)) ≠ []) by done.
  assert (H2 : echo (extract_groups (PyList (PyList <$> three_groups)))
    = PyList [PyList [PyDict [("ID"%string, PyInt 1)]; PyDict [("ID"%string, PyInt 2)]];
              PyList [PyDict [("ID"%string, PyInt 3)]]]) by reflexivity.
  split; [exact H1|]. split; [exact H2|].
  exact (proj1 (main_flattens echo (PyList (PyList <$> three_groups)) _ H1 H2)).
Defined.

(** X17: the path 1 – 2 – 3 renamed to 2 – 3 – 4. *)
Lemma centrality_rename_witness :
  Inj (=) (=) S
  ∧ (∃ r r', degree_centrality (FL:=rational) path3 = Ok r
             ∧ degree_centrality (FL:=rational) (prod_map S S <$> path3) = Ok r'
             ∧ keys r' = S <$> keys r ∧ ∀ v, dget r' (S v) = dget r v)
  ∧ (∃ r r', closeness_centrality (FL:=rational) path3 true = Ok r
             ∧ closeness_centrality (FL:=rational) (prod_map S S <$> path3) true = Ok r'
             ∧ keys r' = S <$> keys r ∧ ∀ v, dget r' (S v) = dget r v)
  ∧ (∃ r r', betweenness_centrality (FL:=rational) path3 true = Ok r
             ∧ betweenness_centrality (FL:=rational) (prod_map S S <$> path3) true = Ok r'
             ∧ keys r' = S <$> keys r ∧ ∀ v, dget r' (S v) = dget r v).
Proof.
  split; [apply _|]. exact (centrality_rename S path3 true true).
Defined.




